(** * The talkinghead live-mode animation engine

    A model of [talkinghead/tha3/app/app.py]: the control surface
    ([setEmotion], [start_talking], ...), the animation drivers of
    [Animator], the render tick, and the render / encode / send pipeline
    with its flow control.

    Conventions of the model.
    - A Python [float] is a real number: arithmetic is exact, rounding is
      not modelled.  The one exception is [Binary64], which has the loop
      of [interpolate_pose] on binary64 numbers as the machine computes
      it.  Nanosecond timestamps ([time.time_ns()]) are integers.
    - A pose is a Python list that several names may refer to, so poses
      live in a store of list objects and are passed around as references.
    - [time.time_ns()] and [random.random()] read from two oracles carried
      by the state; [random.uniform(a, b)] is [a + (b - a) * random()], as
      in CPython.
    - Python exceptions are values of [exn]; a computation either returns
      or raises, and keeps the state it reached in both cases. *)

From Stdlib Require Import Reals Lra Lia ZArith.
From Stdlib Require Import PrimFloat.
From stdpp Require Import base option list gmap strings.

Open Scope R_scope.

(** ** Python runtime *)

Inductive exn : Type :=
| IndexError      (* list index out of range *)
| KeyError        (* missing dictionary key *)
| TypeError       (* arithmetic on [None] *)
| AttributeError  (* attribute access on [None] *)
| UnidentifiedImageError  (* PIL finds no image in the data *)
| OSError         (* PIL cannot read the data, e.g. a truncated file *)
| SystemError.    (* a reference to no object: cannot arise in Python *)

#[global] Instance exn_eq_dec : EqDecision exn.
Proof. solve_decision. Defined.

Inductive level : Type := DEBUG | INFO | WARNING | ERROR.

Record log_record : Type := LogRecord { levelname : level; message : string }.

(** References to list objects: the position in the store. *)
Definition loc : Type := nat.

(** What [Animator.load_image] can end with, for one image. *)
Inductive load_result (T : Type) : Type :=
| Loaded (t : T)              (* RGBA image, converted for the poser *)
| NoAlpha                     (* [pil_image.mode != "RGBA"] *)
| LoadFailed (exc : string).  (* an exception inside the [try] block, with its text *)
Arguments Loaded {T} t.
Arguments NoAlpha {T}.
Arguments LoadFailed {T} exc.

(** ** What the module imports

    [posedict_keys], [posedict_key_to_index] and [posedict_to_pose] come
    from [tha3.app.util]; the image types and the functions on them come
    from torch, PIL and numpy.  None of them is in this module, so they
    are parameters of the model. *)
Class Collaborators : Type := {
  posedict_keys : list string;
  posedict_key_to_index : gmap string nat;
  posedict_to_pose : gmap string R → list R;
  tensor : Type;      (* the character image, as the poser wants it *)
  ndarray : Type;     (* a rendered frame, [h, w, c] uint8 *)
  pil_image : Type;   (* an image as uploaded *)
  png : Type;         (* the bytes of an encoded frame *)
  (* [poser.pose], the postprocessor, gamma correction and the conversion
     to uint8, lines 615-633 *)
  pose_image : tensor → list R → ndarray;
  (* [resize_PIL_image(extract_PIL_image_from_filelike(file_path), ...)],
     lines 365-367: the image, or the text of the exception raised *)
  extract_PIL_image_from_filelike : option string → string + pil_image;
  (* [pil_image.size] *)
  size : pil_image → nat * nat;
  (* lines 373-382 of [load_image] for a given PIL image:
     [to_talkinghead_image] when the size is not 512 x 512, the test of
     the mode, and the conversion to a tensor *)
  extract_source : pil_image → load_result tensor;
  (* PIL's PNG encoder, lines 691-706 *)
  encode_png : ndarray → png;
  (* the bundled placeholder image [tha3/images/inital.png] *)
  inital_png : pil_image;
}.

Section Engine.
Context `{Collaborators}.

(** ** State *)

(** The attributes of an [Animator] instance that the module reads or
    writes ([poser], [device], [postprocessor], [animator_thread] and
    [emotion_names] are left out). *)
Record Animator : Type := {
  current_pose : option loc;
  last_emotion : option string;
  last_emotion_change_timestamp : option Z;
  last_blink_timestamp : option Z;
  blink_interval : option R;
  last_sway_target_timestamp : option Z;
  last_sway_target_pose : option loc;
  sway_interval : option R;
  breathing_epoch : Z;
  render_duration_statistics : list R;   (* the datapoints added so far *)
  source_image : option tensor;
  result_image : option ndarray;
  new_frame_available : bool;
  last_report_time : option Z;
  emotions : gmap string (gmap string R);
}.

(** The module-level globals, the store of list objects, the two oracles
    and the log. *)
Record World : Type := {
  heap : list (list R);
  clock : nat → Z;      (* the results of the coming [time.time_ns()] calls *)
  rng : nat → R;        (* the results of the coming [random.random()] calls *)
  log : list log_record;
  animation_running : bool;
  current_emotion : string;
  is_talking : bool;
  global_reload_image : option pil_image;
  global_animator_instance : option Animator;
}.

Definition set_heap (h : list (list R)) (w : World) : World :=
  {| heap := h; clock := clock w; rng := rng w; log := log w;
     animation_running := animation_running w;
     current_emotion := current_emotion w; is_talking := is_talking w;
     global_reload_image := global_reload_image w;
     global_animator_instance := global_animator_instance w |}.

Definition set_clock (c : nat → Z) (w : World) : World :=
  {| heap := heap w; clock := c; rng := rng w; log := log w;
     animation_running := animation_running w;
     current_emotion := current_emotion w; is_talking := is_talking w;
     global_reload_image := global_reload_image w;
     global_animator_instance := global_animator_instance w |}.

Definition set_rng (g : nat → R) (w : World) : World :=
  {| heap := heap w; clock := clock w; rng := g; log := log w;
     animation_running := animation_running w;
     current_emotion := current_emotion w; is_talking := is_talking w;
     global_reload_image := global_reload_image w;
     global_animator_instance := global_animator_instance w |}.

Definition set_log (l : list log_record) (w : World) : World :=
  {| heap := heap w; clock := clock w; rng := rng w; log := l;
     animation_running := animation_running w;
     current_emotion := current_emotion w; is_talking := is_talking w;
     global_reload_image := global_reload_image w;
     global_animator_instance := global_animator_instance w |}.

Definition set_animation_running (b : bool) (w : World) : World :=
  {| heap := heap w; clock := clock w; rng := rng w; log := log w;
     animation_running := b;
     current_emotion := current_emotion w; is_talking := is_talking w;
     global_reload_image := global_reload_image w;
     global_animator_instance := global_animator_instance w |}.

Definition set_current_emotion (e : string) (w : World) : World :=
  {| heap := heap w; clock := clock w; rng := rng w; log := log w;
     animation_running := animation_running w;
     current_emotion := e; is_talking := is_talking w;
     global_reload_image := global_reload_image w;
     global_animator_instance := global_animator_instance w |}.

Definition set_is_talking (b : bool) (w : World) : World :=
  {| heap := heap w; clock := clock w; rng := rng w; log := log w;
     animation_running := animation_running w;
     current_emotion := current_emotion w; is_talking := b;
     global_reload_image := global_reload_image w;
     global_animator_instance := global_animator_instance w |}.

Definition set_global_reload_image (i : option pil_image) (w : World) : World :=
  {| heap := heap w; clock := clock w; rng := rng w; log := log w;
     animation_running := animation_running w;
     current_emotion := current_emotion w; is_talking := is_talking w;
     global_reload_image := i;
     global_animator_instance := global_animator_instance w |}.

Definition set_global_animator_instance (a : option Animator) (w : World) : World :=
  {| heap := heap w; clock := clock w; rng := rng w; log := log w;
     animation_running := animation_running w;
     current_emotion := current_emotion w; is_talking := is_talking w;
     global_reload_image := global_reload_image w;
     global_animator_instance := a |}.

(** One setter per attribute that the module assigns. *)

Definition set_current_pose (v : option loc) (a : Animator) : Animator :=
  {| current_pose := v; last_emotion := last_emotion a;
     last_emotion_change_timestamp := last_emotion_change_timestamp a;
     last_blink_timestamp := last_blink_timestamp a;
     blink_interval := blink_interval a;
     last_sway_target_timestamp := last_sway_target_timestamp a;
     last_sway_target_pose := last_sway_target_pose a;
     sway_interval := sway_interval a;
     breathing_epoch := breathing_epoch a;
     render_duration_statistics := render_duration_statistics a;
     source_image := source_image a; result_image := result_image a;
     new_frame_available := new_frame_available a;
     last_report_time := last_report_time a; emotions := emotions a |}.

Definition set_last_emotion (v : option string) (a : Animator) : Animator :=
  {| current_pose := current_pose a; last_emotion := v;
     last_emotion_change_timestamp := last_emotion_change_timestamp a;
     last_blink_timestamp := last_blink_timestamp a;
     blink_interval := blink_interval a;
     last_sway_target_timestamp := last_sway_target_timestamp a;
     last_sway_target_pose := last_sway_target_pose a;
     sway_interval := sway_interval a;
     breathing_epoch := breathing_epoch a;
     render_duration_statistics := render_duration_statistics a;
     source_image := source_image a; result_image := result_image a;
     new_frame_available := new_frame_available a;
     last_report_time := last_report_time a; emotions := emotions a |}.

Definition set_last_emotion_change_timestamp (v : option Z) (a : Animator) : Animator :=
  {| current_pose := current_pose a; last_emotion := last_emotion a;
     last_emotion_change_timestamp := v;
     last_blink_timestamp := last_blink_timestamp a;
     blink_interval := blink_interval a;
     last_sway_target_timestamp := last_sway_target_timestamp a;
     last_sway_target_pose := last_sway_target_pose a;
     sway_interval := sway_interval a;
     breathing_epoch := breathing_epoch a;
     render_duration_statistics := render_duration_statistics a;
     source_image := source_image a; result_image := result_image a;
     new_frame_available := new_frame_available a;
     last_report_time := last_report_time a; emotions := emotions a |}.

Definition set_last_blink_timestamp (v : option Z) (a : Animator) : Animator :=
  {| current_pose := current_pose a; last_emotion := last_emotion a;
     last_emotion_change_timestamp := last_emotion_change_timestamp a;
     last_blink_timestamp := v; blink_interval := blink_interval a;
     last_sway_target_timestamp := last_sway_target_timestamp a;
     last_sway_target_pose := last_sway_target_pose a;
     sway_interval := sway_interval a;
     breathing_epoch := breathing_epoch a;
     render_duration_statistics := render_duration_statistics a;
     source_image := source_image a; result_image := result_image a;
     new_frame_available := new_frame_available a;
     last_report_time := last_report_time a; emotions := emotions a |}.

Definition set_blink_interval (v : option R) (a : Animator) : Animator :=
  {| current_pose := current_pose a; last_emotion := last_emotion a;
     last_emotion_change_timestamp := last_emotion_change_timestamp a;
     last_blink_timestamp := last_blink_timestamp a; blink_interval := v;
     last_sway_target_timestamp := last_sway_target_timestamp a;
     last_sway_target_pose := last_sway_target_pose a;
     sway_interval := sway_interval a;
     breathing_epoch := breathing_epoch a;
     render_duration_statistics := render_duration_statistics a;
     source_image := source_image a; result_image := result_image a;
     new_frame_available := new_frame_available a;
     last_report_time := last_report_time a; emotions := emotions a |}.

Definition set_last_sway_target_timestamp (v : option Z) (a : Animator) : Animator :=
  {| current_pose := current_pose a; last_emotion := last_emotion a;
     last_emotion_change_timestamp := last_emotion_change_timestamp a;
     last_blink_timestamp := last_blink_timestamp a;
     blink_interval := blink_interval a; last_sway_target_timestamp := v;
     last_sway_target_pose := last_sway_target_pose a;
     sway_interval := sway_interval a;
     breathing_epoch := breathing_epoch a;
     render_duration_statistics := render_duration_statistics a;
     source_image := source_image a; result_image := result_image a;
     new_frame_available := new_frame_available a;
     last_report_time := last_report_time a; emotions := emotions a |}.

Definition set_last_sway_target_pose (v : option loc) (a : Animator) : Animator :=
  {| current_pose := current_pose a; last_emotion := last_emotion a;
     last_emotion_change_timestamp := last_emotion_change_timestamp a;
     last_blink_timestamp := last_blink_timestamp a;
     blink_interval := blink_interval a;
     last_sway_target_timestamp := last_sway_target_timestamp a;
     last_sway_target_pose := v; sway_interval := sway_interval a;
     breathing_epoch := breathing_epoch a;
     render_duration_statistics := render_duration_statistics a;
     source_image := source_image a; result_image := result_image a;
     new_frame_available := new_frame_available a;
     last_report_time := last_report_time a; emotions := emotions a |}.

Definition set_sway_interval (v : option R) (a : Animator) : Animator :=
  {| current_pose := current_pose a; last_emotion := last_emotion a;
     last_emotion_change_timestamp := last_emotion_change_timestamp a;
     last_blink_timestamp := last_blink_timestamp a;
     blink_interval := blink_interval a;
     last_sway_target_timestamp := last_sway_target_timestamp a;
     last_sway_target_pose := last_sway_target_pose a; sway_interval := v;
     breathing_epoch := breathing_epoch a;
     render_duration_statistics := render_duration_statistics a;
     source_image := source_image a; result_image := result_image a;
     new_frame_available := new_frame_available a;
     last_report_time := last_report_time a; emotions := emotions a |}.

Definition set_breathing_epoch (v : Z) (a : Animator) : Animator :=
  {| current_pose := current_pose a; last_emotion := last_emotion a;
     last_emotion_change_timestamp := last_emotion_change_timestamp a;
     last_blink_timestamp := last_blink_timestamp a;
     blink_interval := blink_interval a;
     last_sway_target_timestamp := last_sway_target_timestamp a;
     last_sway_target_pose := last_sway_target_pose a;
     sway_interval := sway_interval a; breathing_epoch := v;
     render_duration_statistics := render_duration_statistics a;
     source_image := source_image a; result_image := result_image a;
     new_frame_available := new_frame_available a;
     last_report_time := last_report_time a; emotions := emotions a |}.

Definition set_render_duration_statistics (v : list R) (a : Animator) : Animator :=
  {| current_pose := current_pose a; last_emotion := last_emotion a;
     last_emotion_change_timestamp := last_emotion_change_timestamp a;
     last_blink_timestamp := last_blink_timestamp a;
     blink_interval := blink_interval a;
     last_sway_target_timestamp := last_sway_target_timestamp a;
     last_sway_target_pose := last_sway_target_pose a;
     sway_interval := sway_interval a;
     breathing_epoch := breathing_epoch a;
     render_duration_statistics := v; source_image := source_image a;
     result_image := result_image a;
     new_frame_available := new_frame_available a;
     last_report_time := last_report_time a; emotions := emotions a |}.

Definition set_source_image (v : option tensor) (a : Animator) : Animator :=
  {| current_pose := current_pose a; last_emotion := last_emotion a;
     last_emotion_change_timestamp := last_emotion_change_timestamp a;
     last_blink_timestamp := last_blink_timestamp a;
     blink_interval := blink_interval a;
     last_sway_target_timestamp := last_sway_target_timestamp a;
     last_sway_target_pose := last_sway_target_pose a;
     sway_interval := sway_interval a;
     breathing_epoch := breathing_epoch a;
     render_duration_statistics := render_duration_statistics a;
     source_image := v; result_image := result_image a;
     new_frame_available := new_frame_available a;
     last_report_time := last_report_time a; emotions := emotions a |}.

Definition set_result_image (v : option ndarray) (a : Animator) : Animator :=
  {| current_pose := current_pose a; last_emotion := last_emotion a;
     last_emotion_change_timestamp := last_emotion_change_timestamp a;
     last_blink_timestamp := last_blink_timestamp a;
     blink_interval := blink_interval a;
     last_sway_target_timestamp := last_sway_target_timestamp a;
     last_sway_target_pose := last_sway_target_pose a;
     sway_interval := sway_interval a;
     breathing_epoch := breathing_epoch a;
     render_duration_statistics := render_duration_statistics a;
     source_image := source_image a; result_image := v;
     new_frame_available := new_frame_available a;
     last_report_time := last_report_time a; emotions := emotions a |}.

Definition set_new_frame_available (v : bool) (a : Animator) : Animator :=
  {| current_pose := current_pose a; last_emotion := last_emotion a;
     last_emotion_change_timestamp := last_emotion_change_timestamp a;
     last_blink_timestamp := last_blink_timestamp a;
     blink_interval := blink_interval a;
     last_sway_target_timestamp := last_sway_target_timestamp a;
     last_sway_target_pose := last_sway_target_pose a;
     sway_interval := sway_interval a;
     breathing_epoch := breathing_epoch a;
     render_duration_statistics := render_duration_statistics a;
     source_image := source_image a; result_image := result_image a;
     new_frame_available := v; last_report_time := last_report_time a;
     emotions := emotions a |}.

Definition set_last_report_time (v : option Z) (a : Animator) : Animator :=
  {| current_pose := current_pose a; last_emotion := last_emotion a;
     last_emotion_change_timestamp := last_emotion_change_timestamp a;
     last_blink_timestamp := last_blink_timestamp a;
     blink_interval := blink_interval a;
     last_sway_target_timestamp := last_sway_target_timestamp a;
     last_sway_target_pose := last_sway_target_pose a;
     sway_interval := sway_interval a;
     breathing_epoch := breathing_epoch a;
     render_duration_statistics := render_duration_statistics a;
     source_image := source_image a; result_image := result_image a;
     new_frame_available := new_frame_available a; last_report_time := v;
     emotions := emotions a |}.

Definition set_emotions (v : gmap string (gmap string R)) (a : Animator) : Animator :=
  {| current_pose := current_pose a; last_emotion := last_emotion a;
     last_emotion_change_timestamp := last_emotion_change_timestamp a;
     last_blink_timestamp := last_blink_timestamp a;
     blink_interval := blink_interval a;
     last_sway_target_timestamp := last_sway_target_timestamp a;
     last_sway_target_pose := last_sway_target_pose a;
     sway_interval := sway_interval a;
     breathing_epoch := breathing_epoch a;
     render_duration_statistics := render_duration_statistics a;
     source_image := source_image a; result_image := result_image a;
     new_frame_available := new_frame_available a;
     last_report_time := last_report_time a; emotions := v |}.

(** ** Computations: state and exceptions *)

Inductive outcome (A : Type) : Type :=
| Return (a : A) (w : World)
| Raised (e : exn) (w : World).
Arguments Return {A} a w.
Arguments Raised {A} e w.

Definition M (A : Type) : Type := World → outcome A.

#[export] Instance M_ret : MRet M := λ A a w, Return a w.
#[export] Instance M_bind : MBind M := λ A B k m w,
  match m w with
  | Return a w' => k a w'
  | Raised e w' => Raised e w'
  end.

Definition final {A} (o : outcome A) : World :=
  match o with Return _ w | Raised _ w => w end.

(** What a computation returned, if it did. *)
Definition returned {A} (o : outcome A) : option A :=
  match o with Return a _ => Some a | Raised _ _ => None end.

(** Channel [idx] of the list behind [l]. *)
Definition channel (w : World) (l : loc) (idx : nat) : option R :=
  heap w !! l ≫= λ v, v !! idx.

Definition gets {A} (f : World → A) : M A := λ w, Return (f w) w.
Definition modify (f : World → World) : M unit := λ w, Return () (f w).
Definition raise {A} (e : exn) : M A := λ w, Raised e w.

(** [time.time_ns()] *)
Definition time_ns : M Z :=
  λ w, Return (clock w 0%nat) (set_clock (λ n, clock w (S n)) w).

(** [random.random()] and [random.uniform(a, b)] *)
Definition random : M R :=
  λ w, Return (rng w 0%nat) (set_rng (λ n, rng w (S n)) w).
Definition uniform (a b : R) : M R :=
  r ← random; mret (a + (b - a) * r).

(** [logger.<level>(msg)] *)
Definition logger (l : level) (msg : string) : M unit :=
  modify (λ w, set_log (log w ++ [LogRecord l msg]) w).

(** [list(l)]: a new list object with the elements of [l]. *)
Definition list_copy (l : loc) : M loc := λ w,
  match heap w !! l with
  | Some v => Return (length (heap w)) (set_heap (heap w ++ [v]) w)
  | None => Raised SystemError w
  end.

(** [l[i]] *)
Definition getitem (l : loc) (i : nat) : M R := λ w,
  match heap w !! l with
  | Some v => match v !! i with
              | Some x => Return x w
              | None => Raised IndexError w
              end
  | None => Raised SystemError w
  end.

(** [l[i] = x], in place *)
Definition setitem (l : loc) (i : nat) (x : R) : M unit := λ w,
  match heap w !! l with
  | Some v => if decide (i < length v)%nat
              then Return () (set_heap (<[l := <[i := x]> v]> (heap w)) w)
              else Raised IndexError w
  | None => Raised SystemError w
  end.

(** [d[k]] for a dictionary *)
Definition dict_get {V} (d : gmap string V) (k : string) : M V :=
  match d !! k with
  | Some v => mret v
  | None => raise KeyError
  end.

(** [self], for the methods of [Animator]: the one instance there is. *)
Definition self : M Animator := λ w,
  match global_animator_instance w with
  | Some a => Return a w
  | None => Raised AttributeError w
  end.

(** [self.<attr> = ...] *)
Definition setattr (f : Animator → Animator) : M unit := λ w,
  match global_animator_instance w with
  | Some a => Return () (set_global_animator_instance (Some (f a)) w)
  | None => Raised AttributeError w
  end.

#[export] Instance Rlt_decision : RelDecision Rlt := Rlt_dec.
#[export] Instance Rle_decision : RelDecision Rle := Rle_dec.
#[export] Instance Rgt_decision : RelDecision Rgt := Rgt_dec.

(** [for x in xs: body] and [enumerate(xs)] *)
Fixpoint for_in {A} (xs : list A) (body : A → M unit) : M unit :=
  match xs with
  | [] => mret ()
  | x :: xs' => body x;; for_in xs' body
  end.

Fixpoint enumerate_from {A} (n : nat) (xs : list A) : list (nat * A) :=
  match xs with
  | [] => []
  | x :: xs' => (n, x) :: enumerate_from (S n) xs'
  end.
Definition enumerate {A} (xs : list A) : list (nat * A) := enumerate_from 0 xs.

(** [(time_now - t) / 10**9], where the attribute [t] may still be [None] *)
Definition seconds_since (time_now : Z) (t : option Z) : M R :=
  match t with
  | Some t0 => mret (IZR (time_now - t0) / 10 ^ 9)
  | None => raise TypeError
  end.

(** [int(x)] for a float: truncation toward zero *)
Definition py_int (x : R) : Z :=
  if decide (0 <= x) then Int_part x else (- Int_part (- x))%Z.

(** ** Construction of the animator (lines 291-306, 335-349)

    Both methods run on the object under construction, before it is the
    global instance, so the object is passed along: [obj] is the object
    as allocated, and every attribute of the model is assigned. *)

Definition reset_animation_state (obj : Animator) : M Animator :=
  let obj := set_current_pose None obj in
  let obj := set_last_emotion None obj in
  let obj := set_last_emotion_change_timestamp None obj in
  let obj := set_last_blink_timestamp None obj in
  let obj := set_blink_interval None obj in
  let obj := set_last_sway_target_timestamp None obj in
  let obj := set_last_sway_target_pose None obj in
  let obj := set_sway_interval None obj in
  time_now ← time_ns;
  mret (set_breathing_epoch time_now obj).

(** [presets] is what [load_emotion_presets] finds in
    "talkinghead/emotions". *)
Definition Animator__init__ (obj : Animator) (presets : gmap string (gmap string R))
    : M Animator :=
  obj ← reset_animation_state obj;
  let obj := set_render_duration_statistics [] obj in
  let obj := set_source_image None obj in
  let obj := set_result_image None obj in
  let obj := set_new_frame_available false obj in
  let obj := set_last_report_time None obj in
  mret (set_emotions presets obj).

(** ** Animation drivers (lines 393-573) *)

Definition apply_emotion_to_pose (emotion_posedict : gmap string R) (pose : loc) : M loc :=
  new_pose ← list_copy pose;
  for_in (enumerate posedict_keys) (λ '(idx, key),
    if decide (is_Some (emotion_posedict !! key) ∧ key ≠ "breathing_index")
    then v ← dict_get emotion_posedict key; setitem new_pose idx v
    else mret ());;
  mret new_pose.

Definition animate_blinking (pose : loc) : M loc :=
  r ← random;
  let should_blink := bool_decide (r <= 0.03) in
  time_now ← time_ns;
  a ← self;
  should_blink ←
    match blink_interval a with
    | Some interval =>
        seconds_since_last_emotion_change ←
          seconds_since time_now (last_emotion_change_timestamp a);
        ce ← gets current_emotion;
        if decide (ce = "confusion" ∧ seconds_since_last_emotion_change < 10)
        then mret should_blink
        else
          seconds_since_last_blink ← seconds_since time_now (last_blink_timestamp a);
          if decide (seconds_since_last_blink < interval)
          then mret false
          else mret should_blink
    | None => mret should_blink
    end;
  if negb should_blink then mret pose
  else
    new_pose ← list_copy pose;
    for_in ["eye_wink_left_index"; "eye_wink_right_index"] (λ morph_name,
      idx ← dict_get posedict_key_to_index morph_name;
      setitem new_pose idx 1);;
    setattr (set_last_blink_timestamp (Some time_now));;
    interval ← uniform 2 5;
    setattr (set_blink_interval (Some interval));;
    mret new_pose.

Definition animate_talking (pose : loc) : M loc :=
  talking ← gets is_talking;
  if negb talking then mret pose
  else
    new_pose ← list_copy pose;
    idx ← dict_get posedict_key_to_index "mouth_aaa_index";
    x ← getitem pose idx;
    u ← uniform (-2) 2;
    let x := Rabs (1 - x) + u in
    let x := Rmax 0 (Rmin x 1) in
    setitem new_pose idx x;;
    mret new_pose.

Definition random_max : R := 0.6.
Definition noise_max : R := 0.02.
Definition SWAYPARTS : list string :=
  ["head_x_index"; "head_y_index"; "neck_z_index"; "body_y_index"; "body_z_index"].

(** The nested function [macrosway] of [compute_sway_target_pose]. *)
Definition macrosway (original_target_pose : loc) : M loc :=
  time_now ← time_ns;
  a ← self;
  ce ← gets current_emotion;
  should_pick_new_sway_target ←
    (if decide (Some ce = last_emotion a)
     then match sway_interval a with
          | Some interval =>
              seconds_since_last_sway_target ←
                seconds_since time_now (last_sway_target_timestamp a);
              if decide (seconds_since_last_sway_target < interval)
              then mret false else mret true
          | None => mret true
          end
     else mret true);
  if negb should_pick_new_sway_target then
    match last_sway_target_pose a with
    | Some cached => mret cached
    | None => mret original_target_pose
    end
  else
    new_target_pose ← list_copy original_target_pose;
    for_in SWAYPARTS (λ key,
      idx ← dict_get posedict_key_to_index key;
      target_value ← getitem original_target_pose idx;
      let random_upper := Rmax 0 (random_max - target_value) in
      let random_lower := Rmin 0 (- random_max - target_value) in
      random_value ← uniform random_lower random_upper;
      setitem new_target_pose idx (target_value + random_value));;
    setattr (set_last_sway_target_pose (Some new_target_pose));;
    setattr (set_last_sway_target_timestamp (Some time_now));;
    interval ← uniform 5 10;
    setattr (set_sway_interval (Some interval));;
    mret new_target_pose.

(** The nested function [add_microsway]: it writes into the list that
    [new_target_pose] refers to. *)
Definition add_microsway (new_target_pose : loc) : M unit :=
  for_in SWAYPARTS (λ key,
    idx ← dict_get posedict_key_to_index key;
    v ← getitem new_target_pose idx;
    n ← uniform (- noise_max) noise_max;
    let x := v + n in
    let x := Rmax (-1) (Rmin x 1) in
    setitem new_target_pose idx x).

Definition compute_sway_target_pose (original_target_pose : loc) : M loc :=
  new_target_pose ← macrosway original_target_pose;
  add_microsway new_target_pose;;
  mret new_target_pose.

Definition breathing_cycle_duration : R := 4.

Definition animate_breathing (pose : loc) : M loc :=
  time_now ← time_ns;
  a ← self;
  let t := IZR (time_now - breathing_epoch a) / 10 ^ 9 in
  let cycle_pos := t / breathing_cycle_duration in
  (if decide (cycle_pos > 1)
   then setattr (set_breathing_epoch time_now)
   else mret ());;
  let cycle_pos := cycle_pos - IZR (py_int cycle_pos) in
  new_pose ← list_copy pose;
  idx ← dict_get posedict_key_to_index "breathing_index";
  setitem new_pose idx (sin (cycle_pos * PI) ^ 2);;
  mret new_pose.

Definition interpolate_pose (pose target_pose : loc) (step : R) : M loc :=
  new_pose ← list_copy pose;
  for_in (enumerate posedict_keys) (λ '(idx, key),
    t ← getitem target_pose idx;
    p ← getitem pose idx;
    let delta := t - p in
    setitem new_pose idx (p + step * delta));;
  mret new_pose.

(** ** Image loading and the render tick (lines 351-388, 578-655) *)

(** A new list object with the given elements. *)
Definition list_new (v : list R) : M loc :=
  λ w, Return (length (heap w)) (set_heap (heap w ++ [v]) w).

(** The elements of a list object, for the conversion to a tensor. *)
Definition list_read (l : loc) : M (list R) := λ w,
  match heap w !! l with
  | Some v => Return v w
  | None => Raised SystemError w
  end.

(** [load_image(file_path)].  The file is only looked at when no reload
    image is pending.  An exception inside the [try] is caught and logged
    with its text; the [finally] clears the reload image. *)
Definition load_image (file_path : option string) : M unit :=
  reload ← gets global_reload_image;
  let pil_image :=
    match reload with
    | Some i => inr i
    | None => extract_PIL_image_from_filelike file_path
    end in
  match pil_image with
  | inr i =>
      (if decide (size i ≠ (512, 512)%nat)
       then logger INFO "Resizing Char Card to work"
       else mret ());;
      match extract_source i with
      | Loaded t => setattr (set_source_image (Some t))
      | NoAlpha =>
          logger ERROR "load_image: image must have alpha channel";;
          setattr (set_source_image None)
      | LoadFailed exc => logger ERROR ("load_image: " +:+ exc)
      end
  | inl exc => logger ERROR ("load_image: " +:+ exc)
  end;;
  modify (set_global_reload_image None).

(** [self.current_pose], once it has been initialised *)
Definition get_current_pose : M loc :=
  a ← self;
  match current_pose a with
  | Some l => mret l
  | None => raise TypeError
  end.

(** Lines 583-642 of [render_animation_frame]: everything before the
    frame is handed over.  The result is [None] when the tick is skipped,
    and the rendered frame with the time it was finished otherwise. *)
Definition render_frame : M (option (ndarray * Z)) :=
  running ← gets animation_running;
  if negb running then mret None else
  a ← self;
  if new_frame_available a then mret None else
  reload ← gets global_reload_image;
  (if reload is Some _ then load_image None else mret ());;
  a ← self;
  match source_image a with
  | None => mret None
  | Some source =>
      time_render_start ← time_ns;
      (if current_pose a is None
       then ce ← gets current_emotion;
            d ← dict_get (emotions a) ce;
            l ← list_new (posedict_to_pose d);
            setattr (set_current_pose (Some l))
       else mret ());;
      ce ← gets current_emotion;
      emotion_posedict ← dict_get (emotions a) ce;
      ce ← gets current_emotion;
      (if decide (Some ce ≠ last_emotion a)
       then setattr (set_last_emotion_change_timestamp (Some time_render_start))
       else mret ());;
      pose ← get_current_pose;
      target_pose ← apply_emotion_to_pose emotion_posedict pose;
      target_pose ← compute_sway_target_pose target_pose;
      pose ← get_current_pose;
      pose ← interpolate_pose pose target_pose 0.1;
      setattr (set_current_pose (Some pose));;
      pose ← animate_blinking pose;
      setattr (set_current_pose (Some pose));;
      pose ← animate_talking pose;
      setattr (set_current_pose (Some pose));;
      pose ← animate_breathing pose;
      setattr (set_current_pose (Some pose));;
      ce ← gets current_emotion;
      setattr (set_last_emotion (Some ce));;
      channels ← list_read pose;
      let output_image_numpy := pose_image source channels in
      time_now ← time_ns;
      a ← self;
      (if source_image a is Some _
       then let render_elapsed_sec := IZR (time_now - time_render_start) / 10 ^ 9 in
            setattr (set_render_duration_statistics
                       (render_duration_statistics a ++ [render_elapsed_sec]))
       else mret ());;
      mret (Some (output_image_numpy, time_now))
  end.

(** Lines 644-655: the hand-over under [_animator_output_lock], and the
    periodic report. *)
Definition publish_frame (output_image_numpy : ndarray) (time_now : Z) : M unit :=
  setattr (set_result_image (Some output_image_numpy));;
  setattr (set_new_frame_available true);;
  running ← gets animation_running;
  a ← self;
  let due := match last_report_time a with
             | None => true
             | Some t => bool_decide (IZR (time_now - t) > 5 * 10 ^ 9)
             end in
  if running && due
  then logger INFO "render: ";;
       setattr (set_last_report_time (Some time_now))
  else mret ().

Definition render_animation_frame : M unit :=
  o ← render_frame;
  match o with
  | None => mret ()
  | Some (output_image_numpy, time_now) => publish_frame output_image_numpy time_now
  end.

(** ** The control surface (lines 64-114, 224-242) *)

(** An entry of the classifier's result: [{"label": ..., "score": ...}]. *)
Record item : Type := Item { label : string; score : R }.

(** [score > highest_score], where [None] stands for [float("-inf")]. *)
Definition exceeds (x : R) (highest_score : option R) : Prop :=
  match highest_score with
  | None => True
  | Some h => x > h
  end.

#[export] Instance exceeds_dec x h : Decision (exceeds x h).
Proof. destruct h; simpl; apply _. Defined.

(** The loop of [setEmotion]: the pair [(highest_score, highest_label)]. *)
Definition highest (_emotion : list item) : option R * option string :=
  foldl (λ '(highest_score, highest_label) it,
           if decide (exceeds (score it) highest_score)
           then (Some (score it), Some (label it))
           else (highest_score, highest_label))
        (None, None) _emotion.

(** [str(x)] for an optional label, as an f-string prints it *)
Definition label_str (l : option string) : string := default "None" l.

(** [global_animator_instance.emotions] is read through [self]: the
    global refers to the one instance there is. *)
Definition setEmotion (_emotion : list item) : M string :=
  let highest_label := (highest _emotion).2 in
  a ← self;
  highest_label ←
    (if decide (¬ is_Some (highest_label ≫= λ l, emotions a !! l))
     then logger WARNING ("setEmotion: emotion '" +:+ label_str highest_label
                          +:+ "' does not exist, setting to 'neutral'");;
          mret "neutral"
     else mret (label_str highest_label));
  logger INFO ("setEmotion: applying emotion " +:+ highest_label);;
  modify (set_current_emotion highest_label);;
  mret ("emotion set to " +:+ highest_label).

Definition unload : M string :=
  modify (set_animation_running false);;
  logger INFO "unload: animation paused";;
  mret "Animation Paused".

Definition start_talking : M string :=
  modify (set_is_talking true);;
  logger DEBUG "start_talking called";;
  mret "started".

Definition stop_talking : M string :=
  modify (set_is_talking false);;
  logger DEBUG "stop_talking called";;
  mret "stopped".

(** [try: body except E: handler], for one exception class. *)
Definition try_except {A} (body : M A) (E : exn) (handler : M A) : M A := λ w,
  match body w with
  | Return a w' => Return a w'
  | Raised e w' => if decide (e = E) then handler w' else Raised e w'
  end.

(** [try: body finally: cleanup]: the cleanup runs either way, and an
    exception of the body goes on after it. *)
Definition try_finally {A} (body : M A) (cleanup : M unit) : M A := λ w,
  match body w with
  | Return a w' => (cleanup;; mret a) w'
  | Raised e w' => (cleanup;; raise e) w'
  end.

(** Lines 231-234: what PIL makes of the upload, the image copied in
    memory or the exception raised on the way. *)
Definition PIL_Image_open (stream : exn + pil_image) : M pil_image :=
  match stream with
  | inr pil_image => mret pil_image
  | inl e => raise e
  end.

(** [talkinghead_load_file(stream)].  Only [UnidentifiedImageError] is
    caught; any other exception of lines 231-234 leaves the function
    after the [finally]. *)
Definition talkinghead_load_file (stream : exn + pil_image) : M string :=
  logger INFO "talkinghead_load_file: loading new input image from stream";;
  try_finally
    (try_except
       (modify (set_animation_running false);;
        pil_image ← PIL_Image_open stream;
        modify (set_global_reload_image (Some pil_image)))
       UnidentifiedImageError
       (logger WARNING "Could not load input image from stream, loading blank";;
        modify (set_global_reload_image (Some inital_png))))
    (modify (set_animation_running true));;
  mret "OK".

(** ** The pipeline: render, encode and send (lines 116-221, 311-333, 658-757)

    The animator thread, the encoder thread and the [result_feed]
    generators run interleaved.  A step of the pipeline is one access to
    what they share: the pair [result_image] / [new_frame_available]
    (under [_animator_output_lock]), the encoder's [image_bytes], the
    global [global_latest_frame_sent] and the termination flags.  The
    work a thread does on its own between two such accesses is part of
    the step that follows it.  The timing of the loops (the sleeps, the
    frame deadline of the feed) and the FPS reports of the encoder and
    the feed only decide when a step happens, and are left out.

    [id(x)] of a bytes object is modelled by a number given to the object
    when it is created, a fresh one each time: that two objects alive at
    different times can share an address is not modelled. *)

Record EncodedFrame : Type := { frame_id : nat; frame_bytes : png }.

(** Where the animator thread is in [animator_update]. *)
Inductive animator_pc : Type :=
| AnimatorIdle                                          (* between two ticks *)
| AnimatorRendered (output_image_numpy : ndarray) (time_now : Z)
                                                        (* before line 645 *)
| AnimatorStopped.

(** Where the encoder thread is in [encoder_update]. *)
Inductive encoder_pc : Type :=
| EncoderIdle                                           (* between two ticks *)
| EncoderWaiting (new_frame previous_frame : EncodedFrame)
                                                        (* in the loop of line 715 *)
| EncoderReady (new_frame : EncodedFrame)               (* before line 722 *)
| EncoderStopped.

Record System : Type := {
  world : World;
  global_latest_frame_sent : option nat;
  image_bytes : option EncodedFrame;     (* [global_encoder_instance.image_bytes] *)
  animator_terminated : bool;            (* the animator's [_terminated] *)
  encoder_terminated : bool;             (* the encoder's [_terminated] *)
  animator_thread : animator_pc;
  encoder_thread : encoder_pc;
  feeds : list EncodedFrame;   (* the frames the feeds have read and are sending *)
  next_id : nat;               (* the [id] of the next bytes object *)
}.

Definition set_world (v : World) (s : System) : System :=
  {| world := v; global_latest_frame_sent := global_latest_frame_sent s;
     image_bytes := image_bytes s; animator_terminated := animator_terminated s;
     encoder_terminated := encoder_terminated s; animator_thread := animator_thread s;
     encoder_thread := encoder_thread s; feeds := feeds s; next_id := next_id s |}.

Definition set_global_latest_frame_sent (v : option nat) (s : System) : System :=
  {| world := world s; global_latest_frame_sent := v;
     image_bytes := image_bytes s; animator_terminated := animator_terminated s;
     encoder_terminated := encoder_terminated s; animator_thread := animator_thread s;
     encoder_thread := encoder_thread s; feeds := feeds s; next_id := next_id s |}.

Definition set_image_bytes (v : option EncodedFrame) (s : System) : System :=
  {| world := world s; global_latest_frame_sent := global_latest_frame_sent s;
     image_bytes := v; animator_terminated := animator_terminated s;
     encoder_terminated := encoder_terminated s; animator_thread := animator_thread s;
     encoder_thread := encoder_thread s; feeds := feeds s; next_id := next_id s |}.

Definition set_animator_terminated (v : bool) (s : System) : System :=
  {| world := world s; global_latest_frame_sent := global_latest_frame_sent s;
     image_bytes := image_bytes s; animator_terminated := v;
     encoder_terminated := encoder_terminated s; animator_thread := animator_thread s;
     encoder_thread := encoder_thread s; feeds := feeds s; next_id := next_id s |}.

Definition set_encoder_terminated (v : bool) (s : System) : System :=
  {| world := world s; global_latest_frame_sent := global_latest_frame_sent s;
     image_bytes := image_bytes s; animator_terminated := animator_terminated s;
     encoder_terminated := v; animator_thread := animator_thread s;
     encoder_thread := encoder_thread s; feeds := feeds s; next_id := next_id s |}.

Definition set_animator_thread (v : animator_pc) (s : System) : System :=
  {| world := world s; global_latest_frame_sent := global_latest_frame_sent s;
     image_bytes := image_bytes s; animator_terminated := animator_terminated s;
     encoder_terminated := encoder_terminated s; animator_thread := v;
     encoder_thread := encoder_thread s; feeds := feeds s; next_id := next_id s |}.

Definition set_encoder_thread (v : encoder_pc) (s : System) : System :=
  {| world := world s; global_latest_frame_sent := global_latest_frame_sent s;
     image_bytes := image_bytes s; animator_terminated := animator_terminated s;
     encoder_terminated := encoder_terminated s; animator_thread := animator_thread s;
     encoder_thread := v; feeds := feeds s; next_id := next_id s |}.

Definition set_feeds (v : list EncodedFrame) (s : System) : System :=
  {| world := world s; global_latest_frame_sent := global_latest_frame_sent s;
     image_bytes := image_bytes s; animator_terminated := animator_terminated s;
     encoder_terminated := encoder_terminated s; animator_thread := animator_thread s;
     encoder_thread := encoder_thread s; feeds := v; next_id := next_id s |}.

Definition set_next_id (v : nat) (s : System) : System :=
  {| world := world s; global_latest_frame_sent := global_latest_frame_sent s;
     image_bytes := image_bytes s; animator_terminated := animator_terminated s;
     encoder_terminated := encoder_terminated s; animator_thread := animator_thread s;
     encoder_thread := encoder_thread s; feeds := feeds s; next_id := v |}.

(** The calls of the control surface. *)
Inductive api_call : Type :=
| CallSetEmotion (_emotion : list item)
| CallUnload
| CallStartTalking
| CallStopTalking
| CallLoadFile (stream : exn + pil_image).

Definition run_api (c : api_call) : M string :=
  match c with
  | CallSetEmotion e => setEmotion e
  | CallUnload => unload
  | CallStartTalking => start_talking
  | CallStopTalking => stop_talking
  | CallLoadFile stream => talkinghead_load_file stream
  end.

(** What a step does. *)
Inductive action : Type :=
| AnimatorSkip                        (* a tick that renders nothing *)
| AnimatorRender                      (* lines 583-642 *)
| AnimatorPublish (output_image_numpy : ndarray)   (* lines 645-655 *)
| AnimatorRaise                       (* an exception ends the thread *)
| AnimatorExit                        (* [Animator.exit] sets the flag *)
| AnimatorLeave                       (* the loop sees the flag *)
| EncoderSkip                         (* a tick with no new frame *)
| EncoderTake (new_frame : EncodedFrame)           (* lines 682-711 *)
| EncoderPoll                         (* line 715, condition true: sleep *)
| EncoderProceed                      (* line 715, condition false *)
| EncoderPublish (new_frame : EncodedFrame)        (* line 722 *)
| EncoderRaise                        (* an exception in lines 691-706 ends the thread *)
| EncoderExit
| EncoderLeave
| FeedRead (image_bytes : EncodedFrame)            (* line 176 *)
| FeedSent (image_bytes : EncodedFrame)            (* lines 193-195 *)
| FeedClosed (image_bytes : EncodedFrame)          (* the client went away *)
| Api (c : api_call).

(** Lines 683-685, with the lock held: the flag is cleared. *)
Definition consume_frame : M unit := setattr (set_new_frame_available false).

Inductive step : System → action → System → Prop :=
| step_animator_skip s w' :
    animator_thread s = AnimatorIdle →
    animator_terminated s = false →
    render_frame (world s) = Return None w' →
    step s AnimatorSkip (set_world w' s)
| step_animator_render s img t w' :
    animator_thread s = AnimatorIdle →
    animator_terminated s = false →
    render_frame (world s) = Return (Some (img, t)) w' →
    step s AnimatorRender (set_animator_thread (AnimatorRendered img t) (set_world w' s))
| step_animator_publish s img t w' :
    animator_thread s = AnimatorRendered img t →
    publish_frame img t (world s) = Return () w' →
    step s (AnimatorPublish img) (set_animator_thread AnimatorIdle (set_world w' s))
| step_animator_raise_render s e w' :
    animator_thread s = AnimatorIdle →
    animator_terminated s = false →
    render_frame (world s) = Raised e w' →
    step s AnimatorRaise (set_animator_thread AnimatorStopped (set_world w' s))
| step_animator_raise_publish s img t e w' :
    animator_thread s = AnimatorRendered img t →
    publish_frame img t (world s) = Raised e w' →
    step s AnimatorRaise (set_animator_thread AnimatorStopped (set_world w' s))
| step_animator_exit s :
    step s AnimatorExit (set_animator_terminated true s)
| step_animator_leave s :
    animator_thread s = AnimatorIdle →
    animator_terminated s = true →
    step s AnimatorLeave (set_animator_thread AnimatorStopped s)
| step_encoder_skip s a :
    encoder_thread s = EncoderIdle →
    encoder_terminated s = false →
    global_animator_instance (world s) = Some a →
    new_frame_available a = false →
    step s EncoderSkip s
| step_encoder_take s a image_rgba w' :
    encoder_thread s = EncoderIdle →
    encoder_terminated s = false →
    global_animator_instance (world s) = Some a →
    new_frame_available a = true →
    result_image a = Some image_rgba →
    consume_frame (world s) = Return () w' →
    let new_frame := {| frame_id := next_id s; frame_bytes := encode_png image_rgba |} in
    step s (EncoderTake new_frame)
      (set_encoder_thread
         (match image_bytes s with
          | Some previous_frame => EncoderWaiting new_frame previous_frame
          | None => EncoderReady new_frame
          end)
         (set_next_id (S (next_id s)) (set_world w' s)))
| step_encoder_poll s new_frame previous_frame :
    encoder_thread s = EncoderWaiting new_frame previous_frame →
    global_latest_frame_sent s ≠ Some (frame_id previous_frame) →
    encoder_terminated s = false →
    step s EncoderPoll s
| step_encoder_proceed s new_frame previous_frame :
    encoder_thread s = EncoderWaiting new_frame previous_frame →
    ¬ (global_latest_frame_sent s ≠ Some (frame_id previous_frame)
       ∧ encoder_terminated s = false) →
    step s EncoderProceed (set_encoder_thread (EncoderReady new_frame) s)
| step_encoder_publish s new_frame :
    encoder_thread s = EncoderReady new_frame →
    step s (EncoderPublish new_frame)
      (set_encoder_thread EncoderIdle (set_image_bytes (Some new_frame) s))
| step_encoder_raise s a w' :
    encoder_thread s = EncoderIdle →
    encoder_terminated s = false →
    global_animator_instance (world s) = Some a →
    new_frame_available a = true →
    consume_frame (world s) = Return () w' →
    step s EncoderRaise (set_encoder_thread EncoderStopped (set_world w' s))
| step_encoder_exit s :
    step s EncoderExit (set_encoder_terminated true s)
| step_encoder_leave s :
    encoder_thread s = EncoderIdle →
    encoder_terminated s = true →
    step s EncoderLeave (set_encoder_thread EncoderStopped s)
| step_feed_read s f :
    image_bytes s = Some f →
    step s (FeedRead f) (set_feeds (f :: feeds s) s)
| step_feed_sent s f fs1 fs2 :
    feeds s = fs1 ++ f :: fs2 →
    step s (FeedSent f)
      (set_feeds (fs1 ++ fs2) (set_global_latest_frame_sent (Some (frame_id f)) s))
| step_feed_closed s f fs1 fs2 :
    feeds s = fs1 ++ f :: fs2 →
    step s (FeedClosed f) (set_feeds (fs1 ++ fs2) s)
| step_api s c :
    step s (Api c) (set_world (final (run_api c (world s))) s).

(** The pipeline as [launch] leaves it: both threads about to start
    their first tick, nothing rendered or encoded yet, no feed open.
    [global_latest_frame_sent] is [None] at the first launch (line 50);
    [launch] does not assign it, so a relaunch starts with whatever the
    run before left there, and nothing is said about it here. *)
Definition initial (s : System) : Prop :=
  animator_thread s = AnimatorIdle ∧
  encoder_thread s = EncoderIdle ∧
  image_bytes s = None ∧
  feeds s = [] ∧
  animator_terminated s = false ∧
  encoder_terminated s = false ∧
  (∃ a, global_animator_instance (world s) = Some a ∧ new_frame_available a = false).

(** An execution from [s0], with the steps taken so far (the state each
    was taken in, and what it did), the latest first. *)
Inductive execution (s0 : System) : list (System * action) → System → Prop :=
| execution_start : initial s0 → execution s0 [] s0
| execution_step past s l s' :
    execution s0 past s → step s l s' → execution s0 ((s, l) :: past) s'.

End Engine.

Arguments Return {_ A} a w.
Arguments Raised {_ A} e w.

(** * The pace of the feed (lines 163-221)

    One round of the loop of [generate] in [result_feed], with its
    timing.  The local variables of the generator are a record; the
    frame is the value of [global_encoder_instance.image_bytes] that the
    round reads at line 176; what the round does to the outside, the send
    with the assignment of [global_latest_frame_sent] or the sleep, is
    its result.  [send_duration_statistics] holds the datapoints added;
    its average only shows in the log message. *)
Module result_feed.
Section Generate.
Context `{Collaborators}.

Record generate_locals : Type := {
  last_frame_send_complete_time : option Z;
  last_report_time : option Z;
  send_duration_sec : R;
  send_duration_statistics : list R;
}.

(** The locals before the first round. *)
Definition generate_start : generate_locals :=
  {| last_frame_send_complete_time := None; last_report_time := None;
     send_duration_sec := 0; send_duration_statistics := [] |}.

Inductive generate_event : Type :=
| Yield (image_bytes : EncodedFrame)   (* lines 187-188, then line 189 *)
| Sleep (seconds : R).                 (* [time.sleep] *)

Definition TARGET_FPS : R := 25.

Definition generate_iteration (image_bytes : option EncodedFrame) (l : generate_locals)
    : M (generate_event * generate_locals) :=
  match image_bytes with
  | Some image_bytes =>
      let frame_duration_target_sec := 1 / TARGET_FPS in
      time_until_frame_deadline ←
        match last_frame_send_complete_time l with
        | Some last =>
            time_now ← time_ns;
            let this_frame_elapsed_sec := IZR (time_now - last) / 10 ^ 9 in
            mret (frame_duration_target_sec - this_frame_elapsed_sec
                  - 2 * send_duration_sec l)
        | None => mret 0
        end;
      '(event, l) ←
        (if decide (time_until_frame_deadline <= 0)
         then
           time_now ← time_ns;
           sent ← time_ns;
           let send_duration := IZR (sent - time_now) / 10 ^ 9 in
           time_now ← time_ns;
           let statistics :=
             match last_frame_send_complete_time l with
             | Some last =>
                 let this_frame_elapsed_sec := IZR (time_now - last) / 10 ^ 9 in
                 send_duration_statistics l ++ [this_frame_elapsed_sec]
             | None => send_duration_statistics l
             end in
           mret (Yield image_bytes,
                 {| last_frame_send_complete_time := Some time_now;
                    last_report_time := last_report_time l;
                    send_duration_sec := send_duration;
                    send_duration_statistics := statistics |})
         else mret (Sleep time_until_frame_deadline, l));
      time_now ← time_ns;
      running ← gets animation_running;
      let due := match last_report_time l with
                 | None => true
                 | Some t => bool_decide (IZR (time_now - t) > 5 * 10 ^ 9)
                 end in
      if running && due
      then logger INFO "output: ";;
           mret (event,
                 {| last_frame_send_complete_time := last_frame_send_complete_time l;
                    last_report_time := Some time_now;
                    send_duration_sec := send_duration_sec l;
                    send_duration_statistics := send_duration_statistics l |})
      else mret (event, l)
  | None => mret (Sleep 0.1, l)
  end.

End Generate.
End result_feed.

(** * The pose integrator on binary64 numbers (lines 562-573)

    [interpolate_pose] once more, with the arithmetic of the machine: a
    Python [float] is an IEEE 754 binary64 number, and [-], [*] and [+]
    round to nearest.  The loop reads [pose] and [target_pose] and
    writes to the copy [new_pose] only, so the lists are values here; a
    list shorter than [posedict_keys] raises [IndexError] as above. *)
Module Binary64.
Section Interpolate.
Context `{Collaborators}.

(** The default of the parameter [step], the float that [0.1] denotes. *)
Definition default_step : PrimFloat.float := 0x1.999999999999ap-4%float.

(** The loop of lines 563-572 over the keys that are left, with
    [new_pose] as it is so far. *)
Fixpoint interpolate_loop (keys : list (nat * string))
    (pose target_pose : list PrimFloat.float) (step : PrimFloat.float)
    (new_pose : list PrimFloat.float) : exn + list PrimFloat.float :=
  match keys with
  | [] => inr new_pose
  | (idx, key) :: keys =>
      match target_pose !! idx, pose !! idx with
      | Some t, Some p =>
          let delta := (t - p)%float in
          interpolate_loop keys pose target_pose step
            (<[idx := (p + step * delta)%float]> new_pose)
      | _, _ => inl IndexError
      end
  end.

Definition interpolate_pose (pose target_pose : list PrimFloat.float)
    (step : PrimFloat.float) : exn + list PrimFloat.float :=
  let new_pose := pose in
  interpolate_loop (enumerate posedict_keys) pose target_pose step new_pose.

(** Looping the output back as the pose, with the target kept: [n]
    integration steps. *)
Fixpoint integrate (n : nat) (pose target_pose : list PrimFloat.float)
    (step : PrimFloat.float) : exn + list PrimFloat.float :=
  match n with
  | O => inr pose
  | S n' =>
      match interpolate_pose pose target_pose step with
      | inr next => integrate n' next target_pose step
      | inl e => inl e
      end
  end.

End Interpolate.
End Binary64.

(** * A small instance

    The names the module itself uses are the keys of this table; the
    images are stand-ins.  It serves to run the model on concrete
    states. *)

Definition demo_keys : list string :=
  ["eye_wink_left_index"; "eye_wink_right_index"; "mouth_aaa_index";
   "head_x_index"; "head_y_index"; "neck_z_index"; "body_y_index";
   "body_z_index"; "breathing_index"].

(** [{key: idx for idx, key in enumerate(keys)}] *)
Definition index_of_keys (keys : list string) : gmap string nat :=
  foldl (λ m '(idx, key), <[key := idx]> m) ∅ (enumerate keys).

Definition demo : Collaborators :=
  {| posedict_keys := demo_keys;
     posedict_key_to_index := index_of_keys demo_keys;
     posedict_to_pose := λ d, (λ key, default 0 (d !! key)) <$> demo_keys;
     tensor := unit;
     ndarray := list R;
     pil_image := bool;
     png := list R;
     pose_image := λ _ channels, channels;
     extract_PIL_image_from_filelike :=
       λ file_path, if file_path is Some _ then inr true else inl "no file";
     size := λ rgba, if rgba then (512, 512)%nat else (400, 600)%nat;
     extract_source := λ rgba, if rgba then Loaded () else NoAlpha;
     encode_png := λ a, a;
     inital_png := true |}.

(** An animator right after [reset_animation_state], with a character
    loaded and the presets "neutral" and "joy". *)
Definition demo_animator : @Animator demo :=
  {| current_pose := None;
     last_emotion := None;
     last_emotion_change_timestamp := None;
     last_blink_timestamp := None;
     blink_interval := None;
     last_sway_target_timestamp := None;
     last_sway_target_pose := None;
     sway_interval := None;
     breathing_epoch := 0;
     render_duration_statistics := [];
     source_image := Some (() : @tensor demo);
     result_image := None;
     new_frame_available := false;
     last_report_time := None;
     emotions := <["joy" := <["head_x_index" := 0.9]> (<["breathing_index" := 1]> ∅)]>
                 (<["neutral" := ∅]> ∅) |}.

(** A state with the given list objects, clock and random numbers. *)
Definition demo_world (h : list (list R)) (c : nat → Z) (g : nat → R)
    (a : @Animator demo) : @World demo :=
  {| heap := h; clock := c; rng := g; log := [];
     animation_running := true;
     current_emotion := "neutral";
     is_talking := true;
     global_reload_image := None;
     global_animator_instance := Some a |}.

(** The pose with every channel at rest. *)
Definition rest_pose : list R := [0; 0; 0; 0; 0; 0; 0; 0; 0].

(** * Properties *)

(** Case analysis on every [max] and [min] of the goal, the innermost
    first. *)
Ltac case_minmax :=
  unfold Rmax, Rmin in *;
  repeat match goal with
         | |- context [Rle_dec ?a ?b] =>
             lazymatch a with
             | context [Rle_dec _ _] => fail
             | _ => lazymatch b with
                    | context [Rle_dec _ _] => fail
                    | _ => destruct (Rle_dec a b)
                    end
             end
         end.

Section EngineProperties.
Context `{Collaborators}.

(** ** Reasoning about computations *)

Lemma bind_Return {A B} (m : M A) (k : A → M B) w a w' :
  m w = Return a w' → (m ≫= k) w = k a w'.
Proof. intros Hm. unfold mbind, M_bind. by rewrite Hm. Qed.

Lemma bind_Raised {A B} (m : M A) (k : A → M B) w e w' :
  m w = Raised e w' → (m ≫= k) w = Raised e w'.
Proof. intros Hm. unfold mbind, M_bind. by rewrite Hm. Qed.

Lemma list_copy_Return l v w :
  heap w !! l = Some v →
  list_copy l w = Return (length (heap w)) (set_heap (heap w ++ [v]) w).
Proof. intros Hl. unfold list_copy. by rewrite Hl. Qed.

Lemma list_read_Return l v w :
  heap w !! l = Some v → list_read l w = Return v w.
Proof. intros Hl. unfold list_read. by rewrite Hl. Qed.

Lemma getitem_Return l i v x w :
  heap w !! l = Some v → v !! i = Some x → getitem l i w = Return x w.
Proof. intros Hl Hi. unfold getitem. by rewrite Hl, Hi. Qed.

Lemma setitem_Return l i v x w :
  heap w !! l = Some v → (i < length v)%nat →
  setitem l i x w = Return () (set_heap (<[l := <[i := x]> v]> (heap w)) w).
Proof.
  intros Hl Hi. unfold setitem. rewrite Hl.
  destruct (decide (i < length v)%nat); [done | lia].
Qed.

Lemma dict_get_Return {V} (d : gmap string V) k v w :
  d !! k = Some v → dict_get d k w = Return v w.
Proof. intros Hk. unfold dict_get. by rewrite Hk. Qed.

(** The store after [list(l)]: the objects there were, and the copy. *)
Lemma lookup_heap_old (h : list (list R)) v l u :
  h !! l = Some u → (h ++ [v]) !! l = Some u.
Proof. intros Hl. by apply lookup_app_l_Some. Qed.

Lemma lookup_heap_new (h : list (list R)) v :
  (h ++ [v]) !! length h = Some v.
Proof. by rewrite lookup_app_r, Nat.sub_diag by lia. Qed.

Lemma insert_heap_new (h : list (list R)) v v' :
  <[length h := v']> (h ++ [v]) = h ++ [v'].
Proof.
  rewrite insert_app_r_alt, Nat.sub_diag by lia. done.
Qed.

Lemma for_in_nil {A} (body : A → M unit) w : for_in [] body w = Return () w.
Proof. reflexivity. Qed.

Lemma for_in_cons {A} (body : A → M unit) x xs w w' :
  body x w = Return () w' → for_in (x :: xs) body w = for_in xs body w'.
Proof. intros Hb. simpl. by rewrite (bind_Return _ _ _ _ _ Hb). Qed.

Lemma set_heap_set_heap h1 h2 w : set_heap h2 (set_heap h1 w) = set_heap h2 w.
Proof. reflexivity. Qed.

(** A loop [for idx, key in enumerate(keys)] whose body assigns
    [new[idx] = f idx key new[idx]] and touches nothing else: it returns,
    and the list behind [new] is updated at the positions of [keys].
    [Inv] is what the body needs of the other objects in the store. *)
Lemma for_in_enumerate_assign (Inv : list (list R) → Prop) (f : nat → string → R → R)
    (body : nat * string → M unit) (new : loc) (bound : nat) :
  (∀ h v v', Inv h → h !! new = Some v → length v' = length v →
              Inv (<[new := v']> h)) →
  (∀ idx key w v x,
     (idx < bound)%nat →
     Inv (heap w) → heap w !! new = Some v → v !! idx = Some x →
     body (idx, key) w
     = Return () (set_heap (<[new := <[idx := f idx key x]> v]> (heap w)) w)) →
  ∀ keys idx w v,
    Inv (heap w) → heap w !! new = Some v →
    (idx + length keys ≤ length v)%nat → (idx + length keys ≤ bound)%nat →
    ∃ v',
      for_in (enumerate_from idx keys) body w
      = Return () (set_heap (<[new := v']> (heap w)) w) ∧
      length v' = length v ∧
      (∀ i, (i < idx ∨ idx + length keys ≤ i)%nat → v' !! i = v !! i) ∧
      (∀ j key x, keys !! j = Some key → v !! (idx + j)%nat = Some x →
                  v' !! (idx + j)%nat = Some (f (idx + j)%nat key x)).
Proof.
  intros HInv Hbody keys.
  induction keys as [| key keys IH]; intros idx w v Hinv Hnew Hlen Hbound.
  - exists v. simpl enumerate_from. rewrite for_in_nil. split; [| split; [done | split; [done |]]].
    + rewrite list_insert_id by done. by destruct w.
    + intros j key x Hj. by rewrite lookup_nil in Hj.
  - simpl in Hlen, Hbound.
    destruct (lookup_lt_is_Some_2 v idx) as [x Hx]; [lia |].
    pose proof (Hbody idx key w v x ltac:(lia) Hinv Hnew Hx) as Hrun.
    set (v1 := <[idx := f idx key x]> v) in *.
    assert (Hnew_lt : (new < length (heap w))%nat) by eauto using lookup_lt_Some.
    destruct (IH (S idx) (set_heap (<[new := v1]> (heap w)) w) v1)
      as (v' & Hloop & Hlen' & Hout & Hin).
    + simpl. apply (HInv _ v); [done | done |]. unfold v1. by rewrite length_insert.
    + simpl. by apply list_lookup_insert_eq.
    + unfold v1. rewrite length_insert. lia.
    + lia.
    + exists v'. split; [| split; [| split]].
      * simpl enumerate_from. rewrite (for_in_cons _ _ _ _ _ Hrun), Hloop.
        simpl. by rewrite list_insert_insert_eq.
      * rewrite Hlen'. unfold v1. by rewrite length_insert.
      * intros i Hi. simpl in Hi. rewrite Hout by lia. unfold v1.
        apply list_lookup_insert_ne. lia.
      * intros j k y Hj Hy. destruct j as [| j].
        -- simpl in Hj. injection Hj as <-. rewrite Nat.add_0_r in *.
           rewrite Hout by lia. unfold v1.
           rewrite list_lookup_insert_eq by eauto using lookup_lt_Some.
           congruence.
        -- simpl in Hj. replace (idx + S j)%nat with (S idx + j)%nat in * by lia.
           apply Hin; [done |]. unfold v1.
           rewrite list_lookup_insert_ne by lia. done.
Qed.

Lemma set_heap_id w : set_heap (heap w) w = w.
Proof. by destruct w. Qed.

Lemma set_heap_insert_id new idx (v : list R) x w :
  heap w !! new = Some v → v !! idx = Some x →
  set_heap (<[new := <[idx := x]> v]> (heap w)) w = w.
Proof.
  intros Hnew Hx. rewrite (list_insert_id v) by done.
  rewrite list_insert_id by done. apply set_heap_id.
Qed.

(** ** The emotion overlay *)

(** The value [apply_emotion_to_pose] gives the channel of [key], whose
    value in the pose is [x]. *)
Definition overlaid (emotion_posedict : gmap string R) (key : string) (x : R) : R :=
  match emotion_posedict !! key with
  | Some y => if decide (key = "breathing_index") then x else y
  | None => x
  end.

(** C7: [apply_emotion_to_pose] returns a new list.  A channel whose key
    is in the preset and is not the breathing channel has the preset's
    value; every other channel, the breathing channel among them, has the
    value of the input pose.  The input pose, like every list there was,
    is as before. *)
Theorem apply_emotion_to_pose_spec (w : World) (emotion_posedict : gmap string R)
    (pose : loc) (v : list R) :
  heap w !! pose = Some v →
  (length posedict_keys ≤ length v)%nat →
  ∃ v',
    apply_emotion_to_pose emotion_posedict pose w
    = Return (length (heap w)) (set_heap (heap w ++ [v']) w) ∧
    length v' = length v ∧
    (∀ idx key x, posedict_keys !! idx = Some key → v !! idx = Some x →
       v' !! idx = Some (overlaid emotion_posedict key x)) ∧
    (∀ idx, (length posedict_keys ≤ idx)%nat → v' !! idx = v !! idx) ∧
    (heap w ++ [v']) !! pose = Some v ∧
    (∀ l u, heap w !! l = Some u → (heap w ++ [v']) !! l = Some u).
Proof.
  intros Hpose Hlen. unfold apply_emotion_to_pose.
  rewrite (bind_Return _ _ _ _ _ (list_copy_Return _ _ _ Hpose)).
  set (new := length (heap w)).
  match goal with |- context [for_in _ ?b] => set (body := b) end.
  destruct (for_in_enumerate_assign (λ _, True)
              (λ _ key x, overlaid emotion_posedict key x) body new (length v))
    with (keys := posedict_keys) (idx := 0%nat)
         (w := set_heap (heap w ++ [v]) w) (v := v)
    as (v' & Hloop & Hlen' & Hout & Hin); try done.
  - intros idx key w1 v1 x _ _ Hnew Hx. unfold body, overlaid.
    destruct (emotion_posedict !! key) as [y |] eqn:Hkey.
    + destruct (decide (key = "breathing_index")) as [-> | Hne].
      * rewrite decide_False by tauto.
        by rewrite set_heap_insert_id.
      * rewrite decide_True by eauto.
        rewrite (bind_Return _ _ _ _ _ (dict_get_Return _ _ _ _ Hkey)).
        apply setitem_Return; eauto using lookup_lt_Some.
    + rewrite decide_False by (intros [[? ?] _]; done).
      by rewrite set_heap_insert_id.
  - simpl. apply lookup_heap_new.
  - exists v'. split; [| split; [done | split; [| split; [| split]]]].
    + unfold enumerate. rewrite (bind_Return _ _ _ _ _ Hloop).
      simpl. unfold mret, M_ret, set_heap. simpl. unfold new.
      by rewrite insert_heap_new.
    + intros idx key x Hkey Hx. by apply (Hin idx key x).
    + intros idx Hidx. apply Hout. lia.
    + by apply lookup_heap_old.
    + intros l u Hl. by apply lookup_heap_old.
Qed.

(** ** Pose integration *)

Lemma interpolate_pose_Return (w : World) (pose target_pose : loc)
    (cur tgt : list R) (step : R) :
  heap w !! pose = Some cur →
  heap w !! target_pose = Some tgt →
  (length posedict_keys ≤ length cur)%nat →
  (length posedict_keys ≤ length tgt)%nat →
  ∃ next,
    interpolate_pose pose target_pose step w
    = Return (length (heap w)) (set_heap (heap w ++ [next]) w) ∧
    length next = length cur ∧
    (∀ idx c t, (idx < length posedict_keys)%nat →
       cur !! idx = Some c → tgt !! idx = Some t →
       next !! idx = Some (c + step * (t - c))) ∧
    (∀ idx, (length posedict_keys ≤ idx)%nat → next !! idx = cur !! idx).
Proof.
  intros Hpose Htarget Hcur Htgt. unfold interpolate_pose.
  rewrite (bind_Return _ _ _ _ _ (list_copy_Return _ _ _ Hpose)).
  set (new := length (heap w)).
  match goal with |- context [for_in _ ?b] => set (body := b) end.
  assert (Hpose_lt : (pose < new)%nat) by (unfold new; eauto using lookup_lt_Some).
  assert (Htarget_lt : (target_pose < new)%nat)
    by (unfold new; eauto using lookup_lt_Some).
  destruct (for_in_enumerate_assign
              (λ h, h !! pose = Some cur ∧ h !! target_pose = Some tgt)
              (λ idx _ x, match cur !! idx, tgt !! idx with
                          | Some c, Some t => c + step * (t - c)
                          | _, _ => x
                          end)
              body new (length posedict_keys))
    with (keys := posedict_keys) (idx := 0%nat)
         (w := set_heap (heap w ++ [cur]) w) (v := cur)
    as (next & Hloop & Hlen' & Hout & Hin).
  - intros h v v' [Hp Ht] _ _. split; rewrite list_lookup_insert_ne by lia; done.
  - intros idx key w1 v1 x Hidx [Hp Ht] Hnew Hx. unfold body.
    destruct (lookup_lt_is_Some_2 tgt idx) as [t Hti]; [lia |].
    destruct (lookup_lt_is_Some_2 cur idx) as [c Hci]; [lia |].
    rewrite Hti, Hci.
    rewrite (bind_Return _ _ _ _ _ (getitem_Return _ _ _ _ _ Ht Hti)).
    rewrite (bind_Return _ _ _ _ _ (getitem_Return _ _ _ _ _ Hp Hci)).
    apply setitem_Return; eauto using lookup_lt_Some.
  - simpl. split; by apply lookup_heap_old.
  - simpl. apply lookup_heap_new.
  - simpl. lia.
  - simpl. lia.
  - exists next. split; [| split; [done | split]].
    + unfold enumerate. rewrite (bind_Return _ _ _ _ _ Hloop).
      simpl. unfold mret, M_ret, set_heap. simpl. unfold new.
      by rewrite insert_heap_new.
    + intros idx c t Hidx Hc Ht.
      destruct (lookup_lt_is_Some_2 posedict_keys idx Hidx) as [key Hkey].
      pose proof (Hin idx key c Hkey Hc) as Hnext. simpl in Hnext.
      by rewrite Hnext, Hc, Ht.
    + intros idx Hidx. apply Hout. lia.
Qed.

(** Looping the output back as the pose, with the target kept: [n]
    integration steps. *)
Fixpoint integrate (n : nat) (pose target_pose : loc) (step : R) : M loc :=
  match n with
  | O => mret pose
  | S n' => next ← interpolate_pose pose target_pose step;
            integrate n' next target_pose step
  end.

Lemma interpolate_contracts (c t step : R) :
  0 < step < 1 → c ≠ t → Rabs (c + step * (t - c) - t) < Rabs (c - t).
Proof.
  intros Hs Hne.
  replace (c + step * (t - c) - t) with ((1 - step) * (c - t)) by ring.
  rewrite Rabs_mult, (Rabs_pos_eq (1 - step)) by lra.
  assert (0 < Rabs (c - t)) by (apply Rabs_pos_lt; lra).
  nra.
Qed.

Lemma integrate_Return (n : nat) (step : R) (target_pose : loc) (tgt : list R) :
  (length posedict_keys ≤ length tgt)%nat →
  ∀ (w : World) (pose : loc) (cur : list R),
    heap w !! pose = Some cur →
    heap w !! target_pose = Some tgt →
    (length posedict_keys ≤ length cur)%nat →
    ∃ l w1 x,
      integrate n pose target_pose step w = Return l w1 ∧
      heap w1 !! l = Some x ∧
      heap w1 !! target_pose = Some tgt ∧
      (length posedict_keys ≤ length x)%nat ∧
      (∀ idx c t, (idx < length posedict_keys)%nat →
         cur !! idx = Some c → tgt !! idx = Some t →
         x !! idx = Some (t + (1 - step) ^ n * (c - t))).
Proof.
  intros Htgt. induction n as [| n IH]; intros w pose cur Hpose Htarget Hcur.
  - exists pose, w, cur. repeat split; try done.
    intros idx c t _ Hc _. rewrite Hc. f_equal. simpl. ring.
  - destruct (interpolate_pose_Return w pose target_pose cur tgt step)
      as (next & Hrun & Hlen & Hin & _); try done.
    destruct (IH (set_heap (heap w ++ [next]) w) (length (heap w)) next)
      as (l & w1 & x & Hrun' & Hl & Htarget' & Hx & Hform).
    + simpl. apply lookup_heap_new.
    + simpl. by apply lookup_heap_old.
    + lia.
    + exists l, w1, x. repeat split; try done.
      * simpl. by rewrite (bind_Return _ _ _ _ _ Hrun).
      * intros idx c t Hidx Hc Ht.
        rewrite (Hform idx (c + step * (t - c)) t) by eauto.
        f_equal. simpl. ring.
Qed.

(** With exact arithmetic, a constant target and a step strictly between
    0 and 1, every integration step, after any number of earlier steps,
    returns a new pose whose channels are
    [current + step * (target - current)], and is strictly closer to the
    target in each channel that has not reached it; after [n] steps a
    channel that started at [c] is at [t + (1 - step)^n * (c - t)]. *)
Lemma interpolate_pose_contraction (w : World) (pose target_pose : loc)
    (cur tgt : list R) (step : R) (n : nat) :
  heap w !! pose = Some cur →
  heap w !! target_pose = Some tgt →
  (length posedict_keys ≤ length cur)%nat →
  (length posedict_keys ≤ length tgt)%nat →
  0 < step < 1 →
  ∃ l w1 x y,
    integrate n pose target_pose step w = Return l w1 ∧
    heap w1 !! l = Some x ∧
    interpolate_pose l target_pose step w1
    = Return (length (heap w1)) (set_heap (heap w1 ++ [y]) w1) ∧
    ∀ idx c t, (idx < length posedict_keys)%nat →
      cur !! idx = Some c → tgt !! idx = Some t →
      ∃ xi yi,
        x !! idx = Some xi ∧ y !! idx = Some yi ∧
        xi = t + (1 - step) ^ n * (c - t) ∧
        yi = xi + step * (t - xi) ∧
        (xi ≠ t → Rabs (yi - t) < Rabs (xi - t)) ∧
        (xi = t → yi = t).
Proof.
  intros Hpose Htarget Hcur Htgt Hstep.
  destruct (integrate_Return n step target_pose tgt Htgt w pose cur)
    as (l & w1 & x & Hrun & Hl & Htarget' & Hx & Hform); try done.
  destruct (interpolate_pose_Return w1 l target_pose x tgt step)
    as (y & Hrun' & Hlen & Hin & _); try done.
  exists l, w1, x, y. repeat split; try done.
  intros idx c t Hidx Hc Ht.
  exists (t + (1 - step) ^ n * (c - t)).
  exists (t + (1 - step) ^ n * (c - t) + step * (t - (t + (1 - step) ^ n * (c - t)))).
  pose proof (Hform idx c t Hidx Hc Ht) as Hxi.
  repeat split; try done.
  - by apply Hin.
  - intros Hne. by apply interpolate_contracts.
  - intros Heq. rewrite Heq. ring.
Qed.

(** The loop on binary64 numbers assigns the rounded value of the
    formula to every channel from [n] on that has a key, and nothing
    else. *)
Lemma interpolate_loop_inr (keys : list string)
    (pose target_pose : list PrimFloat.float) (step : PrimFloat.float) :
  ∀ (n : nat) (new_pose : list PrimFloat.float),
    length new_pose = length pose →
    (n + length keys ≤ length pose)%nat →
    (n + length keys ≤ length target_pose)%nat →
    ∃ next,
      Binary64.interpolate_loop (enumerate_from n keys) pose target_pose step new_pose
      = inr next ∧
      length next = length pose ∧
      (∀ idx c t, (n ≤ idx < n + length keys)%nat →
         pose !! idx = Some c → target_pose !! idx = Some t →
         next !! idx = Some (c + step * (t - c))%float) ∧
      (∀ idx, (idx < n ∨ n + length keys ≤ idx)%nat → next !! idx = new_pose !! idx).
Proof.
  induction keys as [| key keys IH]; intros n new_pose Hlen Hpose Htarget; simpl in *.
  - exists new_pose. split; [done |]. split; [done |]. split; [intros; lia | done].
  - destruct (lookup_lt_is_Some_2 target_pose n) as [t Ht]; [lia |].
    destruct (lookup_lt_is_Some_2 pose n) as [p Hp]; [lia |].
    rewrite Ht, Hp.
    destruct (IH (S n) (<[n := (p + step * (t - p))%float]> new_pose))
      as (next & Hrun & Hlen' & Hin & Hout);
      [by rewrite length_insert | lia | lia |].
    exists next. split; [done |]. split; [done |]. split.
    + intros idx c t' Hidx Hc Ht'.
      destruct (decide (idx = n)) as [-> | Hne].
      * rewrite Hout by lia. rewrite list_lookup_insert_eq by lia. congruence.
      * apply Hin; [lia | done | done].
    + intros idx Hidx. rewrite Hout by lia. apply list_lookup_insert_ne. lia.
Qed.

(** C6, as the code has it.  On binary64 numbers, the arithmetic of the
    code, an integration step returns a new pose whose keyed channels
    are [current + step * (target - current)] with each of the three
    operations rounded, and whose other channels are those of the pose.
    With exact arithmetic in place of the rounding, a constant target and
    a step strictly between 0 and 1, every integration step, after any
    number of earlier steps, is strictly closer to the target in each
    channel that has not reached it, and leaves a channel that has
    reached it there.  With the rounding a step need not get closer. *)
Theorem interpolate_pose_rounded_and_exact :
  (∀ (pose target_pose : list PrimFloat.float) (step : PrimFloat.float),
     (length posedict_keys ≤ length pose)%nat →
     (length posedict_keys ≤ length target_pose)%nat →
     ∃ next,
       Binary64.interpolate_pose pose target_pose step = inr next ∧
       length next = length pose ∧
       (∀ idx c t, (idx < length posedict_keys)%nat →
          pose !! idx = Some c → target_pose !! idx = Some t →
          next !! idx = Some (c + step * (t - c))%float) ∧
       (∀ idx, (length posedict_keys ≤ idx)%nat → next !! idx = pose !! idx)) ∧
  (∀ (w : World) (pose target_pose : loc) (cur tgt : list R) (step : R) (n : nat),
     heap w !! pose = Some cur →
     heap w !! target_pose = Some tgt →
     (length posedict_keys ≤ length cur)%nat →
     (length posedict_keys ≤ length tgt)%nat →
     0 < step < 1 →
     ∃ l w1 x y,
       integrate n pose target_pose step w = Return l w1 ∧
       heap w1 !! l = Some x ∧
       interpolate_pose l target_pose step w1
       = Return (length (heap w1)) (set_heap (heap w1 ++ [y]) w1) ∧
       ∀ idx c t, (idx < length posedict_keys)%nat →
         cur !! idx = Some c → tgt !! idx = Some t →
         ∃ xi yi,
           x !! idx = Some xi ∧ y !! idx = Some yi ∧
           xi = t + (1 - step) ^ n * (c - t) ∧
           yi = xi + step * (t - xi) ∧
           (xi ≠ t → Rabs (yi - t) < Rabs (xi - t)) ∧
           (xi = t → yi = t)).
Proof.
  split.
  - intros pose target_pose step Hpose Htarget.
    destruct (interpolate_loop_inr posedict_keys pose target_pose step 0 pose)
      as (next & Hrun & Hlen & Hin & Hout); [done | done | done |].
    exists next. split; [done |]. split; [done |]. split.
    + intros idx c t Hidx. apply Hin. lia.
    + intros idx Hidx. apply Hout. right. simpl. lia.
  - intros w pose target_pose cur tgt step n. apply interpolate_pose_contraction.
Qed.

(** ** The talk overlay *)

Lemma clamp_unit_interval x : 0 <= Rmax 0 (Rmin x 1) <= 1.
Proof.
  unfold Rmax, Rmin.
  destruct (Rle_dec x 1); destruct (Rle_dec 0 _); lra.
Qed.

Lemma uniform_Return a b w :
  uniform a b w = Return (a + (b - a) * rng w 0%nat) (set_rng (λ n, rng w (S n)) w).
Proof. reflexivity. Qed.

Lemma uniform_range a b r : a <= b → 0 <= r < 1 → a <= a + (b - a) * r <= b.
Proof. intros Hab Hr. split; nra. Qed.

(** C8: what [animate_talking] does to the pose it is given.  While the
    talking flag is set, the result is a new list that differs from the
    pose in the mouth-open channel only; that channel is
    clamp(|1 - x| + u, 0, 1) for the old value x and the number u that
    [random.uniform(-2, 2)] draws, which is -2 + 4 * r for the next
    random number r and lies in [-2, 2]; so the channel is in [0, 1];
    one random number is used and the pose itself is not written to.
    While the flag is clear, the result is the pose itself and nothing
    changes. *)
Theorem animate_talking_spec (w : World) (pose : loc) (v : list R) (idx : nat) (x : R) :
  heap w !! pose = Some v →
  posedict_key_to_index !! "mouth_aaa_index" = Some idx →
  v !! idx = Some x →
  0 <= rng w 0%nat < 1 →
  if is_talking w then
    let u := -2 + (2 - -2) * rng w 0%nat in
    let x' := Rmax 0 (Rmin (Rabs (1 - x) + u) 1) in
    -2 <= u <= 2 ∧
    0 <= x' <= 1 ∧
    animate_talking pose w =
      Return (length (heap w))
             (set_heap (heap w ++ [<[idx := x']> v])
                       (set_rng (λ n, rng w (S n)) w)) ∧
    (heap w ++ [<[idx := x']> v]) !! pose = Some v ∧
    ∀ i, i ≠ idx → <[idx := x']> v !! i = v !! i
  else animate_talking pose w = Return pose w.
Proof.
  intros Hpose Hidx Hx Hr. unfold animate_talking.
  destruct (is_talking w) eqn:Htalk.
  - cbv zeta.
    split; [apply uniform_range; lra |].
    split; [apply clamp_unit_interval |].
    split; [| split].
    + unfold mbind, M_bind, gets. rewrite Htalk. simpl.
      rewrite (list_copy_Return _ _ _ Hpose), (dict_get_Return _ _ _ _ Hidx).
      erewrite getitem_Return by (simpl; eauto using lookup_heap_old).
      erewrite setitem_Return
        by (simpl; eauto using lookup_heap_new, lookup_lt_Some).
      simpl. unfold mret, M_ret, set_heap. simpl. by rewrite insert_heap_new.
    + by apply lookup_heap_old.
    + intros i Hi. by apply list_lookup_insert_ne.
  - unfold mbind, M_bind, gets. by rewrite Htalk.
Qed.

(** ** The sway target *)

(** What the loop of [macrosway] assigns to a sway channel whose base
    target is [target_value], when [random.random()] gives [r]. *)
Definition swayed (target_value r : R) : R :=
  let random_upper := Rmax 0 (random_max - target_value) in
  let random_lower := Rmin 0 (- random_max - target_value) in
  target_value + (random_lower + (random_upper - random_lower) * r).

(** The offset lies in the range the code computes, and for a base target
    within [-random_max, random_max] so does the swayed value. *)
Lemma swayed_offset (target_value r : R) :
  0 <= r < 1 →
  Rmin 0 (- random_max - target_value)
  <= swayed target_value r - target_value
  <= Rmax 0 (random_max - target_value).
Proof.
  intros Hr. unfold swayed, random_max. case_minmax; split; nra.
Qed.

Lemma swayed_in_range (target_value r : R) :
  - random_max <= target_value <= random_max → 0 <= r < 1 →
  - random_max <= swayed target_value r <= random_max.
Proof.
  intros Ht Hr. unfold swayed, random_max in *. case_minmax; split; nra.
Qed.

(** Within the hold interval and with the emotion unchanged, [macrosway]
    returns the cached list object itself, and only the clock moves. *)
Lemma macrosway_cached (w : World) (a : Animator) (original_target_pose cached : loc)
    (interval : R) (t0 : Z) :
  global_animator_instance w = Some a →
  last_emotion a = Some (current_emotion w) →
  sway_interval a = Some interval →
  last_sway_target_timestamp a = Some t0 →
  last_sway_target_pose a = Some cached →
  IZR (clock w 0%nat - t0) / 10 ^ 9 < interval →
  macrosway original_target_pose w
  = Return cached (set_clock (λ n, clock w (S n)) w).
Proof.
  intros Ha Hemotion Hinterval Ht0 Hcached Hlt.
  unfold macrosway, mbind, M_bind, time_ns, self, gets. simpl.
  rewrite Ha, Hemotion, Hinterval, Ht0, Hcached. simpl.
  rewrite decide_True by done. simpl.
  rewrite decide_True by done. reflexivity.
Qed.

Lemma compute_sway_target_pose_cached (w : World) (a : Animator)
    (original_target_pose cached : loc) (interval : R) (t0 : Z) :
  global_animator_instance w = Some a →
  last_emotion a = Some (current_emotion w) →
  sway_interval a = Some interval →
  last_sway_target_timestamp a = Some t0 →
  last_sway_target_pose a = Some cached →
  IZR (clock w 0%nat - t0) / 10 ^ 9 < interval →
  compute_sway_target_pose original_target_pose w
  = (add_microsway cached;; mret cached) (set_clock (λ n, clock w (S n)) w).
Proof.
  intros Ha Hemotion Hinterval Ht0 Hcached Hlt. unfold compute_sway_target_pose.
  by rewrite (bind_Return _ _ _ _ _
                (macrosway_cached _ _ _ _ _ _ Ha Hemotion Hinterval Ht0 Hcached Hlt)).
Qed.

(** What [add_microsway] makes of a channel at [v], when
    [random.random()] gives [r]. *)
Definition jittered (v r : R) : R :=
  Rmax (-1) (Rmin (v + (- noise_max + (noise_max - - noise_max) * r)) 1).

(** ** The breathing overlay *)

(** The cycle position at [time_now], for a given breathing epoch. *)
Definition breathing_cycle_pos (epoch time_now : Z) : R :=
  IZR (time_now - epoch) / 10 ^ 9 / breathing_cycle_duration.

(** The value written to the breathing channel at a cycle position. *)
Definition breathing_value (cycle_pos : R) : R :=
  sin ((cycle_pos - IZR (py_int cycle_pos)) * PI) ^ 2.

(** One call of [animate_breathing]: a new list with the breathing
    channel set, and the epoch moved to now exactly when the cycle
    position exceeds 1. *)
Lemma animate_breathing_Return (w : World) (a : Animator) (pose : loc)
    (v : list R) (idx : nat) (cycle_pos : R) :
  global_animator_instance w = Some a →
  heap w !! pose = Some v →
  posedict_key_to_index !! "breathing_index" = Some idx →
  (idx < length v)%nat →
  cycle_pos = breathing_cycle_pos (breathing_epoch a) (clock w 0%nat) →
  animate_breathing pose w
  = Return (length (heap w))
      (set_heap (heap w ++ [<[idx := breathing_value cycle_pos]> v])
         (set_global_animator_instance
            (Some (if decide (cycle_pos > 1)
                   then set_breathing_epoch (clock w 0%nat) a
                   else a))
            (set_clock (λ n, clock w (S n)) w))).
Proof.
  intros Ha Hpose Hidx Hlt ->. unfold animate_breathing.
  erewrite bind_Return by reflexivity.
  erewrite bind_Return by (unfold self; simpl; rewrite Ha; reflexivity).
  fold (breathing_cycle_pos (breathing_epoch a) (clock w 0%nat)).
  set (cycle_pos := breathing_cycle_pos _ _).
  fold (breathing_value cycle_pos).
  destruct (decide (cycle_pos > 1)) as [Hgt | Hle].
  - erewrite bind_Return by (unfold setattr; simpl; rewrite Ha; reflexivity).
    erewrite bind_Return by (apply list_copy_Return; simpl; eassumption).
    erewrite bind_Return by (apply dict_get_Return; eassumption).
    erewrite bind_Return
      by (apply setitem_Return with (v := v); simpl; eauto using lookup_heap_new).
    unfold mret, M_ret, set_heap. simpl. by rewrite insert_heap_new.
  - erewrite bind_Return by reflexivity.
    erewrite bind_Return by (apply list_copy_Return; simpl; eassumption).
    erewrite bind_Return by (apply dict_get_Return; eassumption).
    erewrite bind_Return
      by (apply setitem_Return with (v := v); simpl; eauto using lookup_heap_new).
    unfold mret, M_ret, set_heap, set_global_animator_instance. simpl.
    by rewrite insert_heap_new, Ha.
Qed.

Lemma breathing_value_range (cycle_pos : R) : 0 <= breathing_value cycle_pos <= 1.
Proof.
  unfold breathing_value. set (x := (_ * PI)).
  pose proof (SIN_bound x). pose proof (pow2_ge_0 (sin x)). split; [done | nra].
Qed.

(** From the epoch on, the phase is the fractional part of the cycle
    position. *)
Lemma breathing_value_frac_part (cycle_pos : R) :
  0 <= cycle_pos → breathing_value cycle_pos = sin (PI * frac_part cycle_pos) ^ 2.
Proof.
  intros Hpos. unfold breathing_value, py_int, frac_part.
  rewrite decide_True by done. f_equal. f_equal. ring.
Qed.

(** ** The control surface *)

Lemma highest_snoc (items : list item) (it : item) :
  highest (items ++ [it])
  = if decide (exceeds (score it) (highest items).1)
    then (Some (score it), Some (label it))
    else highest items.
Proof.
  unfold highest. rewrite foldl_app. simpl.
  destruct (foldl _ _ items) as [hs hl]. reflexivity.
Qed.

(** The loop picks an entry of the highest score: the first of them. *)
Lemma highest_spec (items : list item) :
  items ≠ [] →
  ∃ it, it ∈ items ∧
        highest items = (Some (score it), Some (label it)) ∧
        ∀ it', it' ∈ items → score it' <= score it.
Proof.
  induction items as [| it items IH] using rev_ind; [done |]. intros _.
  rewrite highest_snoc. destruct items as [| it0 items0].
  - exists it. simpl. split; [set_solver |]. split; [done |].
    intros it' Hin'. apply list_elem_of_singleton in Hin'. subst. lra.
  - assert (Hne : it0 :: items0 ≠ []) by done.
    revert IH Hne. generalize (it0 :: items0). clear it0 items0.
    intros items IH Hne.
    destruct IH as (best & Hin & Hbest & Hmax); [done |].
    rewrite Hbest. simpl.
    destruct (decide (score it > score best)) as [Hgt | Hle].
    + exists it. split; [set_solver |]. split; [done |].
      intros it' Hin'. apply elem_of_app in Hin' as [Hin' | Hin'].
      * specialize (Hmax _ Hin'). lra.
      * apply list_elem_of_singleton in Hin'. subst. lra.
    + exists best. split; [set_solver |]. split; [done |].
      intros it' Hin'. apply elem_of_app in Hin' as [Hin' | Hin'].
      * by apply Hmax.
      * apply list_elem_of_singleton in Hin'. subst. lra.
Qed.

(** The two ways [setEmotion] ends once the label is picked. *)
Lemma setEmotion_known (w : World) (a : Animator) (_emotion : list item) (l : string) :
  global_animator_instance w = Some a →
  (highest _emotion).2 = Some l →
  is_Some (emotions a !! l) →
  setEmotion _emotion w
  = Return ("emotion set to " +:+ l)
      (set_current_emotion l
         (set_log (log w ++ [LogRecord INFO ("setEmotion: applying emotion " +:+ l)])
                  w)).
Proof.
  intros Ha Hl Hknown. unfold setEmotion.
  erewrite bind_Return by (unfold self; rewrite Ha; reflexivity).
  rewrite Hl. simpl. rewrite decide_False by (intros Hn; by apply Hn).
  reflexivity.
Qed.

Lemma setEmotion_unknown (w : World) (a : Animator) (_emotion : list item) :
  global_animator_instance w = Some a →
  ¬ is_Some ((highest _emotion).2 ≫= λ l, emotions a !! l) →
  setEmotion _emotion w
  = Return "emotion set to neutral"
      (set_current_emotion "neutral"
         (set_log
            ((log w
              ++ [LogRecord WARNING
                    ("setEmotion: emotion '" +:+ label_str (highest _emotion).2
                     +:+ "' does not exist, setting to 'neutral'")])
             ++ [LogRecord INFO "setEmotion: applying emotion neutral"])
            w)).
Proof.
  intros Ha Hunknown. unfold setEmotion.
  erewrite bind_Return by (unfold self; rewrite Ha; reflexivity).
  rewrite decide_True by done. reflexivity.
Qed.

(** C9: with the presets loaded, [setEmotion] returns for every list of
    entries.  For a list that is not empty it picks an entry of the
    highest score; when its label is a preset, that label becomes the
    current emotion; when it is not, the current emotion becomes
    "neutral" and a warning is logged first.  Nothing else changes. *)
Theorem setEmotion_spec (w : World) (a : Animator) (_emotion : list item) :
  global_animator_instance w = Some a →
  _emotion ≠ [] →
  ∃ it, it ∈ _emotion ∧ (∀ it', it' ∈ _emotion → score it' <= score it) ∧
    if decide (is_Some (emotions a !! label it))
    then
      setEmotion _emotion w
      = Return ("emotion set to " +:+ label it)
          (set_current_emotion (label it)
             (set_log
                (log w ++ [LogRecord INFO ("setEmotion: applying emotion " +:+ label it)])
                w))
    else
      setEmotion _emotion w
      = Return "emotion set to neutral"
          (set_current_emotion "neutral"
             (set_log
                ((log w
                  ++ [LogRecord WARNING
                        ("setEmotion: emotion '" +:+ label it
                         +:+ "' does not exist, setting to 'neutral'")])
                 ++ [LogRecord INFO "setEmotion: applying emotion neutral"])
                w)).
Proof.
  intros Ha Hne. destruct (highest_spec _emotion Hne) as (it & Hin & Hbest & Hmax).
  exists it. split; [done |]. split; [done |].
  assert (Hl : (highest _emotion).2 = Some (label it)) by (by rewrite Hbest).
  destruct (decide (is_Some (emotions a !! label it))) as [Hknown | Hunknown].
  - by apply (setEmotion_known w a).
  - rewrite (setEmotion_unknown w a _emotion Ha); rewrite Hl; done.
Qed.

(** C10: with the presets loaded, [setEmotion] of the empty list
    returns: no label is picked, [None] is not a preset, so a warning
    about 'None' is logged and the current emotion becomes "neutral". *)
Theorem setEmotion_empty (w : World) (a : Animator) :
  global_animator_instance w = Some a →
  (highest []).2 = None ∧
  setEmotion [] w
  = Return "emotion set to neutral"
      (set_current_emotion "neutral"
         (set_log
            ((log w
              ++ [LogRecord WARNING
                    "setEmotion: emotion 'None' does not exist, setting to 'neutral'"])
             ++ [LogRecord INFO "setEmotion: applying emotion neutral"])
            w)).
Proof.
  intros Ha. split; [reflexivity |].
  rewrite (setEmotion_unknown w a [] Ha); [reflexivity |].
  simpl. by intros [? ?].
Qed.

(** ** The render tick and the frame slot *)

(** The slot the animator hands frames over in. *)
Definition frame_slot (w : World) : option (bool * option ndarray) :=
  (λ a, (new_frame_available a, result_image a)) <$> global_animator_instance w.

(** A computation leaves an observation of the state as it is, whether it
    returns or raises. *)
Definition keeps {A B} (f : World → B) (m : M A) : Prop :=
  ∀ w, f (final (m w)) = f w.

Lemma keeps_ret {A B} (f : World → B) (a : A) : keeps f (mret a).
Proof. by intros w. Qed.

Lemma keeps_raise {A B} (f : World → B) (e : exn) : keeps f (raise (A := A) e).
Proof. by intros w. Qed.

Lemma keeps_gets {A B} (f : World → B) (g : World → A) : keeps f (gets g).
Proof. by intros w. Qed.

Lemma keeps_bind {A A' B} (f : World → B) (m : M A) (k : A → M A') :
  keeps f m → (∀ a, keeps f (k a)) → keeps f (m ≫= k).
Proof.
  intros Hm Hk w. specialize (Hm w). unfold mbind, M_bind.
  destruct (m w) as [a w' | e w']; simpl in *; [| done].
  by rewrite Hk.
Qed.

Lemma keeps_for_in {A B} (f : World → B) (xs : list A) (body : A → M unit) :
  (∀ x, keeps f (body x)) → keeps f (for_in xs body).
Proof.
  intros Hbody. induction xs as [| x xs IH]; simpl.
  - apply keeps_ret.
  - apply keeps_bind; [apply Hbody | by intros _].
Qed.

Lemma keeps_try_except {A B} (f : World → B) (body : M A) (E : exn) (handler : M A) :
  keeps f body → keeps f handler → keeps f (try_except body E handler).
Proof.
  intros Hbody Hhandler w. specialize (Hbody w). unfold try_except.
  destruct (body w) as [a w' | e w']; simpl in *; [done |].
  destruct (decide (e = E)); [| done]. by rewrite Hhandler.
Qed.

Lemma keeps_try_finally {A B} (f : World → B) (body : M A) (cleanup : M unit) :
  keeps f body → keeps f cleanup → keeps f (try_finally body cleanup).
Proof.
  intros Hbody Hcleanup w. specialize (Hbody w). unfold try_finally.
  destruct (body w) as [a w' | e w']; simpl in *.
  - rewrite <- Hbody. apply (keeps_bind f cleanup (λ _, mret a)); [done |].
    intros _. apply keeps_ret.
  - rewrite <- Hbody. apply (keeps_bind f cleanup (λ _, raise e)); [done |].
    intros _. apply keeps_raise.
Qed.

Lemma keeps_slot_modify (g : World → World) :
  (∀ w, global_animator_instance (g w) = global_animator_instance w) →
  keeps frame_slot (modify g).
Proof. intros Hg w. unfold frame_slot. simpl. by rewrite Hg. Qed.

Lemma keeps_slot_setattr (g : Animator → Animator) :
  (∀ a, new_frame_available (g a) = new_frame_available a
        ∧ result_image (g a) = result_image a) →
  keeps frame_slot (setattr g).
Proof.
  intros Hg w. unfold frame_slot, setattr.
  destruct (global_animator_instance w) as [a |] eqn:Ha; simpl.
  - by destruct (Hg a) as [-> ->].
  - by rewrite Ha.
Qed.

Lemma keeps_slot_time_ns : keeps frame_slot time_ns.
Proof. by intros w. Qed.

Lemma keeps_slot_random : keeps frame_slot random.
Proof. by intros w. Qed.

Lemma keeps_slot_list_copy l : keeps frame_slot (list_copy l).
Proof. intros w. unfold list_copy. by destruct (heap w !! l). Qed.

Lemma keeps_slot_list_new v : keeps frame_slot (list_new v).
Proof. by intros w. Qed.

Lemma keeps_slot_list_read l : keeps frame_slot (list_read l).
Proof. intros w. unfold list_read. by destruct (heap w !! l). Qed.

Lemma keeps_slot_getitem l i : keeps frame_slot (getitem l i).
Proof.
  intros w. unfold getitem. destruct (heap w !! l) as [v |]; [| done].
  by destruct (v !! i).
Qed.

Lemma keeps_slot_setitem l i x : keeps frame_slot (setitem l i x).
Proof.
  intros w. unfold setitem. destruct (heap w !! l) as [v |]; [| done].
  by destruct (decide (i < length v)%nat).
Qed.

Lemma keeps_slot_self : keeps frame_slot self.
Proof. intros w. unfold self. by destruct (global_animator_instance w). Qed.

Lemma keeps_slot_uniform a b : keeps frame_slot (uniform a b).
Proof. by intros w. Qed.

Lemma keeps_slot_logger l msg : keeps frame_slot (logger l msg).
Proof. by intros w. Qed.

Lemma keeps_slot_dict_get {V} (d : gmap string V) k : keeps frame_slot (dict_get d k).
Proof. intros w. unfold dict_get. by destruct (d !! k). Qed.

Lemma keeps_slot_seconds_since time_now t : keeps frame_slot (seconds_since time_now t).
Proof. intros w. by destruct t. Qed.

End EngineProperties.

Create HintDb keeps discriminated.

#[export] Hint Resolve keeps_ret keeps_raise keeps_gets keeps_slot_time_ns
  keeps_slot_random keeps_slot_list_copy keeps_slot_list_new keeps_slot_list_read
  keeps_slot_getitem keeps_slot_setitem keeps_slot_self keeps_slot_uniform
  keeps_slot_logger keeps_slot_dict_get keeps_slot_seconds_since : keeps.

(** Takes a computation apart and shows that each piece keeps
    [frame_slot]. *)
Ltac keeps_slot :=
  repeat first
    [ solve [auto with keeps]
    | apply keeps_slot_setattr; intros ?; split; reflexivity
    | apply keeps_slot_modify; intros ?; reflexivity
    | apply keeps_for_in; intros ?
    | apply keeps_try_finally
    | apply keeps_try_except
    | apply keeps_bind; [| intros ?]
    | progress cbv zeta
    | match goal with
      | |- keeps _ (match ?x with _ => _ end) => destruct x
      end ].

Section PipelineProperties.
Context `{Collaborators}.

Lemma keeps_slot_apply_emotion_to_pose d pose :
  keeps frame_slot (apply_emotion_to_pose d pose).
Proof. unfold apply_emotion_to_pose. keeps_slot. Qed.

Lemma keeps_slot_compute_sway_target_pose pose :
  keeps frame_slot (compute_sway_target_pose pose).
Proof. unfold compute_sway_target_pose, macrosway, add_microsway. keeps_slot. Qed.

Lemma keeps_slot_interpolate_pose pose target_pose step :
  keeps frame_slot (interpolate_pose pose target_pose step).
Proof. unfold interpolate_pose. keeps_slot. Qed.

Lemma keeps_slot_animate_blinking pose : keeps frame_slot (animate_blinking pose).
Proof. unfold animate_blinking. keeps_slot. Qed.

Lemma keeps_slot_animate_talking pose : keeps frame_slot (animate_talking pose).
Proof. unfold animate_talking. keeps_slot. Qed.

Lemma keeps_slot_animate_breathing pose : keeps frame_slot (animate_breathing pose).
Proof. unfold animate_breathing. keeps_slot. Qed.

Lemma keeps_slot_load_image file : keeps frame_slot (load_image file).
Proof. unfold load_image. keeps_slot. Qed.

#[local] Hint Resolve keeps_slot_apply_emotion_to_pose
  keeps_slot_compute_sway_target_pose keeps_slot_interpolate_pose
  keeps_slot_animate_blinking keeps_slot_animate_talking
  keeps_slot_animate_breathing keeps_slot_load_image : keeps.

(** The whole of lines 583-642 writes neither [result_image] nor
    [new_frame_available]. *)
Lemma keeps_slot_render_frame : keeps frame_slot render_frame.
Proof. unfold render_frame, get_current_pose. keeps_slot. Qed.

Lemma keeps_slot_run_api c : keeps frame_slot (run_api c).
Proof.
  destruct c; unfold run_api, setEmotion, unload, start_talking, stop_talking,
    talkinghead_load_file, PIL_Image_open; keeps_slot.
Qed.

Lemma render_frame_guard (w w' : World) (x : ndarray * Z) :
  render_frame w = Return (Some x) w' →
  ∃ a, global_animator_instance w' = Some a ∧ new_frame_available a = false.
Proof.
  intros Hrun.
  assert (Hguard : ∃ a, global_animator_instance w = Some a
                        ∧ new_frame_available a = false).
  { revert Hrun. unfold render_frame, mbind at 1 2, M_bind, gets, self.
    destruct (animation_running w); simpl; [| done].
    destruct (global_animator_instance w) as [a |]; [| done].
    destruct (new_frame_available a) eqn:Hflag; [done |]. eauto. }
  destruct Hguard as (a & Ha & Hflag).
  pose proof (keeps_slot_render_frame w) as Hkeep. rewrite Hrun in Hkeep.
  unfold frame_slot in Hkeep. simpl in Hkeep. rewrite Ha in Hkeep. simpl in Hkeep.
  destruct (global_animator_instance w') as [a' |]; [| done].
  exists a'. split; [done |]. simpl in Hkeep. congruence.
Qed.

(** A tick that finds the previous frame still there does nothing. *)
Lemma render_frame_skips (w : World) (a : Animator) :
  global_animator_instance w = Some a → new_frame_available a = true →
  render_frame w = Return None w.
Proof.
  intros Ha Hflag. unfold render_frame, mbind at 1 2, M_bind, gets, self.
  destruct (animation_running w); simpl; [| done].
  by rewrite Ha, Hflag.
Qed.

Lemma publish_frame_Return (w : World) (a : Animator) (img : ndarray) (t : Z) :
  global_animator_instance w = Some a →
  ∃ w' a', publish_frame img t w = Return () w' ∧
           global_animator_instance w' = Some a' ∧
           new_frame_available a' = true ∧ result_image a' = Some img.
Proof.
  intros Ha. unfold publish_frame.
  erewrite bind_Return by (unfold setattr; rewrite Ha; reflexivity).
  erewrite bind_Return by (unfold setattr; simpl; reflexivity).
  erewrite bind_Return by reflexivity.
  erewrite bind_Return by (unfold self; simpl; reflexivity).
  simpl. destruct (animation_running w && _).
  - erewrite bind_Return by reflexivity.
    unfold setattr. simpl. eexists _, _. repeat split.
  - unfold mret, M_ret. eexists _, _. repeat split.
Qed.

(** While a rendered frame waits to be handed over, the slot is free. *)
Lemma pending_frame_invariant (s0 : System) (past : list (System * action))
    (s : System) :
  execution s0 past s →
  ∀ img t, animator_thread s = AnimatorRendered img t →
    ∃ a, global_animator_instance (world s) = Some a ∧ new_frame_available a = false.
Proof.
  induction 1 as [Hinit | past s l s' Hexec IH Hstep]; intros img t Hpc.
  - destruct Hinit as (Hidle & _). congruence.
  - destruct Hstep; simpl in *; try congruence; eauto.
    + injection Hpc as <- <-. by eapply render_frame_guard.
    + unfold consume_frame, setattr in *.
      destruct (global_animator_instance (world s)); simplify_eq.
      eexists. split; reflexivity.
    + unfold consume_frame, setattr in *.
      destruct (global_animator_instance (world s)); simplify_eq.
      eexists. split; reflexivity.
    + destruct (IH _ _ Hpc) as (a1 & Ha1 & Hflag).
      match goal with
      | |- context [run_api ?c ?w] => pose proof (keeps_slot_run_api c w) as Hkeep
      end.
      unfold frame_slot in Hkeep. rewrite Ha1 in Hkeep.
      destruct (global_animator_instance (final _)) as [a' |]; [| done].
      exists a'. split; [done |]. simpl in Hkeep. congruence.
Qed.

(** C4: a tick that starts with [new_frame_available] set renders
    nothing and leaves the state as it is; and in every execution of the
    pipeline a frame is handed over only into a free slot (the flag is
    clear just before, set with the new frame just after), so a frame
    that has not been consumed is never replaced. *)
Theorem render_single_slot :
  (∀ (w : World) (a : Animator),
     global_animator_instance w = Some a → new_frame_available a = true →
     render_frame w = Return None w ∧ render_animation_frame w = Return () w) ∧
  (∀ (s0 : System) (past : list (System * action)) (s s' : System) (img : ndarray),
     execution s0 past s → step s (AnimatorPublish img) s' →
     (∃ a, global_animator_instance (world s) = Some a
           ∧ new_frame_available a = false) ∧
     (∃ a', global_animator_instance (world s') = Some a'
            ∧ new_frame_available a' = true ∧ result_image a' = Some img)).
Proof.
  split.
  - intros w a Ha Hflag. split; [by eapply render_frame_skips |].
    unfold render_animation_frame.
    by rewrite (bind_Return _ _ _ _ _ (render_frame_skips w a Ha Hflag)).
  - intros s0 past s s' img Hexec Hstep.
    inversion Hstep as [| | s1 img1 t w' Hpc Hpub | | | | | | | | | | | | | | | | ]; subst.
    destruct (pending_frame_invariant _ _ _ Hexec _ _ Hpc) as (a & Ha & Hflag).
    split; [eauto |].
    destruct (publish_frame_Return (world s) a img t Ha) as (w1 & a' & Hrun & Hrest).
    rewrite Hrun in Hpub. injection Hpub as <-. simpl. eauto.
Qed.

(** ** The encoder and the delivery mark *)

(** The bytes objects the state refers to. *)
Definition live_frames (s : System) : list EncodedFrame :=
  option_list (image_bytes s) ++ feeds s ++
  match encoder_thread s with
  | EncoderWaiting new_frame previous_frame => [new_frame; previous_frame]
  | EncoderReady new_frame => [new_frame]
  | _ => []
  end.

(** [f] was encoded, resp. sent by a feed, in a step of [past]. *)
Definition encoded (past : list (System * action)) (f : EncodedFrame) : Prop :=
  ∃ s, (s, EncoderTake f) ∈ past.
Definition sent (past : list (System * action)) (f : EncodedFrame) : Prop :=
  ∃ s, (s, FeedSent f) ∈ past.

(** [global_latest_frame_sent] is [i] now, or was in a state of [past]. *)
Definition mark_seen (past : list (System * action)) (s : System) (i : nat) : Prop :=
  global_latest_frame_sent s = Some i ∨
  ∃ s1 l, (s1, l) ∈ past ∧ global_latest_frame_sent s1 = Some i.

Lemma encoded_mono past x f : encoded past f → encoded (x :: past) f.
Proof. intros [s Hs]. exists s. set_solver. Qed.

Lemma sent_mono past x f : sent past f → sent (x :: past) f.
Proof. intros [s Hs]. exists s. set_solver. Qed.

Lemma mark_seen_step past s l s' i :
  mark_seen past s i → mark_seen ((s, l) :: past) s' i.
Proof.
  intros [Hnow | (s1 & l1 & Hin & Hmark)]; right.
  - exists s, l. set_solver.
  - exists s1, l1. set_solver.
Qed.

(** Every bytes object has an [id] of its own, and the mark is the [id]
    of a frame that a feed has sent.  This is for a first launch, where
    the mark starts as [None] (line 50); [launch] does not reset it, so
    after a relaunch it can be left over from the run before. *)
Record identities (s0 : System) (past : list (System * action)) (s : System) : Prop := {
  ids_grow : (next_id s0 ≤ next_id s)%nat;
  ids_range : ∀ f, encoded past f → (next_id s0 ≤ frame_id f < next_id s)%nat;
  ids_unique : ∀ f g, encoded past f → encoded past g →
                      frame_id f = frame_id g → f = g;
  live_encoded : ∀ f, f ∈ live_frames s → encoded past f;
  sent_encoded : ∀ f, sent past f → encoded past f;
  mark_sent : ∀ i, global_latest_frame_sent s = Some i →
                   ∃ f, sent past f ∧ frame_id f = i;
}.

Lemma encoded_cons past s l f :
  encoded ((s, l) :: past) f → encoded past f ∨ l = EncoderTake f.
Proof.
  intros [s1 Hs1]. apply elem_of_cons in Hs1 as [Heq | Hin].
  - right. congruence.
  - left. by exists s1.
Qed.

Lemma sent_cons past s l f :
  sent ((s, l) :: past) f → sent past f ∨ l = FeedSent f.
Proof.
  intros [s1 Hs1]. apply elem_of_cons in Hs1 as [Heq | Hin].
  - right. congruence.
  - left. by exists s1.
Qed.

(** A step that creates no bytes object, leaves the mark alone and lets
    the state refer to no further object keeps the identities. *)
Lemma identities_keep (s0 : System) (past : list (System * action))
    (s : System) (l : action) (s' : System) :
  identities s0 past s →
  next_id s' = next_id s →
  global_latest_frame_sent s' = global_latest_frame_sent s →
  (∀ f, f ∈ live_frames s' → f ∈ live_frames s) →
  (∀ f, l ≠ EncoderTake f) →
  (∀ f, l ≠ FeedSent f) →
  identities s0 ((s, l) :: past) s'.
Proof.
  intros [Hgrow Hrange Huniq Hlive Hsent Hmark] Hid Hsame Hsub Htake Hfeed.
  split.
  - lia.
  - intros f Hf. apply encoded_cons in Hf as [Hf | Hf]; [| by destruct (Htake f)].
    rewrite Hid. by apply Hrange.
  - intros f g Hf Hg.
    apply encoded_cons in Hf as [Hf | Hf]; [| by destruct (Htake f)].
    apply encoded_cons in Hg as [Hg | Hg]; [| by destruct (Htake g)].
    by apply Huniq.
  - intros f Hf. apply encoded_mono. eauto.
  - intros f Hf. apply sent_cons in Hf as [Hf | Hf]; [| by destruct (Hfeed f)].
    apply encoded_mono. eauto.
  - intros i Hi. rewrite Hsame in Hi.
    destruct (Hmark i Hi) as (f & Hf & Hfi).
    exists f. eauto using sent_mono.
Qed.

Lemma identities_invariant (s0 : System) (past : list (System * action)) (s : System) :
  execution s0 past s → global_latest_frame_sent s0 = None → identities s0 past s.
Proof.
  intros Hexec Hfirst.
  induction Hexec as [Hinit | past s l s' Hexec IH Hstep].
  - destruct Hinit as (_ & Hpc & Hbytes & Hfeeds & _).
    split; try (intros f [s Hs]; set_solver); [lia | | |].
    + intros f g [s Hs]; set_solver.
    + intros f. unfold live_frames. rewrite Hpc, Hbytes, Hfeeds. set_solver.
    + intros i Hi. congruence.
  - destruct Hstep;
      try (apply identities_keep;
           [ done | reflexivity | reflexivity
           | intros f0; unfold live_frames; simpl;
             repeat match goal with
                    | Heq : encoder_thread _ = _ |- _ => rewrite Heq; clear Heq
                    | Heq : image_bytes _ = _ |- _ => rewrite Heq; clear Heq
                    | Heq : feeds _ = _ |- _ => rewrite Heq; clear Heq
                    end;
             simpl; set_solver
           | done | done ]).
    + (* EncoderTake: the one step that creates a bytes object *)
      destruct IH as [Hgrow Hrange Huniq Hlive Hsent Hmark].
      split; simpl.
      * lia.
      * intros f Hf. apply encoded_cons in Hf as [Hf | Hf].
        -- specialize (Hrange f Hf). lia.
        -- injection Hf as <-. simpl. lia.
      * intros f g Hf Hg Hid.
        apply encoded_cons in Hf as [Hf | Hf];
          apply encoded_cons in Hg as [Hg | Hg].
        -- by apply Huniq.
        -- injection Hg as <-. specialize (Hrange f Hf). simpl in Hid. lia.
        -- injection Hf as <-. specialize (Hrange g Hg). simpl in Hid. lia.
        -- congruence.
      * intros f Hf.
        assert (Hcases : f = new_frame ∨ f ∈ live_frames s).
        { revert Hf. unfold live_frames. simpl. rewrite H0.
          destruct (image_bytes s); simpl; set_solver. }
        destruct Hcases as [-> | Hold].
        -- exists s. set_solver.
        -- apply encoded_mono. eauto.
      * intros f Hf. apply sent_cons in Hf as [Hf | Hf]; [| done].
        apply encoded_mono. eauto.
      * intros i Hi. destruct (Hmark i Hi) as (f & Hf & Hfi).
        exists f. eauto using sent_mono.
    + (* FeedSent: the one step that writes the mark *)
      destruct IH as [Hgrow Hrange Huniq Hlive Hsent Hmark].
      assert (Hf_live : f ∈ live_frames s).
      { unfold live_frames. rewrite H0. set_solver. }
      split; simpl.
      * lia.
      * intros f0 Hf0. apply encoded_cons in Hf0 as [Hf0 | Hf0]; [| done].
        by apply Hrange.
      * intros f0 g0 Hf0 Hg0.
        apply encoded_cons in Hf0 as [Hf0 | Hf0]; [| done].
        apply encoded_cons in Hg0 as [Hg0 | Hg0]; [| done].
        by apply Huniq.
      * intros f0 Hf0. apply encoded_mono, Hlive. revert Hf0.
        unfold live_frames. simpl. rewrite H0. set_solver.
      * intros f0 Hf0. apply encoded_mono.
        apply sent_cons in Hf0 as [Hf0 | Hf0]; [eauto |].
        injection Hf0 as <-. eauto.
      * intros i Hi. injection Hi as <-. exists f. split; [| done].
        exists s. set_solver.
Qed.

(** While the encoder waits, the frame it waits for is the published
    one; once it is past the wait, the mark has shown the [id] of the
    published frame, unless the encoder was told to terminate; and in a
    first launch, where the mark starts as [None], a feed has sent that
    frame. *)
Lemma encoder_invariant (s0 : System) (past : list (System * action)) (s : System) :
  execution s0 past s →
  (∀ new_frame previous_frame,
     encoder_thread s = EncoderWaiting new_frame previous_frame →
     image_bytes s = Some previous_frame) ∧
  (∀ new_frame previous_frame,
     encoder_thread s = EncoderReady new_frame →
     image_bytes s = Some previous_frame →
     encoder_terminated s = true ∨
     (mark_seen past s (frame_id previous_frame) ∧
      (global_latest_frame_sent s0 = None → sent past previous_frame))).
Proof.
  induction 1 as [Hinit | past s l s' Hexec [IHwait IHready] Hstep].
  - destruct Hinit as (_ & Hpc & _). split; intros ? ? Hpc'; congruence.
  - assert (Hkeep : ∀ new_frame previous_frame,
              encoder_thread s = EncoderReady new_frame →
              image_bytes s = Some previous_frame →
              encoder_terminated s = true ∨
              (mark_seen ((s, l) :: past) s' (frame_id previous_frame) ∧
               (global_latest_frame_sent s0 = None →
                sent ((s, l) :: past) previous_frame))).
    { intros n p Hpc Hb. destruct (IHready n p Hpc Hb) as [? | [? ?]]; [by left |].
      right. eauto using sent_mono, mark_seen_step. }
    destruct Hstep; simpl in *;
      try (split; [by eauto | by eauto]);
      try (split; intros n p Hpc; [congruence | intros Hb; congruence]).
    + (* EncoderTake *)
      split; intros n p Hpc; destruct (image_bytes s) eqn:Hb; simplify_eq; done.
    + (* EncoderProceed *)
      split; intros n p Hpc; [congruence |]. intros Hb. injection Hpc as <-.
      rewrite (IHwait _ _ H0) in Hb. injection Hb as <-.
      destruct (encoder_terminated s) eqn:Hterm; [by left | right].
      destruct (decide (global_latest_frame_sent s = Some (frame_id previous_frame)))
        as [Hmark | Hmark]; [| destruct H1; by split].
      split; [right; exists s, EncoderProceed; set_solver |].
      intros Hfirst.
      pose proof (identities_invariant _ _ _ Hexec Hfirst) as Hids.
      assert (Hprev : encoded past previous_frame).
      { apply (live_encoded _ _ _ Hids). unfold live_frames.
        rewrite (IHwait _ _ H0). set_solver. }
      destruct (mark_sent _ _ _ Hids _ Hmark) as (f & Hf & Hid).
      assert (f = previous_frame) as ->.
      { apply (ids_unique _ _ _ Hids); [| done | done].
        by apply (sent_encoded _ _ _ Hids). }
      by apply sent_mono.
Qed.


End PipelineProperties.

(** * The render tick on a well-formed state

    On a state as the ticks themselves leave it, [render_frame] raises
    nothing and renders a frame. *)

Section RenderProgress.
Context `{Collaborators}.

(** The number of channels, and the keys the drivers look up by name. *)
Definition channels : nat := length posedict_keys.

Definition named_keys : list string :=
  SWAYPARTS ++ ["eye_wink_left_index"; "eye_wink_right_index";
                "mouth_aaa_index"; "breathing_index"].

(** What the drivers need of [tha3.app.util]: the named keys are in the
    index table, and poses have a value for every channel. *)
Definition table_ok : Prop :=
  (∀ key, key ∈ named_keys →
     ∃ idx, posedict_key_to_index !! key = Some idx ∧ (idx < channels)%nat) ∧
  (∀ d, (channels ≤ length (posedict_to_pose d))%nat).

(** The animation state between two ticks ([strict = false]) and inside
    a tick, once the pose is initialised and the time of the last emotion
    change is known ([strict = true]).  [n] is the number of list
    objects, [ce] the current emotion. *)
Definition animator_ok (strict : bool) (n : nat) (ce : string) (a : Animator) : Prop :=
  is_Some (source_image a) ∧
  is_Some (emotions a !! ce) ∧
  (∀ l, current_pose a = Some l → (l < n)%nat) ∧
  (∀ l, last_sway_target_pose a = Some l → (l < n)%nat) ∧
  (is_Some (sway_interval a) → is_Some (last_sway_target_timestamp a)) ∧
  (is_Some (blink_interval a) → is_Some (last_blink_timestamp a)) ∧
  (if strict
   then is_Some (last_emotion_change_timestamp a) ∧ is_Some (current_pose a)
   else is_Some (last_emotion a) ∨ is_Some (blink_interval a) →
        is_Some (last_emotion_change_timestamp a)).

Definition world_ok (strict : bool) (w : World) : Prop :=
  Forall (λ v, (channels ≤ length v)%nat) (heap w) ∧
  animation_running w = true ∧
  global_reload_image w = None ∧
  ∃ a, global_animator_instance w = Some a ∧
       animator_ok strict (length (heap w)) (current_emotion w) a.

Abbreviation well_formed := (world_ok false).
Abbreviation steady := (world_ok true).

(** [w'] comes after [w] in a tick: no list object is lost and the
    emotion is the same. *)
Definition extends (w w' : World) : Prop :=
  (length (heap w) ≤ length (heap w'))%nat ∧ current_emotion w' = current_emotion w.

Lemma extends_refl w : extends w w.
Proof. by split. Qed.

Lemma extends_trans w1 w2 w3 : extends w1 w2 → extends w2 w3 → extends w1 w3.
Proof. intros [? ?] [? ?]. split; [lia | congruence]. Qed.

Lemma animator_ok_mono strict n n' ce a :
  (n ≤ n')%nat → animator_ok strict n ce a → animator_ok strict n' ce a.
Proof.
  intros Hn (? & ? & Hpose & Hsway & ? & ? & ?).
  split; [done |]. split; [done |]. split; [| split; [| done]].
  - intros l Hl. specialize (Hpose l Hl). lia.
  - intros l Hl. specialize (Hsway l Hl). lia.
Qed.

Lemma steady_well_formed w : steady w → well_formed w.
Proof.
  intros (? & ? & ? & a & ? & ? & ? & ? & ? & ? & ? & ?).
  split; [done |]. split; [done |]. split; [done |]. exists a.
  split; [done |]. unfold animator_ok. tauto.
Qed.

Lemma world_ok_lookup strict w (l : loc) :
  world_ok strict w → (l < length (heap w))%nat →
  ∃ v, heap w !! l = Some v ∧ (channels ≤ length v)%nat.
Proof.
  intros [Hheap _] Hl. destruct (lookup_lt_is_Some_2 _ _ Hl) as [v Hv].
  exists v. split; [done |]. by eapply (Forall_lookup_1 _ _ _ _ Hheap).
Qed.

(** ** Weakest preconditions for returning *)

Definition wp {A} (m : M A) (w : World) (Q : A → World → Prop) : Prop :=
  match m w with
  | Return a w' => Q a w'
  | Raised _ _ => False
  end.

Lemma wp_Return {A} (m : M A) w Q :
  wp m w Q → ∃ a w', m w = Return a w' ∧ Q a w'.
Proof. unfold wp. destruct (m w); [eauto | done]. Qed.

Lemma wp_ret {A} (a : A) w (Q : A → World → Prop) : Q a w → wp (mret a) w Q.
Proof. done. Qed.

Lemma wp_bind {A B} (m : M A) (k : A → M B) w Q :
  wp m w (λ a w', wp (k a) w' Q) → wp (m ≫= k) w Q.
Proof. unfold wp, mbind, M_bind. by destruct (m w). Qed.

Lemma wp_mono {A} (m : M A) w (Q Q' : A → World → Prop) :
  wp m w Q → (∀ a w', Q a w' → Q' a w') → wp m w Q'.
Proof. unfold wp. destruct (m w); [eauto | done]. Qed.

Lemma wp_gets {A} (f : World → A) w Q : Q (f w) w → wp (gets f) w Q.
Proof. done. Qed.

Lemma wp_dict_get {V} (d : gmap string V) k v w Q :
  d !! k = Some v → Q v w → wp (dict_get d k) w Q.
Proof. intros Hk HQ. unfold wp. by rewrite (dict_get_Return _ _ _ _ Hk). Qed.

Lemma wp_self a w Q :
  global_animator_instance w = Some a → Q a w → wp self w Q.
Proof. intros Ha HQ. unfold wp, self. by rewrite Ha. Qed.

Lemma wp_seconds_since time_now t w Q :
  is_Some t → (∀ x, Q x w) → wp (seconds_since time_now t) w Q.
Proof. intros [t0 ->] HQ. apply HQ. Qed.

(** The steps that leave the animator alone: the state that follows is
    in order again, comes after the old one and has the same animator. *)
Definition quiet_after (strict : bool) (w : World) (Q : World → Prop) : Prop :=
  ∀ w', world_ok strict w' → extends w w' →
        global_animator_instance w' = global_animator_instance w → Q w'.

Lemma world_ok_set_clock strict c w : world_ok strict w → world_ok strict (set_clock c w).
Proof. done. Qed.

Lemma world_ok_set_rng strict g w : world_ok strict w → world_ok strict (set_rng g w).
Proof. done. Qed.

Lemma world_ok_set_log strict l w : world_ok strict w → world_ok strict (set_log l w).
Proof. done. Qed.

Lemma world_ok_push strict v w :
  world_ok strict w → (channels ≤ length v)%nat →
  world_ok strict (set_heap (heap w ++ [v]) w).
Proof.
  intros (Hheap & ? & ? & a & ? & Ha) Hv. repeat split; try done.
  - simpl. apply Forall_app. split; [done |]. by apply Forall_singleton.
  - exists a. split; [done |]. simpl. eapply animator_ok_mono; [| done].
    rewrite length_app. lia.
Qed.

Lemma world_ok_update strict l v w :
  world_ok strict w → (channels ≤ length v)%nat →
  world_ok strict (set_heap (<[l := v]> (heap w)) w).
Proof.
  intros (Hheap & ? & ? & a & ? & Ha) Hv. repeat split; try done.
  - simpl. by apply Forall_insert.
  - exists a. split; [done |]. simpl. by rewrite length_insert.
Qed.

Lemma wp_time_ns strict w Q :
  world_ok strict w → (∀ t, quiet_after strict w (Q t)) → wp time_ns w Q.
Proof. intros Hw HQ. apply HQ; [done | by split | done]. Qed.

Lemma wp_random strict w Q :
  world_ok strict w → (∀ r, quiet_after strict w (Q r)) → wp random w Q.
Proof. intros Hw HQ. apply HQ; [done | by split | done]. Qed.

Lemma wp_uniform strict a b w Q :
  world_ok strict w → (∀ r, quiet_after strict w (Q r)) → wp (uniform a b) w Q.
Proof. intros Hw HQ. apply HQ; [done | by split | done]. Qed.

Lemma wp_logger strict l msg w Q :
  world_ok strict w → quiet_after strict w (Q ()) → wp (logger l msg) w Q.
Proof. intros Hw HQ. apply HQ; [done | by split | done]. Qed.

Lemma wp_list_copy strict l w Q :
  world_ok strict w → (l < length (heap w))%nat →
  (∀ new, quiet_after strict w (λ w', (new < length (heap w'))%nat → Q new w')) →
  wp (list_copy l) w Q.
Proof.
  intros Hw Hl HQ. destruct (world_ok_lookup _ w l Hw Hl) as (v & Hv & Hlen).
  unfold wp. rewrite (list_copy_Return _ _ _ Hv). apply HQ.
  - by apply world_ok_push.
  - split; [| done]. simpl. rewrite length_app. lia.
  - done.
  - simpl. rewrite length_app. simpl. lia.
Qed.

Lemma wp_list_new strict v w Q :
  world_ok strict w → (channels ≤ length v)%nat →
  (∀ new, quiet_after strict w (λ w', (new < length (heap w'))%nat → Q new w')) →
  wp (list_new v) w Q.
Proof.
  intros Hw Hv HQ. unfold wp, list_new. apply HQ.
  - by apply world_ok_push.
  - split; [| done]. simpl. rewrite length_app. lia.
  - done.
  - simpl. rewrite length_app. simpl. lia.
Qed.

Lemma wp_list_read strict l w Q :
  world_ok strict w → (l < length (heap w))%nat → (∀ v, Q v w) →
  wp (list_read l) w Q.
Proof.
  intros Hw Hl HQ. destruct (world_ok_lookup _ w l Hw Hl) as (v & Hv & Hlen).
  unfold wp. rewrite (list_read_Return _ _ _ Hv). apply HQ.
Qed.

Lemma wp_getitem strict l i w Q :
  world_ok strict w → (l < length (heap w))%nat → (i < channels)%nat →
  (∀ x, Q x w) → wp (getitem l i) w Q.
Proof.
  intros Hw Hl Hi HQ. destruct (world_ok_lookup _ w l Hw Hl) as (v & Hv & Hlen).
  destruct (lookup_lt_is_Some_2 v i) as [x Hx]; [lia |].
  unfold wp. rewrite (getitem_Return _ _ _ _ _ Hv Hx). apply HQ.
Qed.

Lemma wp_setitem strict l i x w Q :
  world_ok strict w → (l < length (heap w))%nat → (i < channels)%nat →
  quiet_after strict w (Q ()) → wp (setitem l i x) w Q.
Proof.
  intros Hw Hl Hi HQ. destruct (world_ok_lookup _ w l Hw Hl) as (v & Hv & Hlen).
  unfold wp. rewrite (setitem_Return _ _ _ _ _ Hv) by lia. apply HQ.
  - apply world_ok_update; [done |]. rewrite length_insert. lia.
  - split; [| done]. simpl. by rewrite length_insert.
  - done.
Qed.

(** An assignment to an attribute that keeps the animation state in
    order. *)
Lemma wp_setattr strict strict' (g : Animator → Animator) a w Q :
  world_ok strict w → global_animator_instance w = Some a →
  animator_ok strict' (length (heap w)) (current_emotion w) (g a) →
  (∀ w', world_ok strict' w' → extends w w' →
         global_animator_instance w' = Some (g a) → Q () w') →
  wp (setattr g) w Q.
Proof.
  intros (Hheap & ? & ? & a' & Ha' & Hok) Ha Hg HQ.
  unfold wp, setattr. rewrite Ha. apply HQ; [| by split | done].
  repeat split; try done. by exists (g a).
Qed.

Lemma wp_for_in {A} (xs : list A) (body : A → M unit) (I : World → Prop) w :
  I w →
  (∀ x w1, x ∈ xs → I w1 → wp (body x) w1 (λ _ w2, I w2)) →
  wp (for_in xs body) w (λ _ w', I w').
Proof.
  revert w. induction xs as [| x xs IH]; intros w Hw Hbody; [done |].
  simpl. apply wp_bind. eapply wp_mono; [apply Hbody; [set_solver | done] |].
  intros u w1 Hw1. apply IH; [done |]. intros y w2 Hy. apply Hbody. set_solver.
Qed.

Lemma named_key_index key :
  table_ok → key ∈ named_keys →
  ∃ idx, posedict_key_to_index !! key = Some idx ∧ (idx < channels)%nat.
Proof. intros [Htable _]. apply Htable. Qed.

Lemma enumerate_from_bound {A} (xs : list A) n idx x :
  (idx, x) ∈ enumerate_from n xs → (idx < n + length xs)%nat.
Proof.
  revert n. induction xs as [| y xs IH]; intros n Hin; simpl in *.
  - by apply elem_of_nil in Hin.
  - apply elem_of_cons in Hin as [Heq | Hin]; [simplify_eq; lia |].
    specialize (IH _ Hin). lia.
Qed.

(** An assignment that keeps the animation state in order whatever the
    animator is. *)
Lemma wp_setattr_ok strict (g : Animator → Animator) w Q :
  world_ok strict w →
  (∀ a, animator_ok strict (length (heap w)) (current_emotion w) a →
        animator_ok strict (length (heap w)) (current_emotion w) (g a)) →
  (∀ w', world_ok strict w' → extends w w' → Q () w') →
  wp (setattr g) w Q.
Proof.
  intros Hw Hg HQ. pose proof Hw as (_ & _ & _ & a & Ha & Hok).
  apply (wp_setattr strict strict g a); [done | done | by apply Hg |]. eauto.
Qed.

(** Bounds on references and positions, from the [extends] at hand. *)
Ltac bounds :=
  unfold extends in *; destruct_and?; simpl in *;
  first [ lia | congruence | done ].

(** What a driver leaves behind: a steady state after [w] and a
    reference to a list in it. *)
Definition driver_post (w : World) (l : loc) (w' : World) : Prop :=
  steady w' ∧ extends w w' ∧ (l < length (heap w'))%nat.

Lemma wp_animate_talking (pose : loc) (w : World) :
  table_ok → steady w → (pose < length (heap w))%nat →
  wp (animate_talking pose) w (driver_post w).
Proof.
  intros Htable Hw Hpose. unfold animate_talking.
  apply wp_bind, wp_gets. destruct (negb (is_talking w)).
  { apply wp_ret. split; [done |]. split; [apply extends_refl | done]. }
  apply wp_bind, (wp_list_copy true); [done | done |].
  intros new w1 Hw1 Hext1 _ Hnew.
  destruct (named_key_index "mouth_aaa_index" Htable) as (idx & Hidx & Hlt);
    [set_solver |].
  apply wp_bind. eapply wp_dict_get; [done |].
  apply wp_bind, (wp_getitem true); [done | bounds | done |]. intros x.
  apply wp_bind, (wp_uniform true); [done |]. intros r w2 Hw2 Hext2 _.
  apply wp_bind, (wp_setitem true); [done | bounds | done |]. intros w3 Hw3 Hext3 _.
  apply wp_ret. split; [done |]. split; [| bounds].
  eauto using extends_trans.
Qed.

(** An assignment of one attribute keeps the animation state in order
    when the new value does. *)
Ltac ok_setter :=
  let Hok := fresh "Hok" in
  intros ? Hok; unfold animator_ok in *; simpl in *; destruct_and?;
  repeat split; eauto;
  try (let l := fresh "l" in let Hl := fresh "Hl" in
       intros l Hl; simplify_eq; bounds).

Lemma wp_apply_emotion_to_pose (d : gmap string R) (pose : loc) (w : World) :
  steady w → (pose < length (heap w))%nat →
  wp (apply_emotion_to_pose d pose) w (driver_post w).
Proof.
  intros Hw Hpose. unfold apply_emotion_to_pose.
  apply wp_bind, (wp_list_copy true); [done | done |].
  intros new w1 Hw1 Hext1 _ Hnew.
  apply wp_bind.
  eapply wp_mono;
    [apply (wp_for_in _ _ (λ w', steady w' ∧ extends w1 w')); [by split |] |].
  - intros [idx key] w2 Hin [Hw2 Hext2].
    apply enumerate_from_bound in Hin. simpl in Hin.
    destruct (decide _) as [[[v Hv] _] | _]; [| by apply wp_ret].
    apply wp_bind. eapply wp_dict_get; [done |].
    apply (wp_setitem true); [done | bounds | done |]. intros w3 Hw3 Hext3 _.
    eauto using extends_trans.
  - intros _ w2 [Hw2 Hext2]. apply wp_ret.
    split; [done |]. split; [eauto using extends_trans | bounds].
Qed.

Lemma wp_interpolate_pose (pose target_pose : loc) (step : R) (w : World) :
  steady w → (pose < length (heap w))%nat → (target_pose < length (heap w))%nat →
  wp (interpolate_pose pose target_pose step) w (driver_post w).
Proof.
  intros Hw Hpose Htarget. unfold interpolate_pose.
  apply wp_bind, (wp_list_copy true); [done | done |].
  intros new w1 Hw1 Hext1 _ Hnew.
  apply wp_bind.
  eapply wp_mono;
    [apply (wp_for_in _ _ (λ w', steady w' ∧ extends w1 w')); [by split |] |].
  - intros [idx key] w2 Hin [Hw2 Hext2].
    apply enumerate_from_bound in Hin. simpl in Hin.
    apply wp_bind, (wp_getitem true); [done | bounds | done |]. intros t.
    apply wp_bind, (wp_getitem true); [done | bounds | done |]. intros x.
    apply (wp_setitem true); [done | bounds | done |]. intros w3 Hw3 Hext3 _.
    eauto using extends_trans.
  - intros _ w2 [Hw2 Hext2]. apply wp_ret.
    split; [done |]. split; [eauto using extends_trans | bounds].
Qed.

Lemma wp_add_microsway (new_target_pose : loc) (w : World) :
  table_ok → steady w → (new_target_pose < length (heap w))%nat →
  wp (add_microsway new_target_pose) w (λ _ w', steady w' ∧ extends w w').
Proof.
  intros Htable Hw Hnew. unfold add_microsway.
  apply (wp_for_in _ _ (λ w', steady w' ∧ extends w w'));
    [split; [done | apply extends_refl] |].
  intros key w1 Hin [Hw1 Hext1].
  destruct (named_key_index key Htable) as (idx & Hidx & Hlt);
    [unfold named_keys; set_solver |].
  apply wp_bind. eapply wp_dict_get; [done |].
  apply wp_bind, (wp_getitem true); [done | bounds | done |]. intros v.
  apply wp_bind, (wp_uniform true); [done |]. intros r w2 Hw2 Hext2 _.
  apply (wp_setitem true); [done | bounds | done |]. intros w3 Hw3 Hext3 _.
  eauto using extends_trans.
Qed.

Lemma wp_macrosway (original_target_pose : loc) (w : World) :
  table_ok → steady w → (original_target_pose < length (heap w))%nat →
  wp (macrosway original_target_pose) w (driver_post w).
Proof.
  intros Htable Hw Horig. unfold macrosway.
  apply wp_bind, (wp_time_ns true); [done |]. intros t w1 Hw1 Hext1 _.
  pose proof Hw1 as (_ & _ & _ & a & Ha & Hok).
  apply wp_bind, (wp_self a); [done |].
  apply wp_bind, wp_gets. apply wp_bind.
  eapply wp_mono with (Q := λ _ w', w' = w1).
  { destruct (decide _); [| done].
    destruct (sway_interval a) eqn:Hinterval; [| done].
    apply wp_bind, wp_seconds_since.
    - destruct Hok as (_ & _ & _ & _ & Hts & _). apply Hts. by rewrite Hinterval.
    - intros secs. by destruct (decide _). }
  intros should ? ->. destruct (negb should).
  { destruct (last_sway_target_pose a) as [cached |] eqn:Hcached; apply wp_ret.
    - split; [done |]. split; [done |].
      destruct Hok as (_ & _ & _ & Hsway & _). by apply Hsway.
    - split; [done |]. split; [done | bounds]. }
  apply wp_bind, (wp_list_copy true); [done | bounds |].
  intros new w2 Hw2 Hext2 _ Hnew.
  apply wp_bind.
  eapply wp_mono;
    [apply (wp_for_in _ _ (λ w', steady w' ∧ extends w2 w')); [by split |] |].
  { intros key w3 Hin [Hw3 Hext3].
    destruct (named_key_index key Htable) as (idx & Hidx & Hlt);
      [unfold named_keys; set_solver |].
    apply wp_bind. eapply wp_dict_get; [done |].
    apply wp_bind, (wp_getitem true); [done | bounds | done |]. intros v.
    apply wp_bind, (wp_uniform true); [done |]. intros r w4 Hw4 Hext4 _.
    apply (wp_setitem true); [done | bounds | done |]. intros w5 Hw5 Hext5 _.
    eauto using extends_trans. }
  intros _ w3 [Hw3 Hext3].
  apply wp_bind, (wp_setattr_ok true); [done | ok_setter |]. intros w4 Hw4 Hext4.
  pose proof Hw4 as (_ & _ & _ & a4 & Ha4 & Hok4).
  apply wp_bind, (wp_setattr true true _ a4); [done | done | |].
  { revert Hok4. generalize a4. ok_setter. }
  intros w5 Hw5 Hext5 Ha5.
  apply wp_bind, (wp_uniform true); [done |]. intros r w6 Hw6 Hext6 Ha6.
  pose proof Hw5 as (_ & _ & _ & a5 & Ha5' & Hok5).
  apply wp_bind, (wp_setattr true true _ (set_last_sway_target_timestamp (Some t) a4));
    [done | congruence | |].
  { rewrite Ha5 in Ha5'. injection Ha5' as <-.
    eapply animator_ok_mono in Hok5; [| destruct Hext6; eassumption].
    destruct Hext6 as [_ ->].
    unfold animator_ok in *. simpl in *. destruct_and?. repeat split; eauto. }
  intros w7 Hw7 Hext7 _. apply wp_ret.
  split; [done |]. split; [| bounds].
  repeat (eapply extends_trans; [eassumption |]). apply extends_refl.
Qed.

Lemma wp_compute_sway_target_pose (original_target_pose : loc) (w : World) :
  table_ok → steady w → (original_target_pose < length (heap w))%nat →
  wp (compute_sway_target_pose original_target_pose) w (driver_post w).
Proof.
  intros Htable Hw Horig. unfold compute_sway_target_pose.
  apply wp_bind. eapply wp_mono; [by apply wp_macrosway |].
  intros l w1 (Hw1 & Hext1 & Hl).
  apply wp_bind. eapply wp_mono; [by apply wp_add_microsway |].
  intros _ w2 [Hw2 Hext2]. apply wp_ret.
  split; [done |]. split; [eauto using extends_trans | bounds].
Qed.

Lemma wp_animate_blinking (pose : loc) (w : World) :
  table_ok → steady w → (pose < length (heap w))%nat →
  wp (animate_blinking pose) w (driver_post w).
Proof.
  intros Htable Hw Hpose. unfold animate_blinking.
  apply wp_bind, (wp_random true); [done |]. intros r w1 Hw1 Hext1 _.
  apply wp_bind, (wp_time_ns true); [done |]. intros t w2 Hw2 Hext2 _.
  pose proof Hw2 as (_ & _ & _ & a & Ha & Hok).
  apply wp_bind, (wp_self a); [done |]. apply wp_bind.
  eapply wp_mono with (Q := λ _ w', w' = w2).
  { destruct (blink_interval a) eqn:Hinterval; [| done].
    destruct Hok as (_ & _ & _ & _ & _ & Hblink & Hchange & _).
    apply wp_bind, wp_seconds_since; [done |]. intros secs.
    apply wp_bind, wp_gets. destruct (decide _); [done |].
    apply wp_bind, wp_seconds_since; [apply Hblink; by rewrite Hinterval |].
    intros secs'. by destruct (decide _). }
  intros should ? ->. destruct (negb should).
  { apply wp_ret. split; [done |]. split; [eauto using extends_trans | bounds]. }
  apply wp_bind, (wp_list_copy true); [done | bounds |].
  intros new w3 Hw3 Hext3 _ Hnew.
  apply wp_bind.
  eapply wp_mono;
    [apply (wp_for_in _ _ (λ w', steady w' ∧ extends w3 w')); [by split |] |].
  { intros key w4 Hin [Hw4 Hext4].
    destruct (named_key_index key Htable) as (idx & Hidx & Hlt);
      [unfold named_keys; set_solver |].
    apply wp_bind. eapply wp_dict_get; [done |].
    apply (wp_setitem true); [done | bounds | done |]. intros w5 Hw5 Hext5 _.
    eauto using extends_trans. }
  intros _ w4 [Hw4 Hext4].
  pose proof Hw4 as (_ & _ & _ & a4 & Ha4 & Hok4).
  apply wp_bind, (wp_setattr true true _ a4); [done | done | |].
  { revert Hok4. generalize a4. ok_setter. }
  intros w5 Hw5 Hext5 Ha5.
  apply wp_bind, (wp_uniform true); [done |]. intros r' w6 Hw6 Hext6 Ha6.
  pose proof Hw5 as (_ & _ & _ & a5 & Ha5' & Hok5).
  apply wp_bind, (wp_setattr true true _ (set_last_blink_timestamp (Some t) a4));
    [done | congruence | |].
  { rewrite Ha5 in Ha5'. injection Ha5' as <-.
    eapply animator_ok_mono in Hok5; [| destruct Hext6; eassumption].
    destruct Hext6 as [_ ->].
    unfold animator_ok in *. simpl in *. destruct_and?. repeat split; eauto. }
  intros w7 Hw7 Hext7 _. apply wp_ret.
  split; [done |]. split; [| bounds].
  repeat (eapply extends_trans; [eassumption |]). apply extends_refl.
Qed.

Lemma wp_animate_breathing (pose : loc) (w : World) :
  table_ok → steady w → (pose < length (heap w))%nat →
  wp (animate_breathing pose) w (driver_post w).
Proof.
  intros Htable Hw Hpose. unfold animate_breathing.
  apply wp_bind, (wp_time_ns true); [done |]. intros t w1 Hw1 Hext1 _.
  pose proof Hw1 as (_ & _ & _ & a & Ha & Hok).
  apply wp_bind, (wp_self a); [done |]. cbv zeta.
  apply wp_bind.
  eapply wp_mono with (Q := λ _ w', steady w' ∧ extends w1 w').
  { destruct (decide _); [| by apply wp_ret].
    apply (wp_setattr_ok true); [done | ok_setter |]. eauto. }
  intros _ w2 [Hw2 Hext2].
  apply wp_bind, (wp_list_copy true); [done | bounds |].
  intros new w3 Hw3 Hext3 _ Hnew.
  destruct (named_key_index "breathing_index" Htable) as (idx & Hidx & Hlt);
    [unfold named_keys; set_solver |].
  apply wp_bind. eapply wp_dict_get; [done |].
  apply wp_bind, (wp_setitem true); [done | bounds | done |]. intros w4 Hw4 Hext4 _.
  apply wp_ret. split; [done |]. split; [| bounds].
  repeat (eapply extends_trans; [eassumption |]). apply extends_refl.
Qed.

Lemma well_formed_steady (w : World) (a : Animator) :
  well_formed w → global_animator_instance w = Some a →
  is_Some (last_emotion_change_timestamp a) → is_Some (current_pose a) →
  steady w.
Proof.
  intros (? & ? & ? & a' & Ha' & Hok) Ha Hchange Hpose.
  rewrite Ha in Ha'. injection Ha' as <-.
  repeat split; try done. exists a. split; [done |].
  unfold animator_ok in *. destruct_and?. repeat split; eauto.
Qed.

Lemma wp_get_current_pose (w : World) :
  steady w → wp get_current_pose w (λ l w', w' = w ∧ (l < length (heap w))%nat).
Proof.
  intros (_ & _ & _ & a & Ha & Hok). unfold get_current_pose.
  apply wp_bind, (wp_self a); [done |].
  destruct Hok as (_ & _ & Hpose & _ & _ & _ & _ & [l Hl]).
  rewrite Hl. apply wp_ret. split; [done |]. by apply Hpose.
Qed.

(** Lines 597-613 and what follows up to the rendered frame, from the
    point where the animation state is steady. *)
Lemma wp_render_body (w : World) (source : tensor) (emotion_posedict : gmap string R)
    (time_render_start : Z) :
  table_ok → steady w →
  wp (pose ← get_current_pose;
      target_pose ← apply_emotion_to_pose emotion_posedict pose;
      target_pose ← compute_sway_target_pose target_pose;
      pose ← get_current_pose;
      pose ← interpolate_pose pose target_pose 0.1;
      setattr (set_current_pose (Some pose));;
      pose ← animate_blinking pose;
      setattr (set_current_pose (Some pose));;
      pose ← animate_talking pose;
      setattr (set_current_pose (Some pose));;
      pose ← animate_breathing pose;
      setattr (set_current_pose (Some pose));;
      ce ← gets current_emotion;
      setattr (set_last_emotion (Some ce));;
      channels ← list_read pose;
      let output_image_numpy := pose_image source channels in
      time_now ← time_ns;
      a ← self;
      (if source_image a is Some _
       then let render_elapsed_sec := IZR (time_now - time_render_start) / 10 ^ 9 in
            setattr (set_render_duration_statistics
                       (render_duration_statistics a ++ [render_elapsed_sec]))
       else mret ());;
      mret (Some (output_image_numpy, time_now)))
     w (λ o w', is_Some o ∧ steady w').
Proof.
  intros Htable Hw.
  apply wp_bind. eapply wp_mono; [by apply wp_get_current_pose |].
  intros pose ? [-> Hpose].
  apply wp_bind. eapply wp_mono; [by apply wp_apply_emotion_to_pose |].
  intros target w1 (Hw1 & Hext1 & Htarget).
  apply wp_bind. eapply wp_mono; [by apply wp_compute_sway_target_pose |].
  intros target' w2 (Hw2 & Hext2 & Htarget').
  apply wp_bind. eapply wp_mono; [by apply wp_get_current_pose |].
  intros pose' ? [-> Hpose'].
  apply wp_bind. eapply wp_mono; [by apply wp_interpolate_pose |].
  intros p3 w3 (Hw3 & Hext3 & Hp3).
  apply wp_bind, (wp_setattr_ok true); [done | ok_setter |]. intros w4 Hw4 Hext4.
  apply wp_bind. eapply wp_mono; [apply wp_animate_blinking; [done | done | bounds] |].
  intros p5 w5 (Hw5 & Hext5 & Hp5).
  apply wp_bind, (wp_setattr_ok true); [done | ok_setter |]. intros w6 Hw6 Hext6.
  apply wp_bind. eapply wp_mono; [apply wp_animate_talking; [done | done | bounds] |].
  intros p7 w7 (Hw7 & Hext7 & Hp7).
  apply wp_bind, (wp_setattr_ok true); [done | ok_setter |]. intros w8 Hw8 Hext8.
  apply wp_bind. eapply wp_mono; [apply wp_animate_breathing; [done | done | bounds] |].
  intros p9 w9 (Hw9 & Hext9 & Hp9).
  apply wp_bind, (wp_setattr_ok true); [done | ok_setter |]. intros w10 Hw10 Hext10.
  apply wp_bind, wp_gets.
  apply wp_bind, (wp_setattr_ok true); [done | ok_setter |]. intros w11 Hw11 Hext11.
  apply wp_bind, (wp_list_read true); [done | bounds |]. intros v. cbv zeta.
  apply wp_bind, (wp_time_ns true); [done |]. intros t w12 Hw12 Hext12 _.
  pose proof Hw12 as (_ & _ & _ & a & Ha & Hok).
  apply wp_bind, (wp_self a); [done |]. apply wp_bind.
  eapply wp_mono with (Q := λ _ w', steady w').
  { destruct (source_image a); [| by apply wp_ret].
    apply (wp_setattr_ok true); [done | ok_setter |]. eauto. }
  intros _ w13 Hw13. apply wp_ret. split; [by eexists | done].
Qed.

(** On a well-formed state with a free slot, [render_frame] returns a
    rendered frame and leaves a steady state. *)
Theorem render_frame_progress (w : World) (a : Animator) :
  table_ok → well_formed w →
  global_animator_instance w = Some a → new_frame_available a = false →
  ∃ x w', render_frame w = Return (Some x) w' ∧ steady w'.
Proof.
  intros Htable Hw Ha Hflag.
  cut (wp render_frame w (λ o w', is_Some o ∧ steady w')).
  { intros Hwp. apply wp_Return in Hwp as (o & w' & Hrun & [x ->] & Hw'). eauto. }
  pose proof Hw as (_ & Hrunning & Hreload & a' & Ha' & Hok).
  rewrite Ha in Ha'. injection Ha' as <-.
  pose proof Htable as [_ Hposes].
  unfold render_frame.
  apply wp_bind, wp_gets. rewrite Hrunning. simpl.
  apply wp_bind, (wp_self a); [done |]. rewrite Hflag.
  apply wp_bind, wp_gets. rewrite Hreload.
  apply wp_bind, wp_ret.
  apply wp_bind, (wp_self a); [done |].
  destruct Hok as ([source Hsource] & [d Hd] & Hpose & Hsway & Hts & Hblink & Hchange).
  rewrite Hsource.
  apply wp_bind, (wp_time_ns false); [done |]. intros t w1 Hw1 Hext1 Ha1.
  rewrite Ha in Ha1.
  (* the pose is there, or is made from the preset *)
  apply wp_bind.
  eapply wp_mono with
    (Q := λ _ w', well_formed w' ∧ extends w w' ∧
                  ∃ a', global_animator_instance w' = Some a' ∧
                        is_Some (current_pose a') ∧
                        last_emotion a' = last_emotion a ∧
                        blink_interval a' = blink_interval a ∧
                        last_emotion_change_timestamp a'
                        = last_emotion_change_timestamp a).
  { destruct (current_pose a) as [l |] eqn:Hcurrent.
    - apply wp_ret. split; [done |]. split; [done |]. exists a.
      rewrite Hcurrent. eauto.
    - apply wp_bind, wp_gets. apply wp_bind. eapply wp_dict_get.
      { destruct Hext1 as [_ ->]. done. }
      apply wp_bind, (wp_list_new false); [done | apply Hposes |].
      intros new w2 Hw2 Hext2 Ha2 Hnew. rewrite Ha1 in Ha2.
      apply (wp_setattr false false _ a); [done | done | |].
      + pose proof Hw2 as (_ & _ & _ & a2 & Ha2' & Hok2).
        rewrite Ha2 in Ha2'. injection Ha2' as <-.
        revert Hok2. generalize a. ok_setter.
      + intros w3 Hw3 Hext3 Ha3. split; [done |].
        split; [eauto using extends_trans |]. eexists. split; [done |].
        simpl. eauto. }
  intros _ w2 (Hw2 & Hext2 & a2 & Ha2 & Hpose2 & Hlast2 & Hblink2 & Hchange2).
  apply wp_bind, wp_gets. apply wp_bind. eapply wp_dict_get.
  { destruct Hext2 as [_ ->]. done. }
  apply wp_bind, wp_gets. apply wp_bind.
  eapply wp_mono with (Q := λ _ w', steady w').
  { destruct (decide _) as [Hchanged | Hsame].
    - apply (wp_setattr false true _ a2); [done | done | | done].
      pose proof Hw2 as (_ & _ & _ & a2' & Ha2' & Hok2).
      rewrite Ha2 in Ha2'. injection Ha2' as <-.
      unfold animator_ok in *. simpl in *. destruct_and?. repeat split; eauto.
    - apply wp_ret. apply (well_formed_steady _ a2); [done | done | | done].
      rewrite Hchange2. apply Hchange. left.
      destruct (last_emotion a) as [e |]; [by eexists |].
      destruct Hsame. done. }
  intros _ w3 Hw3. by apply wp_render_body.
Qed.

(** The hand-over and the consumption keep the state steady. *)
Lemma publish_frame_steady (w : World) (img : ndarray) (t : Z) :
  steady w →
  ∃ w' a', publish_frame img t w = Return () w' ∧ steady w' ∧
           global_animator_instance w' = Some a' ∧
           new_frame_available a' = true ∧ result_image a' = Some img.
Proof.
  intros Hw.
  cut (wp (publish_frame img t) w
         (λ _ w', steady w' ∧ ∃ a', global_animator_instance w' = Some a' ∧
                   new_frame_available a' = true ∧ result_image a' = Some img)).
  { intros Hwp. apply wp_Return in Hwp as ([] & w' & Hrun & Hw' & a' & Hrest).
    eauto 10. }
  pose proof Hw as (_ & _ & _ & a & Ha & Hok). unfold publish_frame.
  apply wp_bind, (wp_setattr true true _ a); [done | done | |].
  { revert Hok. generalize a. ok_setter. }
  intros w1 Hw1 Hext1 Ha1.
  apply wp_bind, (wp_setattr true true _ (set_result_image (Some img) a));
    [done | done | |].
  { pose proof Hw1 as (_ & _ & _ & a1 & Ha1' & Hok1).
    rewrite Ha1 in Ha1'. injection Ha1' as <-.
    revert Hok1. generalize (set_result_image (Some img) a). ok_setter. }
  intros w2 Hw2 Hext2 Ha2.
  apply wp_bind, wp_gets.
  set (a2 := set_new_frame_available true (set_result_image (Some img) a)) in *.
  apply wp_bind, (wp_self a2); [done |].
  destruct (animation_running w2 && _).
  - apply wp_bind, (wp_logger true); [done |]. intros w3 Hw3 Hext3 Ha3.
    rewrite Ha2 in Ha3.
    apply (wp_setattr true true _ a2); [done | done | |].
    + pose proof Hw3 as (_ & _ & _ & a3 & Ha3' & Hok3).
      rewrite Ha3 in Ha3'. injection Ha3' as <-.
      revert Hok3. generalize a2. ok_setter.
    + intros w4 Hw4 Hext4 Ha4. split; [done |]. eexists. split; [done |]. done.
  - apply wp_ret. split; [done |]. eexists. split; [done |]. done.
Qed.

Lemma consume_frame_steady (w : World) :
  steady w →
  ∃ w' a', consume_frame w = Return () w' ∧ steady w' ∧
           global_animator_instance w' = Some a' ∧ new_frame_available a' = false.
Proof.
  intros Hw. pose proof Hw as (_ & _ & _ & a & Ha & Hok).
  cut (wp consume_frame w
         (λ _ w', steady w' ∧ ∃ a', global_animator_instance w' = Some a' ∧
                   new_frame_available a' = false)).
  { intros Hwp. apply wp_Return in Hwp as ([] & w' & Hrun & Hw' & a' & Hrest).
    eauto 10. }
  unfold consume_frame.
  apply (wp_setattr true true _ a); [done | done | |].
  { revert Hok. generalize a. ok_setter. }
  intros w1 Hw1 Hext1 Ha1. split; [done |]. eexists. split; [done |]. done.
Qed.

End RenderProgress.

Abbreviation well_formed := (world_ok false).
Abbreviation steady := (world_ok true).

(** * Frames through the pipeline *)

Section PipelineProgress.
Context `{Collaborators}.

(** From a well-formed state with a free slot, the animator renders a
    frame and hands it over. *)
Lemma animator_delivers (s0 : System) (past : list (System * action)) (s : System)
    (a : Animator) :
  table_ok → execution s0 past s →
  animator_thread s = AnimatorIdle → animator_terminated s = false →
  well_formed (world s) →
  global_animator_instance (world s) = Some a → new_frame_available a = false →
  ∃ img t w1 w2 a2,
    let s1 := set_animator_thread (AnimatorRendered img t) (set_world w1 s) in
    let s2 := set_animator_thread AnimatorIdle (set_world w2 s1) in
    execution s0 ((s, AnimatorRender) :: past) s1 ∧
    step s1 (AnimatorPublish img) s2 ∧
    steady w2 ∧ global_animator_instance w2 = Some a2 ∧
    new_frame_available a2 = true ∧ result_image a2 = Some img.
Proof.
  intros Htable Hexec Hidle Hterm Hw Ha Hflag.
  destruct (render_frame_progress _ a Htable Hw Ha Hflag) as ([img t] & w1 & Hrun & Hw1).
  destruct (publish_frame_steady w1 img t Hw1) as (w2 & a2 & Hpub & Hw2 & Ha2 & Hrest).
  exists img, t, w1, w2, a2. simpl. split; [| split; [| done]].
  - apply execution_step; [done |]. by apply step_animator_render.
  - by apply (step_animator_publish _ img t).
Qed.

(** The encoder takes a frame that is there. *)
Lemma encoder_takes (s : System) (a : Animator) (image_rgba : ndarray) :
  encoder_thread s = EncoderIdle → encoder_terminated s = false →
  steady (world s) →
  global_animator_instance (world s) = Some a →
  new_frame_available a = true → result_image a = Some image_rgba →
  ∃ w' a',
    let new_frame := {| frame_id := next_id s; frame_bytes := encode_png image_rgba |} in
    step s (EncoderTake new_frame)
      (set_encoder_thread
         (match image_bytes s with
          | Some previous_frame => EncoderWaiting new_frame previous_frame
          | None => EncoderReady new_frame
          end)
         (set_next_id (S (next_id s)) (set_world w' s))) ∧
    steady w' ∧ global_animator_instance w' = Some a' ∧
    new_frame_available a' = false.
Proof.
  intros Hidle Hterm Hw Ha Hflag Himage.
  destruct (consume_frame_steady _ Hw) as (w' & a' & Hrun & Hw' & Ha' & Hflag').
  exists w', a'. split; [| done]. by eapply step_encoder_take.
Qed.

End PipelineProgress.

(** * Runs on concrete states *)

Section Runs.

(** Same emotion as at the last tick, a sway target cached at time 0 for
    5 seconds: the list at reference 0. *)
Definition holding_animator : @Animator demo :=
  set_last_emotion (Some "neutral")
    (set_sway_interval (Some 5)
       (set_last_sway_target_timestamp (Some 0%Z)
          (set_last_sway_target_pose (Some 0%nat) demo_animator))).

(** C1, at a base target outside the bound: with head_x at 0.9 in the
    emotion target and [random.random()] giving 0.9, [macrosway] picks a
    new sway target (the new list, reference 1) whose head_x is
    0.9 + uniform(-1.5, 0) = 0.75, above [random_max] = 0.6. *)
Theorem macrosway_exceeds_random_max :
  let w := demo_world [<[3%nat := 0.9]> rest_pose] (λ _, 0%Z) (λ _, 0.9) demo_animator in
  @posedict_key_to_index demo !! "head_x_index" = Some 3%nat ∧
  returned (@macrosway demo 0%nat w) = Some 1%nat ∧
  channel (final (@macrosway demo 0%nat w)) 1%nat 3%nat = Some (swayed 0.9 0.9) ∧
  swayed 0.9 0.9 = 0.75 ∧
  random_max < swayed 0.9 0.9.
Proof.
  assert (Hv : swayed 0.9 0.9 = 0.75).
  { unfold swayed, random_max. case_minmax; lra. }
  cbv zeta. split; [vm_compute; reflexivity |].
  split; [vm_compute; reflexivity |].
  split; [vm_compute; reflexivity |].
  split; [exact Hv |].
  rewrite Hv. unfold random_max. lra.
Qed.

(** C2, within the hold interval: one second after a sway target was
    cached for five seconds, with the emotion unchanged, two calls in a
    row both return the cached list (reference 0) and pick no new target,
    yet head_x of the cached list goes from 0 to 0.01 to 0.02: the jitter
    is written into the cache and adds up. *)
Theorem compute_sway_target_pose_drifts :
  let w0 := demo_world [rest_pose; rest_pose] (λ _, 10 ^ 9)%Z (λ _, 0.75)
                       holding_animator in
  let w1 := final (@compute_sway_target_pose demo 1%nat w0) in
  let w2 := final (@compute_sway_target_pose demo 1%nat w1) in
  returned (@compute_sway_target_pose demo 1%nat w0) = Some 0%nat ∧
  returned (@compute_sway_target_pose demo 1%nat w1) = Some 0%nat ∧
  global_animator_instance w2 = Some holding_animator ∧
  channel w0 0%nat 3%nat = Some 0 ∧
  channel w1 0%nat 3%nat = Some (jittered 0 0.75) ∧
  channel w2 0%nat 3%nat = Some (jittered (jittered 0 0.75) 0.75) ∧
  jittered 0 0.75 = 0.01 ∧
  jittered (jittered 0 0.75) 0.75 = 0.02.
Proof.
  assert (Hj1 : jittered 0 0.75 = 0.01).
  { unfold jittered, noise_max. case_minmax; lra. }
  assert (Hj2 : jittered 0.01 0.75 = 0.02).
  { unfold jittered, noise_max. case_minmax; lra. }
  intros w0.
  assert (Hrun1 : @compute_sway_target_pose demo 1%nat w0
                  = (add_microsway 0%nat;; mret 0%nat)
                      (set_clock (λ n, clock w0 (S n)) w0)).
  { apply compute_sway_target_pose_cached with
      (a := holding_animator) (interval := 5) (t0 := 0%Z); try reflexivity.
    change (clock w0 0%nat - 0)%Z with 1000000000%Z. lra. }
  rewrite Hrun1. intros w1.
  assert (Hclock : clock w1 0%nat = 1000000000%Z) by (vm_compute; reflexivity).
  assert (Hrun2 : @compute_sway_target_pose demo 1%nat w1
                  = (add_microsway 0%nat;; mret 0%nat)
                      (set_clock (λ n, clock w1 (S n)) w1)).
  { apply compute_sway_target_pose_cached with
      (a := holding_animator) (interval := 5) (t0 := 0%Z);
      try (vm_compute; reflexivity).
    rewrite Hclock. change (1000000000 - 0)%Z with 1000000000%Z. lra. }
  rewrite Hrun2. cbv zeta.
  split; [vm_compute; reflexivity |].
  split; [vm_compute; reflexivity |].
  split; [vm_compute; reflexivity |].
  split; [vm_compute; reflexivity |].
  split; [vm_compute; reflexivity |].
  split; [vm_compute; reflexivity |].
  split; [exact Hj1 |]. by rewrite Hj1.
Qed.

(** A clock that reads 6 s at the first call and 6.01 s at every later
    one. *)
Definition breathing_clock (n : nat) : Z :=
  match n with
  | O => 6000000000
  | S _ => 6010000000
  end.

Lemma breathing_value_peak : breathing_value (3 / 2) = 1.
Proof.
  unfold breathing_value, py_int. rewrite decide_True by lra.
  rewrite <- (Int_part_spec (3 / 2) 1) by (split; simpl; lra).
  replace ((3 / 2 - 1) * PI) with (PI / 2) by lra.
  rewrite sin_PI2. lra.
Qed.

Lemma breathing_value_start : breathing_value (1 / 400) <= 1 / 10000.
Proof.
  unfold breathing_value, py_int. rewrite decide_True by lra.
  rewrite <- (Int_part_spec (1 / 400) 0) by (split; simpl; lra).
  replace ((1 / 400 - 0) * PI) with (PI / 400) by lra.
  pose proof PI_RGT_0 as Hpos. pose proof PI_4 as Hle.
  assert (Hlt : sin (PI / 400) < PI / 400) by (apply sin_lt_x; lra).
  assert (Hge : 0 <= sin (PI / 400)) by (apply sin_ge_0; lra).
  nra.
Qed.

(** C5, across an epoch reset: a call 6 s after the epoch is at cycle
    position 1.5, writes sin(pi / 2)^2 = 1 to the breathing channel and
    moves the epoch to now; the next call, 10 ms later, is at cycle
    position 1/400 and writes at most 0.0001.  The phase drops from 0.5
    to 0.0025 within 10 ms. *)
Theorem animate_breathing_jumps_after_reset :
  let w0 := demo_world [rest_pose] breathing_clock (λ _, 0) demo_animator in
  let w1 := final (@animate_breathing demo 0%nat w0) in
  let w2 := final (@animate_breathing demo 1%nat w1) in
  @posedict_key_to_index demo !! "breathing_index" = Some 8%nat ∧
  returned (@animate_breathing demo 0%nat w0) = Some 1%nat ∧
  channel w1 1%nat 8%nat = Some (breathing_value (3 / 2)) ∧
  breathing_value (3 / 2) = 1 ∧
  breathing_epoch <$> global_animator_instance w1 = Some 6000000000%Z ∧
  returned (@animate_breathing demo 1%nat w1) = Some 2%nat ∧
  channel w2 2%nat 8%nat = Some (breathing_value (1 / 400)) ∧
  breathing_value (1 / 400) <= 1 / 10000.
Proof.
  intros w0.
  assert (Hrun1 := animate_breathing_Return (H := demo) w0 demo_animator 0%nat
                     rest_pose 8%nat (3 / 2) eq_refl eq_refl eq_refl).
  rewrite Hrun1; [| simpl; lia |].
  2: { unfold breathing_cycle_pos, breathing_cycle_duration.
       change (clock w0 0%nat - breathing_epoch demo_animator)%Z with 6000000000%Z.
       lra. }
  rewrite decide_True by lra. intros w1.
  assert (Hrun2 := animate_breathing_Return (H := demo) w1
                     (set_breathing_epoch 6000000000%Z demo_animator) 1%nat
                     (<[8%nat := breathing_value (3 / 2)]> rest_pose) 8%nat (1 / 400)
                     eq_refl eq_refl eq_refl).
  rewrite Hrun2; [| simpl; lia |].
  2: { unfold breathing_cycle_pos, breathing_cycle_duration.
       change (clock w1 0%nat - _)%Z with 10000000%Z.
       lra. }
  rewrite decide_False by lra. cbv zeta.
  split; [vm_compute; reflexivity |].
  split; [reflexivity |].
  split; [reflexivity |].
  split; [apply breathing_value_peak |].
  split; [reflexivity |].
  split; [reflexivity |].
  split; [reflexivity |].
  apply breathing_value_start.
Qed.

(** A pose to move toward, and a state holding the rest pose (reference
    0) and that pose (reference 1). *)
Definition leaning_pose : list R := [0; 0; 1; 0.5; 0; 0; 0; 0; 0].

Definition two_poses : @World demo :=
  demo_world [rest_pose; leaning_pose] (λ _, 0%Z) (λ _, 0.5) demo_animator.

(** C6, as the code has it, on the rest pose and [leaning_pose]: one
    step on binary64 numbers with the default step, and with exact
    arithmetic the third step with step 0.1. *)
Lemma interpolate_pose_rounded_and_exact_witness :
  (∃ next,
     @Binary64.interpolate_pose demo
       [0; 0; 0; 0; 0; 0; 0; 0; 0]%float [0; 0; 1; 0.5; 0; 0; 0; 0; 0]%float
       Binary64.default_step
     = inr next ∧
     next !! 2%nat = Some (0 + Binary64.default_step * (1 - 0))%float ∧
     next !! 3%nat = Some (0 + Binary64.default_step * (0.5 - 0))%float) ∧
  ∃ l w1 x y,
    @integrate demo 2 0%nat 1%nat 0.1 two_poses = Return l w1 ∧
    heap w1 !! l = Some x ∧
    @interpolate_pose demo l 1%nat 0.1 w1
    = Return (length (heap w1)) (set_heap (heap w1 ++ [y]) w1) ∧
    ∀ idx c t, (idx < length (@posedict_keys demo))%nat →
      rest_pose !! idx = Some c → leaning_pose !! idx = Some t →
      ∃ xi yi,
        x !! idx = Some xi ∧ y !! idx = Some yi ∧
        xi = t + (1 - 0.1) ^ 2 * (c - t) ∧
        yi = xi + 0.1 * (t - xi) ∧
        (xi ≠ t → Rabs (yi - t) < Rabs (xi - t)) ∧
        (xi = t → yi = t).
Proof.
  destruct (interpolate_pose_rounded_and_exact (H := demo)) as [Hrounded Hexact].
  split.
  - destruct (Hrounded [0; 0; 0; 0; 0; 0; 0; 0; 0]%float
                [0; 0; 1; 0.5; 0; 0; 0; 0; 0]%float Binary64.default_step)
      as (next & Hrun & _ & Hin & _); [simpl; lia | simpl; lia |].
    exists next. split; [exact Hrun |].
    split; apply Hin; try reflexivity; simpl; lia.
  - apply (Hexact two_poses 0%nat 1%nat rest_pose leaning_pose 0.1 2%nat eq_refl eq_refl).
    + simpl. lia.
    + simpl. lia.
    + lra.
Defined.

(** C6 as it is stated fails on the code.  From the pose with every
    channel at 0 toward the target with every channel at 1, with the
    default step, 333 integration steps on binary64 numbers lead to
    0.9999999999999996 in every channel, and there the next step
    returns the same numbers: no channel is at the target, and none gets
    closer. *)
Lemma interpolate_pose_stalls :
  let pose := [0; 0; 0; 0; 0; 0; 0; 0; 0]%float in
  let target_pose := [1; 1; 1; 1; 1; 1; 1; 1; 1]%float in
  ∃ cur next,
    @Binary64.integrate demo 333 pose target_pose Binary64.default_step = inr cur ∧
    @Binary64.interpolate_pose demo cur target_pose Binary64.default_step = inr next ∧
    ∀ idx, (idx < length (@posedict_keys demo))%nat →
      ∃ c y t,
        cur !! idx = Some c ∧ next !! idx = Some y ∧ target_pose !! idx = Some t ∧
        c = 0x1.ffffffffffffcp-1%float ∧
        PrimFloat.eqb c t = false ∧
        y = c ∧
        PrimFloat.ltb (PrimFloat.abs (y - t)) (PrimFloat.abs (c - t)) = false.
Proof.
  set (stalled := 0x1.ffffffffffffcp-1%float).
  exists (replicate 9 stalled), (replicate 9 stalled).
  split; [by vm_compute |]. split; [by vm_compute |].
  intros idx Hidx. exists stalled, stalled, 1%float.
  do 9 (destruct idx as [| idx]; [by vm_compute |]).
  simpl in Hidx. lia.
Qed.

(** C7 on the rest pose and the preset "joy", which sets head_x and
    names the breathing channel. *)
Lemma apply_emotion_to_pose_spec_witness :
  let joy : gmap string R := <["head_x_index" := 0.9]> (<["breathing_index" := 1]> ∅) in
  ∃ v',
    @apply_emotion_to_pose demo joy 0%nat two_poses
    = Return (length (heap two_poses)) (set_heap (heap two_poses ++ [v']) two_poses) ∧
    length v' = length rest_pose ∧
    (∀ idx key x, @posedict_keys demo !! idx = Some key → rest_pose !! idx = Some x →
       v' !! idx = Some (overlaid joy key x)) ∧
    (∀ idx, (length (@posedict_keys demo) ≤ idx)%nat → v' !! idx = rest_pose !! idx) ∧
    (heap two_poses ++ [v']) !! 0%nat = Some rest_pose ∧
    (∀ l u, heap two_poses !! l = Some u → (heap two_poses ++ [v']) !! l = Some u).
Proof.
  intros joy.
  apply (apply_emotion_to_pose_spec (H := demo) two_poses joy 0%nat rest_pose eq_refl).
  simpl. lia.
Defined.

(** C8 on the rest pose, while talking, with [random.random()] giving
    0.5: the mouth-open channel is at position 2. *)
Lemma animate_talking_spec_witness :
  let u := -2 + (2 - -2) * rng two_poses 0%nat in
  let x' := Rmax 0 (Rmin (Rabs (1 - 0) + u) 1) in
    -2 <= u <= 2 ∧
    0 <= x' <= 1 ∧
    @animate_talking demo 0%nat two_poses
    = Return (length (heap two_poses))
        (set_heap (heap two_poses ++ [<[2%nat := x']> rest_pose])
           (set_rng (λ n, rng two_poses (S n)) two_poses)) ∧
    (heap two_poses ++ [<[2%nat := x']> rest_pose]) !! 0%nat = Some rest_pose ∧
    ∀ i, i ≠ 2%nat → <[2%nat := x']> rest_pose !! i = rest_pose !! i.
Proof.
  apply (animate_talking_spec (H := demo) two_poses 0%nat rest_pose 2%nat 0
           eq_refl eq_refl eq_refl).
  simpl. lra.
Defined.

(** C9 on a classifier result whose best label, "joyyy", is no preset. *)
Lemma setEmotion_spec_witness :
  let _emotion := [Item "joy" 0.2; Item "joyyy" 0.7; Item "neutral" 0.1] in
  ∃ it, it ∈ _emotion ∧ (∀ it', it' ∈ _emotion → score it' <= score it) ∧
    if decide (is_Some (emotions demo_animator !! label it))
    then
      @setEmotion demo _emotion two_poses
      = Return ("emotion set to " +:+ label it)
          (set_current_emotion (label it)
             (set_log
                (log two_poses
                 ++ [LogRecord INFO ("setEmotion: applying emotion " +:+ label it)])
                two_poses))
    else
      @setEmotion demo _emotion two_poses
      = Return "emotion set to neutral"
          (set_current_emotion "neutral"
             (set_log
                ((log two_poses
                  ++ [LogRecord WARNING
                        ("setEmotion: emotion '" +:+ label it
                         +:+ "' does not exist, setting to 'neutral'")])
                 ++ [LogRecord INFO "setEmotion: applying emotion neutral"])
                two_poses)).
Proof.
  intros _emotion.
  by apply (setEmotion_spec (H := demo) two_poses demo_animator _emotion eq_refl).
Defined.

(** C10 on the same state. *)
Lemma setEmotion_empty_witness :
  (highest []).2 = None ∧
  @setEmotion demo [] two_poses
  = Return "emotion set to neutral"
      (set_current_emotion "neutral"
         (set_log
            ((log two_poses
              ++ [LogRecord WARNING
                    "setEmotion: emotion 'None' does not exist, setting to 'neutral'"])
             ++ [LogRecord INFO "setEmotion: applying emotion neutral"])
            two_poses)).
Proof.
  exact (setEmotion_empty (H := demo) two_poses demo_animator eq_refl).
Defined.

(** The small instance has the keys the drivers name. *)
Lemma demo_table_ok : @table_ok demo.
Proof.
  split.
  - intros key Hin. unfold named_keys, SWAYPARTS in Hin. simpl in Hin.
    repeat (apply elem_of_cons in Hin as [-> | Hin]);
      try (eexists; split; [vm_compute; reflexivity | vm_compute; lia]).
    by apply elem_of_nil in Hin.
  - intros d. unfold channels. simpl. lia.
Qed.

(** The pipeline right after [launch]: no list object yet, nothing
    rendered, encoded or sent. *)
Definition pipeline_start : @System demo :=
  {| world := demo_world [] (λ _, 0%Z) (λ _, 0.5) demo_animator;
     global_latest_frame_sent := None;
     image_bytes := None;
     animator_terminated := false;
     encoder_terminated := false;
     animator_thread := AnimatorIdle;
     encoder_thread := EncoderIdle;
     feeds := [];
     next_id := 0 |}.

Lemma pipeline_start_initial : initial pipeline_start.
Proof.
  repeat split; try done. exists demo_animator. by split.
Qed.

Lemma pipeline_start_well_formed : well_formed (world pipeline_start).
Proof.
  split; [by apply Forall_nil |]. split; [done |]. split; [done |].
  exists demo_animator. split; [done |].
  split; [by eexists |]. split.
  { exists ∅. simpl. by rewrite lookup_insert_ne, lookup_insert_eq. }
  split; [done |]. split; [done |].
  split; [by intros [? ?] |]. split; [by intros [? ?] |].
  by intros [[? ?] | [? ?]].
Qed.

(** C4 on the first frame after [launch]: the animator renders it and
    hands it over into the free slot, and the tick after that, with the
    frame still there, does nothing. *)
Lemma render_single_slot_witness :
  ∃ (past : list (System * action)) (s s' : System) (img : ndarray),
    execution pipeline_start past s ∧
    step s (AnimatorPublish img) s' ∧
    (∃ a, global_animator_instance (world s) = Some a
          ∧ new_frame_available a = false) ∧
    (∃ a', global_animator_instance (world s') = Some a'
           ∧ new_frame_available a' = true ∧ result_image a' = Some img) ∧
    render_frame (world s') = Return None (world s') ∧
    render_animation_frame (world s') = Return () (world s').
Proof.
  destruct (animator_delivers (H := demo) pipeline_start [] pipeline_start demo_animator
              demo_table_ok (execution_start _ pipeline_start_initial)
              eq_refl eq_refl pipeline_start_well_formed eq_refl eq_refl)
    as (img & t & w1 & w2 & a2 & Hexec & Hstep & Hw2 & Ha2 & Hflag & Himg).
  destruct (render_single_slot (H := demo)) as [Hskip Hslot].
  destruct (Hslot _ _ _ _ _ Hexec Hstep) as [Hbefore Hafter].
  eexists _, _, _, img. split; [exact Hexec |]. split; [exact Hstep |].
  split; [exact Hbefore |]. split; [exact Hafter |].
  exact (Hskip w2 a2 Ha2 Hflag).
Defined.



End Runs.

(** * Further properties of the control surface and the tick *)

Section ControlSurfaceProperties.
Context `{Collaborators}.

(** A tick whose current emotion is no preset raises [KeyError] at
    [self.emotions[current_emotion]], before anything is rendered. *)
Lemma render_frame_missing_preset (w : World) (a : Animator) (source : tensor) :
  global_animator_instance w = Some a →
  emotions a !! current_emotion w = None →
  animation_running w = true → global_reload_image w = None →
  new_frame_available a = false → source_image a = Some source →
  ∃ w', render_frame w = Raised KeyError w' ∧ frame_slot w' = frame_slot w.
Proof.
  intros Ha Hpreset Hrunning Hreload Hflag Hsource. unfold render_frame.
  erewrite bind_Return by reflexivity. cbv beta. rewrite Hrunning. cbn [negb].
  erewrite bind_Return by (unfold self; rewrite Ha; reflexivity). cbv beta.
  rewrite Hflag.
  erewrite bind_Return by reflexivity. cbv beta. rewrite Hreload.
  erewrite bind_Return by reflexivity. cbv beta.
  erewrite bind_Return by (unfold self; rewrite Ha; reflexivity). cbv beta.
  rewrite Hsource.
  erewrite bind_Return by reflexivity. cbv beta.
  destruct (current_pose a) as [l |].
  - erewrite bind_Return by reflexivity. cbv beta.
    erewrite bind_Return by reflexivity. cbv beta.
    erewrite bind_Raised by (unfold dict_get; cbn; rewrite Hpreset; reflexivity).
    eexists. split; [reflexivity |]. unfold frame_slot. cbn. by rewrite Ha.
  - erewrite bind_Raised.
    2: { erewrite bind_Return by reflexivity. cbv beta.
         erewrite bind_Raised by (unfold dict_get; cbn; rewrite Hpreset; reflexivity).
         reflexivity. }
    eexists. split; [reflexivity |]. unfold frame_slot. cbn. by rewrite Ha.
Qed.

(** X1: A label that is no preset makes the emotion "neutral" without a look
    at the presets: when there is no "neutral" preset either, the next
    tick raises [KeyError] and hands over no frame. *)
Theorem setEmotion_without_neutral_breaks_rendering (w : World) (a : Animator)
    (_emotion : list item) (source : tensor) :
  global_animator_instance w = Some a →
  ¬ is_Some ((highest _emotion).2 ≫= λ l, emotions a !! l) →
  emotions a !! "neutral" = None →
  animation_running w = true →
  global_reload_image w = None →
  new_frame_available a = false →
  source_image a = Some source →
  ∃ w1 w2,
    setEmotion _emotion w = Return "emotion set to neutral" w1 ∧
    current_emotion w1 = "neutral" ∧
    render_animation_frame w1 = Raised KeyError w2 ∧
    frame_slot w2 = frame_slot w.
Proof.
  intros Ha Hunknown Hneutral Hrunning Hreload Hflag Hsource.
  rewrite (setEmotion_unknown w a _emotion Ha Hunknown).
  set (w1 := set_current_emotion _ _).
  destruct (render_frame_missing_preset w1 a source) as (w2 & Hrun & Hslot); try done.
  exists w1, w2. split; [reflexivity |]. split; [reflexivity |]. split; [| done].
  unfold render_animation_frame. by rewrite (bind_Raised _ _ _ _ _ Hrun).
Qed.

(** [setEmotion] keeps a well-formed state well-formed when there is a
    "neutral" preset. *)
Lemma setEmotion_well_formed (w : World) (a : Animator) (_emotion : list item) :
  well_formed w → global_animator_instance w = Some a →
  is_Some (emotions a !! "neutral") →
  ∃ msg w1, setEmotion _emotion w = Return msg w1 ∧ well_formed w1 ∧
    global_animator_instance w1 = Some a ∧
    is_Some (emotions a !! current_emotion w1) ∧
    ((highest _emotion).2 = Some (current_emotion w1) ∨ current_emotion w1 = "neutral").
Proof.
  intros (Hheap & Hrunning & Hreload & a' & Ha' & Hok) Ha Hneutral.
  rewrite Ha in Ha'. injection Ha' as <-.
  assert (Hwf : ∀ l msgs, is_Some (emotions a !! l) →
            well_formed (set_current_emotion l (set_log msgs w))).
  { intros l msgs Hl. repeat split; try done. exists a. split; [done |].
    unfold animator_ok in *. simpl. destruct_and?. repeat split; eauto. }
  destruct (decide (is_Some ((highest _emotion).2 ≫= λ l, emotions a !! l)))
    as [Hknown | Hunknown].
  - destruct (highest _emotion).2 as [l |] eqn:Hl; [| by destruct Hknown].
    simpl in Hknown.
    rewrite (setEmotion_known w a _emotion l Ha Hl Hknown).
    eexists _, _. split; [reflexivity |]. split; [by apply Hwf |].
    split; [done |]. split; [done |]. by left.
  - rewrite (setEmotion_unknown w a _emotion Ha Hunknown).
    eexists _, _. split; [reflexivity |]. split; [by apply Hwf |].
    split; [done |]. split; [done |]. by right.
Qed.

(** ** What a tick leaves alone *)

(** An observation of the controls: it does not depend on the list
    objects, the oracles, the log, the animator or the reload image. *)
Definition control_view {B} (f : World → B) : Prop :=
  ∀ w, (∀ h, f (set_heap h w) = f w) ∧ (∀ c, f (set_clock c w) = f w) ∧
       (∀ g, f (set_rng g w) = f w) ∧ (∀ l, f (set_log l w) = f w) ∧
       (∀ a, f (set_global_animator_instance a w) = f w) ∧
       (∀ i, f (set_global_reload_image i w) = f w).

Section ControlView.
Context {B : Type} (f : World → B) (Hf : control_view f).

Lemma keeps_view_time_ns : keeps f time_ns.
Proof. intros w. simpl. apply Hf. Qed.

Lemma keeps_view_random : keeps f random.
Proof. intros w. simpl. apply Hf. Qed.

Lemma keeps_view_uniform a b : keeps f (uniform a b).
Proof. intros w. simpl. apply Hf. Qed.

Lemma keeps_view_logger l msg : keeps f (logger l msg).
Proof. intros w. simpl. apply Hf. Qed.

Lemma keeps_view_list_copy l : keeps f (list_copy l).
Proof. intros w. unfold list_copy. destruct (heap w !! l); simpl; [apply Hf | done]. Qed.

Lemma keeps_view_list_new v : keeps f (list_new v).
Proof. intros w. simpl. apply Hf. Qed.

Lemma keeps_view_list_read l : keeps f (list_read l).
Proof. intros w. unfold list_read. by destruct (heap w !! l). Qed.

Lemma keeps_view_getitem l i : keeps f (getitem l i).
Proof.
  intros w. unfold getitem. destruct (heap w !! l) as [v |]; [| done].
  by destruct (v !! i).
Qed.

Lemma keeps_view_setitem l i x : keeps f (setitem l i x).
Proof.
  intros w. unfold setitem. destruct (heap w !! l) as [v |]; [| done].
  destruct (decide (i < length v)%nat); simpl; [apply Hf | done].
Qed.

Lemma keeps_view_self : keeps f self.
Proof. intros w. unfold self. by destruct (global_animator_instance w). Qed.

Lemma keeps_view_setattr g : keeps f (setattr g).
Proof.
  intros w. unfold setattr. destruct (global_animator_instance w); simpl; [apply Hf | done].
Qed.

Lemma keeps_view_dict_get {V} (d : gmap string V) k : keeps f (dict_get d k).
Proof. intros w. unfold dict_get. by destruct (d !! k). Qed.

Lemma keeps_view_seconds_since time_now t : keeps f (seconds_since time_now t).
Proof. intros w. by destruct t. Qed.

Lemma keeps_view_clear_reload i : keeps f (modify (set_global_reload_image i)).
Proof. intros w. simpl. apply Hf. Qed.

End ControlView.

End ControlSurfaceProperties.

Create HintDb keeps_view discriminated.

#[export] Hint Resolve keeps_ret keeps_raise keeps_gets keeps_view_time_ns
  keeps_view_random keeps_view_uniform keeps_view_logger keeps_view_list_copy
  keeps_view_list_new keeps_view_list_read keeps_view_getitem keeps_view_setitem
  keeps_view_self keeps_view_setattr keeps_view_dict_get keeps_view_seconds_since
  keeps_view_clear_reload : keeps_view.

(** Takes a computation apart and shows that each piece keeps a view of
    the controls. *)
Ltac keeps_view :=
  repeat first
    [ solve [auto with keeps_view]
    | apply keeps_for_in; intros ?
    | apply keeps_try_finally
    | apply keeps_try_except
    | apply keeps_bind; [| intros ?]
    | progress cbv zeta
    | match goal with
      | |- keeps _ (match ?x with _ => _ end) => destruct x
      end ].

Section TickProperties.
Context `{Collaborators}.

(** ** Where a frame comes from *)

(** What a computation returns, when it returns. *)
Definition on_return {A} (m : M A) (Q : A → Prop) : Prop :=
  ∀ w a w', m w = Return a w' → Q a.

Lemma on_return_ret {A} (a : A) (Q : A → Prop) : Q a → on_return (mret a) Q.
Proof. intros HQ w a' w' Hrun. by injection Hrun as <- _. Qed.

Lemma on_return_bind {A B} (m : M A) (k : A → M B) (Q : B → Prop) :
  (∀ a, on_return (k a) Q) → on_return (m ≫= k) Q.
Proof.
  intros Hk w b w' Hrun. unfold mbind, M_bind in Hrun.
  destruct (m w) as [a w1 | e w1]; [| done]. by eapply Hk.
Qed.

(** A frame that a tick renders is the poser's image of the character
    the animator has at that tick. *)
Lemma render_frame_image (w w' : World) (a : Animator) (source : tensor)
    (x : ndarray * Z) :
  global_animator_instance w = Some a → global_reload_image w = None →
  source_image a = Some source →
  render_frame w = Return (Some x) w' →
  ∃ channels, x.1 = pose_image source channels.
Proof.
  intros Ha Hreload Hsource. unfold render_frame.
  erewrite bind_Return by reflexivity. cbv beta.
  destruct (animation_running w); [| done]. cbn [negb].
  erewrite bind_Return by (unfold self; rewrite Ha; reflexivity). cbv beta.
  destruct (new_frame_available a); [done |].
  erewrite bind_Return by reflexivity. cbv beta. rewrite Hreload.
  erewrite bind_Return by reflexivity. cbv beta.
  erewrite bind_Return by (unfold self; rewrite Ha; reflexivity). cbv beta.
  rewrite Hsource.
  match goal with
  | |- ?m w = _ → _ =>
      assert (Himage : on_return m (λ o, ∀ x, o = Some x →
                                         ∃ channels, x.1 = pose_image source channels))
  end.
  { repeat (apply on_return_bind; intros ?). cbv zeta.
    repeat (apply on_return_bind; intros ?).
    apply on_return_ret. intros ? [= <-]. by eexists. }
  intros Hrun. by eapply Himage.
Qed.

(** A tick on a well-formed state with a free slot renders a frame of
    the character and hands it over. *)
Lemma tick_renders (w : World) (a : Animator) :
  table_ok → well_formed w →
  global_animator_instance w = Some a → new_frame_available a = false →
  ∃ w' a' img, render_animation_frame w = Return () w' ∧ steady w' ∧
    global_animator_instance w' = Some a' ∧
    new_frame_available a' = true ∧ result_image a' = Some img ∧
    ∃ source channels, source_image a = Some source ∧ img = pose_image source channels.
Proof.
  intros Htable Hw Ha Hflag.
  destruct (render_frame_progress w a Htable Hw Ha Hflag) as ([img t] & w1 & Hrun & Hw1).
  destruct (publish_frame_steady w1 img t Hw1) as (w2 & a2 & Hpub & Hw2 & Ha2 & Hflag2 & Himg).
  exists w2, a2, img. split; [| split; [done | split; [done | split; [done | split; [done |]]]]].
  - unfold render_animation_frame. by rewrite (bind_Return _ _ _ _ _ Hrun).
  - pose proof Hw as (_ & _ & Hreload & a' & Ha' & [source Hsource] & _).
    rewrite Ha in Ha'. injection Ha' as <-.
    destruct (render_frame_image w w1 a source _ Ha Hreload Hsource Hrun) as [channels Hx].
    by exists source, channels.
Qed.

Lemma keeps_view_render_animation_frame {B} (f : World → B) :
  control_view f → keeps f render_animation_frame.
Proof.
  intros Hf.
  unfold render_animation_frame, render_frame, publish_frame, load_image,
    get_current_pose, apply_emotion_to_pose, compute_sway_target_pose, macrosway,
    add_microsway, interpolate_pose, animate_blinking, animate_talking,
    animate_breathing.
  keeps_view.
Qed.

(** X2: A tick, whether it renders, skips or raises, changes none of the
    controls that the API writes: the running flag, the emotion and the
    talking flag are as before. *)
Theorem tick_leaves_controls_alone (w : World) :
  let w' := final (render_animation_frame w) in
  animation_running w' = animation_running w ∧
  current_emotion w' = current_emotion w ∧
  is_talking w' = is_talking w.
Proof.
  cbv zeta. repeat split; apply keeps_view_render_animation_frame; by intros w0.
Qed.

(** X3: The API calls write the controls and the log only: the animator with
    its frame slot, the list objects and the two oracles are as before,
    whether the call returns or raises. *)
Theorem control_surface_leaves_animator_alone (c : api_call) (w : World) :
  let w' := final (run_api c w) in
  global_animator_instance w' = global_animator_instance w ∧
  heap w' = heap w ∧ clock w' = clock w ∧ rng w' = rng w.
Proof.
  assert (Hkeeps : ∀ B (f : World → B),
            (∀ w l, f (set_log l w) = f w) → (∀ w b, f (set_animation_running b w) = f w) →
            (∀ w e, f (set_current_emotion e w) = f w) →
            (∀ w b, f (set_is_talking b w) = f w) →
            (∀ w i, f (set_global_reload_image i w) = f w) →
            keeps f (run_api c)).
  { intros B f Hlog Hrunning Hemotion Htalking Hreload.
    destruct c; unfold run_api, setEmotion, unload, start_talking, stop_talking,
      talkinghead_load_file, PIL_Image_open;
      repeat first
        [ apply keeps_ret
        | apply keeps_raise
        | apply keeps_view_self
        | apply keeps_try_finally
        | apply keeps_try_except
        | apply keeps_bind; [| intros ?]
        | match goal with
          | |- keeps _ (match ?x with _ => _ end) => destruct x
          end
        | (intros w0; simpl; by rewrite ?Hlog, ?Hrunning, ?Hemotion, ?Htalking, ?Hreload) ]. }
  cbv zeta. repeat split; by apply Hkeeps.
Qed.

(** ** Pausing *)

(** What happens to the state between two uploads: ticks of the
    animator and calls of the API. *)
Inductive event : Type :=
| Tick
| Call (c : api_call).

Definition run_event (e : event) (w : World) : World :=
  match e with
  | Tick => final (render_animation_frame w)
  | Call c => final (run_api c w)
  end.

Definition run_events (es : list event) (w : World) : World :=
  foldl (λ w e, run_event e w) w es.

Definition is_upload (e : event) : bool :=
  match e with Call (CallLoadFile _) => true | _ => false end.

Lemma paused_tick (w : World) :
  animation_running w = false → render_animation_frame w = Return () w.
Proof.
  intros Hpaused.
  assert (Hskip : render_frame w = Return None w).
  { unfold render_frame. erewrite bind_Return by reflexivity. cbv beta.
    by rewrite Hpaused. }
  unfold render_animation_frame. by rewrite (bind_Return _ _ _ _ _ Hskip).
Qed.

Lemma paused_events (es : list event) (w : World) :
  Forall (λ e, is_upload e = false) es → animation_running w = false →
  animation_running (run_events es w) = false ∧
  frame_slot (run_events es w) = frame_slot w ∧
  heap (run_events es w) = heap w.
Proof.
  intros Hes. revert w. induction Hes as [| e es He Hes IH]; intros w Hpaused; [done |].
  simpl. assert (Hstep : animation_running (run_event e w) = false ∧
                          frame_slot (run_event e w) = frame_slot w ∧
                          heap (run_event e w) = heap w).
  { destruct e as [| c]; simpl.
    - by rewrite (paused_tick w Hpaused).
    - split; [| split; [apply keeps_slot_run_api |]].
      + destruct c; try done. simpl. unfold setEmotion, mbind at 1, M_bind, self.
        destruct (global_animator_instance w); [| done].
        by destruct (decide _).
      + destruct c as [_emotion | | | | [pil |]]; try done.
        simpl. unfold setEmotion, mbind at 1, M_bind, self.
        destruct (global_animator_instance w); [| done].
        by destruct (decide _). }
  destruct Hstep as (Hpaused' & Hslot' & Hheap').
  destruct (IH _ Hpaused') as (? & ? & ?).
  split; [done |]. split; congruence.
Qed.

(** X4: [unload] pauses the animation until the next upload: whatever ticks
    and API calls other than [talkinghead_load_file] follow, every tick
    does nothing, no frame is handed over and no list object is made or
    changed. *)
Theorem unload_pauses_until_upload (w : World) (es : list event) :
  Forall (λ e, is_upload e = false) es →
  let w' := run_events es (final (unload w)) in
  unload w = Return "Animation Paused" (final (unload w)) ∧
  animation_running w' = false ∧
  render_animation_frame w' = Return () w' ∧
  frame_slot w' = frame_slot w ∧
  heap w' = heap w.
Proof.
  intros Hes. cbv zeta.
  destruct (paused_events es (final (unload w)) Hes eq_refl) as (Hpaused & Hslot & Hheap).
  split; [reflexivity |]. split; [done |]. split; [by apply paused_tick |].
  split; [by rewrite Hslot | by rewrite Hheap].
Qed.

(** X5: With a "neutral" preset loaded, [setEmotion] never leaves the
    animator without a pose to aim at: whatever the classifier result,
    the emotion it sets is a preset, and the tick that follows renders
    a frame for that emotion and hands it over. *)
Theorem setEmotion_keeps_rendering (w : World) (a : Animator) (_emotion : list item) :
  table_ok → well_formed w →
  global_animator_instance w = Some a → new_frame_available a = false →
  is_Some (emotions a !! "neutral") →
  ∃ msg w1 w2 a2 img,
    setEmotion _emotion w = Return msg w1 ∧
    is_Some (emotions a !! current_emotion w1) ∧
    ((highest _emotion).2 = Some (current_emotion w1) ∨ current_emotion w1 = "neutral") ∧
    render_animation_frame w1 = Return () w2 ∧
    global_animator_instance w2 = Some a2 ∧
    new_frame_available a2 = true ∧ result_image a2 = Some img ∧
    current_emotion w2 = current_emotion w1.
Proof.
  intros Htable Hw Ha Hflag Hneutral.
  destruct (setEmotion_well_formed w a _emotion Hw Ha Hneutral)
    as (msg & w1 & Hset & Hw1 & Ha1 & Hpreset & Hlabel).
  destruct (tick_renders w1 a Htable Hw1 Ha1 Hflag)
    as (w2 & a2 & img & Hrun & Hw2 & Ha2 & Hflag2 & Himg & _).
  exists msg, w1, w2, a2, img. repeat split; try done.
  pose proof (keeps_view_render_animation_frame current_emotion) as Hkeep.
  specialize (Hkeep ltac:(by intros w0) w1). by rewrite Hrun in Hkeep.
Qed.

(** X6: On a well-formed state a tick never raises, and leaves a frame in
    the slot: with a frame still there it changes nothing, with the slot
    free it renders one and hands it over. *)
Theorem render_animation_frame_fills_slot (w : World) (a : Animator) :
  table_ok → well_formed w → global_animator_instance w = Some a →
  ∃ w' a',
    render_animation_frame w = Return () w' ∧ well_formed w' ∧
    global_animator_instance w' = Some a' ∧ new_frame_available a' = true ∧
    (new_frame_available a = true → w' = w) ∧
    (new_frame_available a = false →
     ∃ source channels, source_image a = Some source ∧
                        result_image a' = Some (pose_image source channels)).
Proof.
  intros Htable Hw Ha. destruct (new_frame_available a) eqn:Hflag.
  - exists w, a. split; [| done].
    unfold render_animation_frame.
    by rewrite (bind_Return _ _ _ _ _ (render_frame_skips w a Ha Hflag)).
  - destruct (tick_renders w a Htable Hw Ha Hflag)
      as (w' & a' & img & Hrun & Hw' & Ha' & Hflag' & Himg & source & channels & Hsource & ->).
    exists w', a'. split; [done |]. split; [by apply steady_well_formed |].
    split; [done |]. split; [done |]. split; [done |]. intros _. by exists source, channels.
Qed.

(** ** Loading an image *)

(** The animator after [load_image] has looked at [pil]: an image, or
    the text of the exception that opening the file raised. *)
Definition loaded (pil : string + pil_image) (a : Animator) : Animator :=
  match pil with
  | inr i => match extract_source i with
             | Loaded t => set_source_image (Some t) a
             | NoAlpha => set_source_image None a
             | LoadFailed _ => a
             end
  | inl _ => a
  end.

(** The record of line 372, for an image that is not 512 x 512. *)
Definition resize_log (i : pil_image) : list log_record :=
  if decide (size i ≠ (512, 512)%nat)
  then [LogRecord INFO "Resizing Char Card to work"] else [].

(** What [load_image] logs for [pil]. *)
Definition load_log (pil : string + pil_image) : list log_record :=
  match pil with
  | inr i =>
      resize_log i ++
      match extract_source i with
      | Loaded t => []
      | NoAlpha => [LogRecord ERROR "load_image: image must have alpha channel"]
      | LoadFailed exc => [LogRecord ERROR ("load_image: " +:+ exc)]
      end
  | inl exc => [LogRecord ERROR ("load_image: " +:+ exc)]
  end.

Lemma load_image_Return (file_path : option string) (w : World) (a : Animator) :
  global_animator_instance w = Some a →
  let pil := if global_reload_image w is Some i then inr i
             else extract_PIL_image_from_filelike file_path in
  load_image file_path w
  = Return () (set_global_reload_image None
                 (set_global_animator_instance (Some (loaded pil a))
                    (set_log (log w ++ load_log pil) w))).
Proof.
  intros Ha. cbv zeta. unfold load_image.
  erewrite bind_Return by reflexivity. cbv beta.
  destruct (global_reload_image w) as [i |] eqn:Hreload;
    [| destruct (extract_PIL_image_from_filelike file_path) as [exc | i]];
    unfold loaded, load_log, resize_log;
    try destruct (decide (size i ≠ (512, 512)%nat));
    try destruct (extract_source i);
    unfold mbind, M_bind, mret, M_ret, setattr, logger, modify; simpl; rewrite ?Ha; simpl;
    rewrite <- ?app_assoc, ?app_nil_r; try reflexivity.
  all: destruct w; simpl in *; by subst.
Qed.

(** X7: [load_image] never raises and always clears the reload image.  A
    pending reload image is used instead of the file.  An image that is
    not 512 x 512 is logged as resized.  An RGBA image becomes the
    character; an image without alpha channel removes the character and
    logs an error; when opening the file or converting the image raises,
    the character stays and the text of the exception is logged.  The
    frame slot and the running flag are not touched. *)
Theorem load_image_spec (file_path : option string) (w : World) (a : Animator) :
  global_animator_instance w = Some a →
  ∃ w' a',
    load_image file_path w = Return () w' ∧
    global_reload_image w' = None ∧
    global_animator_instance w' = Some a' ∧
    frame_slot w' = frame_slot w ∧
    animation_running w' = animation_running w ∧
    match (if global_reload_image w is Some i then inr i
           else extract_PIL_image_from_filelike file_path) with
    | inr i =>
        let resized :=
          if decide (size i ≠ (512, 512)%nat)
          then [LogRecord INFO "Resizing Char Card to work"] else [] in
        match extract_source i with
        | Loaded t => source_image a' = Some t ∧ log w' = log w ++ resized
        | NoAlpha =>
            source_image a' = None ∧
            log w' = log w ++ resized
                     ++ [LogRecord ERROR "load_image: image must have alpha channel"]
        | LoadFailed exc =>
            source_image a' = source_image a ∧
            log w' = log w ++ resized ++ [LogRecord ERROR ("load_image: " +:+ exc)]
        end
    | inl exc =>
        source_image a' = source_image a ∧
        log w' = log w ++ [LogRecord ERROR ("load_image: " +:+ exc)]
    end.
Proof.
  intros Ha. rewrite (load_image_Return file_path w a Ha).
  eexists _, _. split; [reflexivity |]. split; [reflexivity |].
  split; [reflexivity |].
  set (pil := if global_reload_image w is Some i then inr i else _).
  split; [| split; [reflexivity |]].
  - unfold frame_slot. simpl. rewrite Ha. simpl.
    unfold loaded. destruct pil as [exc | i]; [done |]. by destruct (extract_source i).
  - unfold loaded, load_log, resize_log. destruct pil as [exc | i]; simpl; [done |].
    destruct (extract_source i); simpl; by rewrite ?app_nil_r.
Qed.

(** The start of a tick with a reload image pending: the image is
    loaded, and the tick goes on as one that starts after the load. *)
Lemma render_frame_reload (w : World) (a : Animator) (i : pil_image) :
  animation_running w = true → global_animator_instance w = Some a →
  new_frame_available a = false → global_reload_image w = Some i →
  render_frame w
  = render_frame (set_global_reload_image None
                    (set_global_animator_instance (Some (loaded (inr i) a))
                       (set_log (log w ++ load_log (inr i)) w))).
Proof.
  intros Hrunning Ha Hflag Hreload. set (w' := set_global_reload_image None _).
  assert (Hflag' : new_frame_available (loaded (inr i) a) = false).
  { unfold loaded. by destruct (extract_source i). }
  unfold render_frame.
  erewrite bind_Return by reflexivity. cbv beta. rewrite Hrunning. cbn [negb].
  erewrite bind_Return by (unfold self; rewrite Ha; reflexivity). cbv beta.
  rewrite Hflag.
  erewrite bind_Return by reflexivity. cbv beta. rewrite Hreload.
  erewrite bind_Return.
  2: { rewrite (load_image_Return None w a Ha). rewrite Hreload. reflexivity. }
  cbv beta. fold w'.
  symmetry.
  erewrite bind_Return by reflexivity. cbv beta.
  change (animation_running w') with (animation_running w). rewrite Hrunning. cbn [negb].
  erewrite bind_Return by reflexivity. cbv beta. rewrite Hflag'.
  erewrite bind_Return by reflexivity. cbv beta.
  change (global_reload_image w') with (@None pil_image).
  erewrite bind_Return by reflexivity. cbv beta. reflexivity.
Qed.

(** Without a character a tick renders nothing. *)
Lemma render_frame_no_character (w : World) (a : Animator) :
  global_animator_instance w = Some a → global_reload_image w = None →
  source_image a = None → render_frame w = Return None w.
Proof.
  intros Ha Hreload Hsource. unfold render_frame.
  erewrite bind_Return by reflexivity. cbv beta.
  destruct (animation_running w); [| done]. cbn [negb].
  erewrite bind_Return by (unfold self; rewrite Ha; reflexivity). cbv beta.
  destruct (new_frame_available a); [done |].
  erewrite bind_Return by reflexivity. cbv beta. rewrite Hreload.
  erewrite bind_Return by reflexivity. cbv beta.
  erewrite bind_Return by (unfold self; rewrite Ha; reflexivity). cbv beta.
  by rewrite Hsource.
Qed.

(** The image that [talkinghead_load_file] leaves pending: the upload,
    or the placeholder when PIL finds no image in the upload; none when
    PIL raises another exception. *)
Definition uploaded (stream : exn + pil_image) : option pil_image :=
  match stream with
  | inr pil => Some pil
  | inl UnidentifiedImageError => Some inital_png
  | inl _ => None
  end.

Lemma talkinghead_load_file_Return (stream : exn + pil_image) (pil : pil_image)
    (w : World) :
  uploaded stream = Some pil →
  ∃ w1, talkinghead_load_file stream w = Return "OK" w1 ∧
    animation_running w1 = true ∧
    global_reload_image w1 = Some pil ∧
    global_animator_instance w1 = global_animator_instance w ∧
    heap w1 = heap w ∧ current_emotion w1 = current_emotion w.
Proof.
  destruct stream as [[] |]; intros [= <-]; eexists; (split; [reflexivity |]); done.
Qed.

(** An upload on which PIL raises another exception: the exception goes
    on to the caller, after the [finally] has switched the animation on;
    the pending image is as before. *)
Lemma talkinghead_load_file_Raised (e : exn) (w : World) :
  e ≠ UnidentifiedImageError →
  ∃ w1, talkinghead_load_file (inl e) w = Raised e w1 ∧
    animation_running w1 = true ∧
    global_reload_image w1 = global_reload_image w ∧
    global_animator_instance w1 = global_animator_instance w ∧
    heap w1 = heap w ∧ current_emotion w1 = current_emotion w.
Proof.
  intros He.
  unfold talkinghead_load_file, try_finally, try_except, PIL_Image_open,
    mbind, M_bind, raise, logger, modify. simpl.
  rewrite decide_False by done. simpl. by eexists.
Qed.

(** X8: An upload whose image has no alpha channel stops the rendering: the
    tick that loads it logs the error, drops the character and renders
    nothing, and so does every tick after it until another image is
    uploaded.  The image is the upload, or the placeholder when the
    upload is no image. *)
Theorem upload_without_alpha_stops_rendering (w : World) (a : Animator)
    (stream : exn + pil_image) (pil : pil_image) :
  global_animator_instance w = Some a → new_frame_available a = false →
  uploaded stream = Some pil → extract_source pil = NoAlpha →
  ∃ w1 w2,
    talkinghead_load_file stream w = Return "OK" w1 ∧
    render_animation_frame w1 = Return () w2 ∧
    global_animator_instance w2 = Some (set_source_image None a) ∧
    global_reload_image w2 = None ∧
    LogRecord ERROR "load_image: image must have alpha channel" ∈ log w2 ∧
    render_animation_frame w2 = Return () w2.
Proof.
  intros Ha Hflag Hpil Himg.
  destruct (talkinghead_load_file_Return stream pil w Hpil)
    as (w1 & Hload & Hrunning & Hreload & Ha1 & _).
  rewrite Ha in Ha1.
  pose proof (render_frame_reload w1 a _ Hrunning Ha1 Hflag Hreload) as Hrun.
  unfold loaded, load_log in Hrun. rewrite Himg in Hrun.
  set (w2 := set_global_reload_image None _) in Hrun.
  assert (Hskip : render_frame w2 = Return None w2)
    by by apply (render_frame_no_character _ (set_source_image None a)).
  rewrite Hskip in Hrun.
  exists w1, w2. split; [done |].
  split; [unfold render_animation_frame; by rewrite (bind_Return _ _ _ _ _ Hrun) |].
  split; [reflexivity |]. split; [reflexivity |].
  split; [simpl; set_solver |].
  unfold render_animation_frame. by rewrite (bind_Return _ _ _ _ _ Hskip).
Qed.

(** An upload of an RGBA image, on a state whose animator would be in
    order with that image as its character: the next tick loads the
    image and renders a frame of it. *)
Lemma upload_renders (w : World) (a : Animator) (stream : exn + pil_image)
    (pil : pil_image) (t : tensor) :
  table_ok →
  Forall (λ v, (channels ≤ length v)%nat) (heap w) →
  global_animator_instance w = Some a → new_frame_available a = false →
  animator_ok false (length (heap w)) (current_emotion w) (set_source_image (Some t) a) →
  uploaded stream = Some pil → extract_source pil = Loaded t →
  ∃ w1 w2 a2 channels,
    talkinghead_load_file stream w = Return "OK" w1 ∧
    global_reload_image w1 = Some pil ∧
    render_animation_frame w1 = Return () w2 ∧ steady w2 ∧
    global_animator_instance w2 = Some a2 ∧
    new_frame_available a2 = true ∧
    result_image a2 = Some (pose_image t channels).
Proof.
  intros Htable Hheap Ha Hflag Hok Hpil Himg.
  destruct (talkinghead_load_file_Return stream pil w Hpil)
    as (w1 & Hload & Hrunning & Hreload & Ha1 & Hheap1 & Hemotion1).
  rewrite Ha in Ha1.
  pose proof (render_frame_reload w1 a _ Hrunning Ha1 Hflag Hreload) as Hrun.
  unfold loaded, load_log in Hrun. rewrite Himg in Hrun.
  set (w' := set_global_reload_image None _) in Hrun.
  assert (Hw' : well_formed w').
  { split; [simpl; by rewrite Hheap1 |]. split; [done |]. split; [done |].
    eexists. split; [reflexivity |]. simpl. by rewrite Hheap1, Hemotion1. }
  destruct (tick_renders w' _ Htable Hw' eq_refl Hflag)
    as (w2 & a2 & frame & Htick & Hw2 & Ha2 & Hflag2 & Hframe & source & channels & Hsource & ->).
  injection Hsource as <-.
  exists w1, w2, a2, channels. split; [done |]. split; [done |]. split; [| done].
  revert Htick. unfold render_animation_frame, mbind, M_bind. by rewrite Hrun.
Qed.

(** X9: Replacing the character: on a state that is well-formed apart from
    the running flag (the animation runs, or was paused by [unload]), an
    upload of an RGBA image switches the animation on, and the next tick
    takes the image as the character, clears the reload image and renders
    a frame of the new character.  The image is the upload, or the
    placeholder when the upload is no image. *)
Theorem upload_then_tick_renders (w : World) (a : Animator) (stream : exn + pil_image)
    (pil : pil_image) (t : tensor) :
  table_ok → well_formed (set_animation_running true w) →
  global_animator_instance w = Some a → new_frame_available a = false →
  uploaded stream = Some pil → extract_source pil = Loaded t →
  ∃ w1 w2 a2 channels,
    talkinghead_load_file stream w = Return "OK" w1 ∧
    global_reload_image w1 = Some pil ∧
    render_animation_frame w1 = Return () w2 ∧
    animation_running w2 = true ∧ global_reload_image w2 = None ∧
    global_animator_instance w2 = Some a2 ∧
    new_frame_available a2 = true ∧
    result_image a2 = Some (pose_image t channels).
Proof.
  intros Htable (Hheap & _ & _ & a' & Ha' & Hok) Ha Hflag Hpil Himg.
  simpl in Ha'. rewrite Ha in Ha'. injection Ha' as <-.
  destruct (upload_renders w a stream pil t Htable Hheap Ha Hflag) as
    (w1 & w2 & a2 & channels & Hload & Hpending & Hrun & (_ & Hrunning & Hreload & _)
     & Ha2 & Hrest);
    [| done | done |].
  { unfold animator_ok in *. simpl in *. destruct_and?. repeat split; eauto. }
  by exists w1, w2, a2, channels.
Qed.

(** X25: An upload that PIL cannot read.  When PIL raises another
    exception than [UnidentifiedImageError] on the upload, the call
    raises that exception, no image is left pending, and the [finally]
    has switched the animation on all the same: on a state that is
    well-formed apart from the running flag (the animation runs, or was
    paused by [unload]), the next tick renders a frame of the character
    that was there before. *)
Theorem failed_upload_resumes_animation (w : World) (a : Animator) (e : exn) :
  e ≠ UnidentifiedImageError →
  table_ok → well_formed (set_animation_running true w) →
  global_animator_instance w = Some a → new_frame_available a = false →
  ∃ w1 w2 a2 source channels,
    talkinghead_load_file (inl e) w = Raised e w1 ∧
    animation_running w1 = true ∧ global_reload_image w1 = None ∧
    global_animator_instance w1 = Some a ∧
    render_animation_frame w1 = Return () w2 ∧
    global_animator_instance w2 = Some a2 ∧
    new_frame_available a2 = true ∧
    source_image a = Some source ∧
    result_image a2 = Some (pose_image source channels).
Proof.
  intros He Htable (Hheap & _ & Hreload & a' & Ha' & Hok) Ha Hflag. simpl in *.
  destruct (talkinghead_load_file_Raised e w He)
    as (w1 & Hrun & Hrunning & Hreload1 & Ha1 & Hheap1 & Hemotion1).
  assert (Hw1 : well_formed w1).
  { split; [by rewrite Hheap1 |]. split; [done |]. split; [by rewrite Hreload1 |].
    exists a'. split; [by rewrite Ha1 |]. by rewrite Hheap1, Hemotion1. }
  rewrite Ha in Ha1.
  destruct (tick_renders w1 a Htable Hw1 Ha1 Hflag)
    as (w2 & a2 & img & Htick & _ & Ha2 & Hflag2 & Himg & source & channels & Hsource & ->).
  exists w1, w2, a2, source, channels.
  split; [done |]. split; [done |]. split; [by rewrite Hreload1 |]. by repeat split.
Qed.

(** X10: The first frame.  [__init__] gives the same animator whatever the
    object it starts from, with the breathing epoch at the time of the
    call.  With that animator as the instance, whatever character the
    launch loaded, a tick does nothing while the animation is off; after
    the upload of an RGBA image the next tick renders a frame of it,
    provided the current emotion is among the presets. *)
Theorem first_frame_after_upload (w : World) (obj : Animator)
    (presets : gmap string (gmap string R)) (character : option tensor)
    (stream : exn + pil_image) (pil : pil_image) (t : tensor) :
  table_ok →
  Forall (λ v, (channels ≤ length v)%nat) (heap w) →
  is_Some (presets !! current_emotion w) →
  uploaded stream = Some pil → extract_source pil = Loaded t →
  ∃ a w0,
    Animator__init__ obj presets w = Return a w0 ∧
    (∀ obj', Animator__init__ obj' presets w = Return a w0) ∧
    breathing_epoch a = clock w 0%nat ∧ emotions a = presets ∧
    let w1 := set_global_animator_instance (Some (set_source_image character a)) w0 in
    (animation_running w = false → render_animation_frame w1 = Return () w1) ∧
    ∃ w2 w3 a3 channels,
      talkinghead_load_file stream w1 = Return "OK" w2 ∧
      render_animation_frame w2 = Return () w3 ∧
      global_animator_instance w3 = Some a3 ∧
      new_frame_available a3 = true ∧
      result_image a3 = Some (pose_image t channels).
Proof.
  intros Htable Hheap Hpreset Hpil Himg.
  eexists _, _. split; [reflexivity |]. split; [reflexivity |]. split; [reflexivity |].
  split; [reflexivity |].
  cbv zeta. set (a := set_emotions _ _). set (w1 := set_global_animator_instance _ _).
  split; [intros Hoff; by apply paused_tick |].
  destruct (upload_renders w1 (set_source_image character a) stream pil t Htable Hheap
              eq_refl eq_refl)
    as (w2 & w3 & a3 & channels & Hload & _ & Hrun & _ & Ha3 & Hrest); [| done | done |].
  { split; [by eexists |]. split; [done |].
    split; [done |]. split; [done |].
    split; [by intros [? ?] |]. split; [by intros [? ?] |]. by intros [[? ?] | [? ?]]. }
  exists w2, w3, a3, channels. destruct Hrest. repeat split; assumption.
Qed.

End TickProperties.

(** * Further properties of the drivers *)

Section SwayProperties.
Context `{Collaborators}.

(** ** The loops over the sway channels

    The loops of [macrosway] and [add_microsway] have one shape: for
    each key, read the channel of the key from a list, draw a number
    from a range that may depend on the value read, and write a value
    made of the two to the same channel of the list being built.  When
    the keys are distinct channels, each channel is read before it is
    written, also when the two lists are one. *)
Lemma for_in_sway_keys (lo hi : R → R) (g : R → R → R) (src dst : loc)
    (body : string → M unit) :
  (∀ key, body key = (idx ← dict_get posedict_key_to_index key;
                      x ← getitem src idx;
                      u ← uniform (lo x) (hi x);
                      setitem dst idx (g x u))) →
  ∀ (keys : list string) (idxs : list nat) (w : World) (s d : list R),
    Forall2 (λ key idx, posedict_key_to_index !! key = Some idx) keys idxs →
    NoDup idxs →
    heap w !! src = Some s → heap w !! dst = Some d →
    (∀ idx, idx ∈ idxs → (idx < length s)%nat ∧ (idx < length d)%nat) →
    ∃ d',
      for_in keys body w
      = Return () (set_heap (<[dst := d']> (heap w))
                     (set_rng (λ n, rng w (length keys + n)%nat) w)) ∧
      length d' = length d ∧
      (∀ i, i ∉ idxs → d' !! i = d !! i) ∧
      (∀ k idx x, idxs !! k = Some idx → s !! idx = Some x →
         d' !! idx = Some (g x (lo x + (hi x - lo x) * rng w k))).
Proof.
  intros Hbody keys idxs w s d Hkeys. revert w s d.
  induction Hkeys as [| key idx keys idxs Hkey Hkeys IH]; intros w s d Hnodup Hsrc Hdst Hlt.
  - exists d. split; [| split; [done | split; [done |]]].
    + simpl. rewrite list_insert_id by done. by destruct w.
    + intros k idx x Hk. by rewrite lookup_nil in Hk.
  - apply NoDup_cons in Hnodup as [Hfresh Hnodup].
    destruct (Hlt idx ltac:(set_solver)) as [Hs Hd].
    destruct (lookup_lt_is_Some_2 s idx Hs) as [x Hx].
    set (y := g x (lo x + (hi x - lo x) * rng w 0%nat)).
    set (d1 := <[idx := y]> d).
    set (w1 := set_heap (<[dst := d1]> (heap w)) (set_rng (λ n, rng w (S n)) w)).
    assert (Hrun : body key w = Return () w1).
    { rewrite Hbody.
      rewrite (bind_Return _ _ _ _ _ (dict_get_Return _ _ _ _ Hkey)).
      rewrite (bind_Return _ _ _ _ _ (getitem_Return _ _ _ _ _ Hsrc Hx)).
      rewrite (bind_Return _ _ _ _ _ (uniform_Return _ _ _)).
      by rewrite (setitem_Return dst idx d _ (set_rng _ w) Hdst Hd). }
    assert (Hdst_lt : (dst < length (heap w))%nat) by eauto using lookup_lt_Some.
    set (s1 := if decide (src = dst) then d1 else s).
    assert (Hsrc1 : heap w1 !! src = Some s1).
    { unfold s1, w1. simpl. destruct (decide (src = dst)) as [-> | Hne].
      - by apply list_lookup_insert_eq.
      - by rewrite list_lookup_insert_ne. }
    assert (Hs1 : ∀ i, i ≠ idx → s1 !! i = s !! i).
    { intros i Hi. unfold s1. destruct (decide (src = dst)) as [-> | Hne]; [| done].
      unfold d1. rewrite list_lookup_insert_ne by done. congruence. }
    assert (Hlen1 : length s1 = length s).
    { unfold s1. destruct (decide (src = dst)) as [-> | Hne]; [| done].
      unfold d1. rewrite length_insert. congruence. }
    destruct (IH w1 s1 d1 Hnodup Hsrc1) as (d' & Hloop & Hlen' & Hout & Hin).
    { unfold w1. simpl. by apply list_lookup_insert_eq. }
    { intros i Hi. destruct (Hlt i ltac:(set_solver)) as [? ?].
      unfold d1. rewrite Hlen1, length_insert. done. }
    exists d'. split; [| split; [| split]].
    + rewrite (for_in_cons _ _ _ _ _ Hrun), Hloop. unfold w1. simpl.
      rewrite list_insert_insert_eq. unfold set_heap, set_rng. simpl.
      do 2 f_equal.
    + rewrite Hlen'. unfold d1. by rewrite length_insert.
    + intros i Hi. rewrite Hout by set_solver. unfold d1.
      apply list_lookup_insert_ne. set_solver.
    + intros k idx' x' Hk Hx'. destruct k as [| k]; simpl in Hk.
      * injection Hk as <-. rewrite Hout by done. unfold d1.
        rewrite list_lookup_insert_eq by done. unfold y. congruence.
      * assert (Hne : idx' ≠ idx).
        { intros ->. apply Hfresh. by eapply list_elem_of_lookup_2. }
        rewrite (Hin k idx' x' Hk); [done |]. by rewrite Hs1.
Qed.

(** [macrosway] decides to pick a new sway target: the emotion has
    changed, no target was picked yet, or the hold interval is over. *)
Definition sway_target_due (a : Animator) (ce : string) (time_now : Z) : Prop :=
  Some ce ≠ last_emotion a ∨
  sway_interval a = None ∨
  ∃ interval t0, sway_interval a = Some interval ∧
                 last_sway_target_timestamp a = Some t0 ∧
                 ¬ (IZR (time_now - t0) / 10 ^ 9 < interval).

(** X11: A new sway target.  When a target is due, [macrosway] returns a new
    list: the channel of the k-th sway key is the base value plus an
    offset drawn with the k-th random number, every other channel is the
    base value, and the base list is not written to.  The new list is
    cached with the time, for an interval between 5 and 10 seconds.  A
    sway channel whose base value lies within [-random_max, random_max]
    stays within these bounds. *)
Theorem macrosway_new_target (w : World) (a : Animator) (original_target_pose : loc)
    (base : list R) (idxs : list nat) :
  global_animator_instance w = Some a →
  heap w !! original_target_pose = Some base →
  Forall2 (λ key idx, posedict_key_to_index !! key = Some idx) SWAYPARTS idxs →
  NoDup idxs →
  (∀ idx, idx ∈ idxs → (idx < length base)%nat) →
  (∀ n, 0 <= rng w n < 1) →
  sway_target_due a (current_emotion w) (clock w 0%nat) →
  ∃ target w',
    let new_target_pose := length (heap w) in
    let interval := 5 + (10 - 5) * rng w 5%nat in
    macrosway original_target_pose w = Return new_target_pose w' ∧
    heap w' = heap w ++ [target] ∧
    global_animator_instance w'
    = Some (set_sway_interval (Some interval)
              (set_last_sway_target_timestamp (Some (clock w 0%nat))
                 (set_last_sway_target_pose (Some new_target_pose) a))) ∧
    5 <= interval <= 10 ∧
    length target = length base ∧
    (∀ i, i ∉ idxs → target !! i = base !! i) ∧
    (∀ k idx x, idxs !! k = Some idx → base !! idx = Some x →
       target !! idx = Some (swayed x (rng w k)) ∧
       (- random_max <= x <= random_max →
        - random_max <= swayed x (rng w k) <= random_max)).
Proof.
  intros Ha Hbase Hkeys Hnodup Hlt Hrng Hdue.
  set (w0 := set_clock (λ n, clock w (S n)) w).
  set (new := length (heap w)).
  assert (Hdecide : ∀ B (x y : M B),
            ((should ← (if decide (Some (current_emotion w) = last_emotion a)
                        then match sway_interval a with
                             | Some interval =>
                                 seconds_since_last_sway_target ←
                                   seconds_since (clock w 0%nat) (last_sway_target_timestamp a);
                                 if decide (seconds_since_last_sway_target < interval)
                                 then mret false else mret true
                             | None => mret true
                             end
                        else mret true);
              if negb should then x else y) w0) = y w0).
  { intros B x y. destruct Hdue as [Hne | [Hnone | (interval & t0 & Hint & Ht0 & Hover)]].
    - by rewrite decide_False by done.
    - rewrite Hnone. by destruct (decide _).
    - rewrite Hint, Ht0. destruct (decide _); [| done].
      unfold seconds_since, mbind, M_bind, mret, M_ret. cbv beta.
      by rewrite decide_False by done. }
  assert (Hloop := for_in_sway_keys
            (λ x, Rmin 0 (- random_max - x)) (λ x, Rmax 0 (random_max - x))
            (λ x u, x + u) original_target_pose new
            (λ key, idx ← dict_get posedict_key_to_index key;
                    target_value ← getitem original_target_pose idx;
                    let random_upper := Rmax 0 (random_max - target_value) in
                    let random_lower := Rmin 0 (- random_max - target_value) in
                    random_value ← uniform random_lower random_upper;
                    setitem new idx (target_value + random_value))
            ltac:(done) SWAYPARTS idxs
            (set_heap (heap w ++ [base]) w0) base base Hkeys Hnodup).
  destruct Hloop as (target & Hloop & Hlen & Hout & Hin).
  { simpl. by apply lookup_heap_old. }
  { simpl. apply lookup_heap_new. }
  { intros idx Hidx. split; by apply Hlt. }
  exists target. eexists. cbv zeta.
  split; [| split; [| split; [| split; [| split; [done | split; [done |]]]]]].
  - unfold macrosway.
    erewrite bind_Return by reflexivity. cbv beta. fold w0.
    erewrite bind_Return by (unfold self; simpl; rewrite Ha; reflexivity). cbv beta.
    erewrite bind_Return by reflexivity. cbv beta.
    change (current_emotion w0) with (current_emotion w).
    rewrite Hdecide.
    erewrite bind_Return by (apply list_copy_Return; simpl; eassumption). cbv beta.
    change (length (heap w0)) with new.
    erewrite bind_Return by (exact Hloop). cbv beta.
    erewrite bind_Return by (unfold setattr; simpl; rewrite Ha; reflexivity). cbv beta.
    erewrite bind_Return by (unfold setattr; simpl; reflexivity). cbv beta.
    erewrite bind_Return by reflexivity. cbv beta.
    erewrite bind_Return by (unfold setattr; simpl; reflexivity). cbv beta.
    reflexivity.
  - simpl. unfold new. by rewrite insert_heap_new.
  - reflexivity.
  - pose proof (Hrng 5%nat). lra.
  - intros k idx x Hk Hx. split.
    + rewrite (Hin k idx x Hk Hx). reflexivity.
    + intros Hx_range. by apply swayed_in_range.
Qed.

Lemma jittered_range (v r : R) : -1 <= jittered v r <= 1.
Proof. unfold jittered. case_minmax; lra. Qed.

Lemma jittered_near (v r : R) :
  -1 <= v <= 1 → 0 <= r < 1 → Rabs (jittered v r - v) <= noise_max.
Proof.
  intros Hv Hr. unfold jittered, noise_max. apply Rabs_le.
  case_minmax; split; nra.
Qed.

(** X12: The jitter.  [add_microsway] writes into the list it is given: the
    channel of the k-th sway key becomes its value plus a noise drawn
    with the k-th random number, clamped to [-1, 1]; no other channel and
    no other list changes.  A channel that was within [-1, 1] moves by at
    most [noise_max]. *)
Theorem add_microsway_spec (w : World) (new_target_pose : loc) (v : list R)
    (idxs : list nat) :
  heap w !! new_target_pose = Some v →
  Forall2 (λ key idx, posedict_key_to_index !! key = Some idx) SWAYPARTS idxs →
  NoDup idxs →
  (∀ idx, idx ∈ idxs → (idx < length v)%nat) →
  (∀ n, 0 <= rng w n < 1) →
  ∃ v',
    add_microsway new_target_pose w
    = Return () (set_heap (<[new_target_pose := v']> (heap w))
                   (set_rng (λ n, rng w (5 + n)%nat) w)) ∧
    length v' = length v ∧
    (∀ i, i ∉ idxs → v' !! i = v !! i) ∧
    (∀ k idx x, idxs !! k = Some idx → v !! idx = Some x →
       v' !! idx = Some (jittered x (rng w k)) ∧
       -1 <= jittered x (rng w k) <= 1 ∧
       (-1 <= x <= 1 → Rabs (jittered x (rng w k) - x) <= noise_max)).
Proof.
  intros Hv Hkeys Hnodup Hlt Hrng.
  destruct (for_in_sway_keys
              (λ _, - noise_max) (λ _, noise_max)
              (λ x u, Rmax (-1) (Rmin (x + u) 1)) new_target_pose new_target_pose
              (λ key, idx ← dict_get posedict_key_to_index key;
                      v ← getitem new_target_pose idx;
                      n ← uniform (- noise_max) noise_max;
                      let x := v + n in
                      let x := Rmax (-1) (Rmin x 1) in
                      setitem new_target_pose idx x)
              ltac:(done) SWAYPARTS idxs w v v Hkeys Hnodup Hv Hv)
    as (v' & Hloop & Hlen & Hout & Hin).
  { intros idx Hidx. split; by apply Hlt. }
  exists v'. split; [exact Hloop |]. split; [done |]. split; [done |].
  intros k idx x Hk Hx. split; [| split].
  - rewrite (Hin k idx x Hk Hx). reflexivity.
  - apply jittered_range.
  - intros Hx_range. by apply jittered_near.
Qed.

End SwayProperties.

Section BlinkProperties.
Context `{Collaborators}.

(** The rate limit of [animate_blinking] applies: a blink interval is
    set, the emotion is not a "confusion" entered less than ten seconds
    ago, and the interval since the last blink is not over. *)
Definition blink_blocked (a : Animator) (ce : string) (time_now : Z) : Prop :=
  ∃ interval tc tb,
    blink_interval a = Some interval ∧
    last_emotion_change_timestamp a = Some tc ∧
    last_blink_timestamp a = Some tb ∧
    ¬ (ce = "confusion" ∧ IZR (time_now - tc) / 10 ^ 9 < 10) ∧
    IZR (time_now - tb) / 10 ^ 9 < interval.

(** The decision of lines 411-423, once the random number and the time
    are read. *)
Lemma should_blink_decided {B} (w0 : World) (a : Animator) (r : R) (time_now : Z)
    (x y : M B) :
  (is_Some (blink_interval a) →
   is_Some (last_emotion_change_timestamp a) ∧ is_Some (last_blink_timestamp a)) →
  let decision :=
    (should_blink ←
       match blink_interval a with
       | Some interval =>
           seconds_since_last_emotion_change ←
             seconds_since time_now (last_emotion_change_timestamp a);
           ce ← gets current_emotion;
           if decide (ce = "confusion" ∧ seconds_since_last_emotion_change < 10)
           then mret (bool_decide (r <= 0.03))
           else
             seconds_since_last_blink ← seconds_since time_now (last_blink_timestamp a);
             if decide (seconds_since_last_blink < interval)
             then mret false
             else mret (bool_decide (r <= 0.03))
       | None => mret (bool_decide (r <= 0.03))
       end;
     if negb should_blink then x else y) w0 in
  (r <= 0.03 → ¬ blink_blocked a (current_emotion w0) time_now → decision = y w0) ∧
  (¬ (r <= 0.03) ∨ blink_blocked a (current_emotion w0) time_now → decision = x w0).
Proof.
  intros Hts. cbv zeta. unfold blink_blocked.
  destruct (blink_interval a) as [interval |] eqn:Hinterval.
  - destruct Hts as [[tc Htc] [tb Htb]]; [done |]. rewrite Htc, Htb.
    unfold seconds_since, mbind, M_bind, mret, M_ret, gets. cbv beta.
    destruct (decide (current_emotion w0 = "confusion" ∧ _)) as [Hconf | Hconf].
    + destruct (bool_decide_reflect (r <= 0.03)) as [Hr | Hr]; simpl.
      * split; [done |]. intros [? | (? & ? & ? & ? & ? & ? & Hn & _)]; [done |].
        simplify_eq. by destruct Hn.
      * split; [done | done].
    + destruct (decide (_ < interval)) as [Hlt | Hge]; simpl.
      * split; [| done]. intros _ Hn. destruct Hn. by exists interval, tc, tb.
      * destruct (bool_decide_reflect (r <= 0.03)) as [Hr | Hr]; simpl.
        -- split; [done |]. intros [? | (? & ? & ? & ? & ? & ? & _ & Hlt)]; [done |].
           simplify_eq. by destruct Hge.
        -- split; [done | done].
  - unfold mbind, M_bind, mret, M_ret.
    destruct (bool_decide_reflect (r <= 0.03)) as [Hr | Hr]; simpl.
    + split; [done |]. by intros [? | (? & ? & ? & ? & _)].
    + split; [done | done].
Qed.

(** X13: No blink.  When the random draw is above 0.03 or the rate limit
    applies, [animate_blinking] hands back the pose object it was given;
    only the two oracles have moved. *)
Theorem animate_blinking_holds (w : World) (a : Animator) (pose : loc) :
  global_animator_instance w = Some a →
  (is_Some (blink_interval a) →
   is_Some (last_emotion_change_timestamp a) ∧ is_Some (last_blink_timestamp a)) →
  ¬ (rng w 0%nat <= 0.03) ∨ blink_blocked a (current_emotion w) (clock w 0%nat) →
  animate_blinking pose w
  = Return pose (set_clock (λ n, clock w (S n)) (set_rng (λ n, rng w (S n)) w)).
Proof.
  intros Ha Hts Hblocked. unfold animate_blinking.
  erewrite bind_Return by reflexivity. cbv beta zeta.
  erewrite bind_Return by reflexivity. cbv beta.
  erewrite bind_Return by (unfold self; simpl; rewrite Ha; reflexivity). cbv beta.
  set (w0 := set_clock _ _).
  by rewrite (proj2 (should_blink_decided w0 a _ _ _ _ Hts) Hblocked).
Qed.

(** X14: A blink.  When the random draw is at most 0.03 and the rate limit
    does not apply, [animate_blinking] returns a new list with both wink
    channels at 1 and every other channel as in the pose, which is not
    written to; the time of the blink is kept, and the next blink
    interval is between 2 and 5 seconds. *)
Theorem animate_blinking_blinks (w : World) (a : Animator) (pose : loc) (v : list R)
    (left_idx right_idx : nat) :
  global_animator_instance w = Some a →
  heap w !! pose = Some v →
  posedict_key_to_index !! "eye_wink_left_index" = Some left_idx →
  posedict_key_to_index !! "eye_wink_right_index" = Some right_idx →
  (left_idx < length v)%nat → (right_idx < length v)%nat →
  (is_Some (blink_interval a) →
   is_Some (last_emotion_change_timestamp a) ∧ is_Some (last_blink_timestamp a)) →
  rng w 0%nat <= 0.03 →
  ¬ blink_blocked a (current_emotion w) (clock w 0%nat) →
  0 <= rng w 1%nat < 1 →
  ∃ w',
    let interval := 2 + (5 - 2) * rng w 1%nat in
    let new_pose := <[right_idx := 1]> (<[left_idx := 1]> v) in
    animate_blinking pose w = Return (length (heap w)) w' ∧
    heap w' = heap w ++ [new_pose] ∧
    new_pose !! left_idx = Some 1 ∧ new_pose !! right_idx = Some 1 ∧
    (∀ i, i ≠ left_idx → i ≠ right_idx → new_pose !! i = v !! i) ∧
    global_animator_instance w'
    = Some (set_blink_interval (Some interval)
              (set_last_blink_timestamp (Some (clock w 0%nat)) a)) ∧
    2 <= interval <= 5.
Proof.
  intros Ha Hpose Hleft Hright Hl Hr Hts Hdraw Hfree Hrng.
  eexists. cbv zeta.
  split; [| split; [| split; [| split; [| split; [| split]]]]].
  - unfold animate_blinking.
    erewrite bind_Return by reflexivity. cbv beta zeta.
    erewrite bind_Return by reflexivity. cbv beta.
    erewrite bind_Return by (unfold self; simpl; rewrite Ha; reflexivity). cbv beta.
    set (w0 := set_clock _ _).
    rewrite (proj1 (should_blink_decided w0 a _ _ _ _ Hts) Hdraw Hfree).
    erewrite bind_Return by (apply list_copy_Return; simpl; eassumption). cbv beta.
    erewrite bind_Return.
    2: { simpl for_in.
         erewrite bind_Return.
         2: { erewrite bind_Return by (apply dict_get_Return; eassumption). cbv beta.
              apply setitem_Return with (v := v); [simpl; apply lookup_heap_new | done]. }
         cbv beta.
         erewrite bind_Return.
         2: { erewrite bind_Return by (apply dict_get_Return; eassumption). cbv beta.
              apply setitem_Return with (v := <[left_idx := 1]> v).
              - simpl. rewrite insert_heap_new. apply lookup_heap_new.
              - by rewrite length_insert. }
         reflexivity. }
    cbv beta.
    erewrite bind_Return by (unfold setattr; simpl; rewrite Ha; reflexivity). cbv beta.
    erewrite bind_Return by reflexivity. cbv beta.
    erewrite bind_Return by (unfold setattr; simpl; reflexivity). cbv beta.
    reflexivity.
  - simpl. by rewrite !insert_heap_new.
  - destruct (decide (left_idx = right_idx)) as [-> | Hne].
    + apply list_lookup_insert_eq. by rewrite length_insert.
    + rewrite list_lookup_insert_ne by done. by apply list_lookup_insert_eq.
  - apply list_lookup_insert_eq. by rewrite length_insert.
  - intros i Hi1 Hi2. by rewrite !list_lookup_insert_ne by done.
  - reflexivity.
  - lra.
Qed.

End BlinkProperties.

Section BreathingProperties.
Context `{Collaborators}.

Lemma breathing_value_first_cycle (cycle_pos : R) :
  0 <= cycle_pos < 1 → breathing_value cycle_pos = sin (cycle_pos * PI) ^ 2.
Proof.
  intros Hpos. unfold breathing_value, py_int. rewrite decide_True by lra.
  rewrite <- (Int_part_spec cycle_pos 0) by (simpl; lra).
  by rewrite Rminus_0_r.
Qed.

(** X15: One call of [animate_breathing] returns a new list that differs from
    the pose in the breathing channel only; the value written lies in
    [0, 1], and within the first cycle after the epoch it is
    sin(pi * cycle_pos)^2.  The pose is not written to.  The epoch moves
    to now exactly when more than one cycle has passed since it. *)
Theorem animate_breathing_spec (w : World) (a : Animator) (pose : loc) (v : list R)
    (idx : nat) :
  global_animator_instance w = Some a →
  heap w !! pose = Some v →
  posedict_key_to_index !! "breathing_index" = Some idx →
  (idx < length v)%nat →
  ∃ w',
    let time_now := clock w 0%nat in
    let cycle_pos := breathing_cycle_pos (breathing_epoch a) time_now in
    let new_pose := <[idx := breathing_value cycle_pos]> v in
    animate_breathing pose w = Return (length (heap w)) w' ∧
    heap w' = heap w ++ [new_pose] ∧
    heap w' !! pose = Some v ∧
    new_pose !! idx = Some (breathing_value cycle_pos) ∧
    (∀ i, i ≠ idx → new_pose !! i = v !! i) ∧
    0 <= breathing_value cycle_pos <= 1 ∧
    (0 <= cycle_pos < 1 → breathing_value cycle_pos = sin (cycle_pos * PI) ^ 2) ∧
    (breathing_epoch <$> global_animator_instance w'
     = Some (if decide (cycle_pos > 1) then time_now else breathing_epoch a)).
Proof.
  intros Ha Hpose Hidx Hlt. eexists. cbv zeta.
  split; [by apply (animate_breathing_Return w a pose v idx) |].
  simpl. split; [done |]. split; [by apply lookup_heap_old |].
  split; [by apply list_lookup_insert_eq |].
  split; [by intros i Hi; apply list_lookup_insert_ne |].
  split; [apply breathing_value_range |].
  split; [apply breathing_value_first_cycle |].
  by destruct (decide _).
Qed.

End BreathingProperties.

Section InterpolateProperties.
Context `{Collaborators}.


Lemma enumerate_from_app {A} (xs ys : list A) (n : nat) :
  enumerate_from n (xs ++ ys) = enumerate_from n xs ++ enumerate_from (n + length xs) ys.
Proof.
  revert n. induction xs as [| x xs IH]; intros n; simpl.
  - by rewrite Nat.add_0_r.
  - rewrite IH. do 3 f_equal. lia.
Qed.

Lemma for_in_app {A} (xs ys : list A) (body : A → M unit) (w : World) :
  for_in (xs ++ ys) body w = (for_in xs body;; for_in ys body) w.
Proof.
  revert w. induction xs as [| x xs IH]; intros w; simpl; [done |].
  unfold mbind, M_bind. destruct (body x w) as [[] w1 | e w1]; [| done].
  apply IH.
Qed.

(** X17: A pose or a target with fewer channels than there are keys: the
    loop of [interpolate_pose] runs out of the shorter list and raises
    [IndexError].  The pose and the target are as before; what is left
    behind is the partly filled copy. *)
Theorem interpolate_pose_short_raises (w : World) (pose target_pose : loc)
    (cur tgt : list R) (step : R) :
  heap w !! pose = Some cur →
  heap w !! target_pose = Some tgt →
  (length cur < length posedict_keys ∨ length tgt < length posedict_keys)%nat →
  ∃ w',
    interpolate_pose pose target_pose step w = Raised IndexError w' ∧
    heap w' !! pose = Some cur ∧ heap w' !! target_pose = Some tgt ∧
    length (heap w') = S (length (heap w)) ∧
    global_animator_instance w' = global_animator_instance w.
Proof.
  intros Hpose Htarget Hshort. unfold interpolate_pose.
  rewrite (bind_Return _ _ _ _ _ (list_copy_Return _ _ _ Hpose)).
  set (new := length (heap w)).
  match goal with |- context [for_in _ ?b] => set (body := b) end.
  assert (Hpose_lt : (pose < new)%nat) by (unfold new; eauto using lookup_lt_Some).
  assert (Htarget_lt : (target_pose < new)%nat)
    by (unfold new; eauto using lookup_lt_Some).
  set (m := (length cur `min` length tgt)%nat).
  assert (Hm : (m < length posedict_keys)%nat) by lia.
  destruct (lookup_lt_is_Some_2 posedict_keys m Hm) as [key Hkey].
  rewrite <- (take_drop_middle posedict_keys m key Hkey).
  unfold enumerate. rewrite enumerate_from_app. simpl enumerate_from at 2.
  assert (Hprefix : length (take m posedict_keys) = m) by (rewrite length_take; lia).
  rewrite Hprefix. simpl.
  destruct (for_in_enumerate_assign
              (λ h, h !! pose = Some cur ∧ h !! target_pose = Some tgt)
              (λ idx _ x, match cur !! idx, tgt !! idx with
                          | Some c, Some t => c + step * (t - c)
                          | _, _ => x
                          end)
              body new m)
    with (keys := take m posedict_keys) (idx := 0%nat)
         (w := set_heap (heap w ++ [cur]) w) (v := cur)
    as (next & Hloop & Hlen' & _ & _).
  - intros h v v' [Hp Ht] _ _. split; rewrite list_lookup_insert_ne by lia; done.
  - intros idx key' w1 v1 x Hidx [Hp Ht] Hnew Hx. unfold body.
    destruct (lookup_lt_is_Some_2 tgt idx) as [t Hti]; [lia |].
    destruct (lookup_lt_is_Some_2 cur idx) as [c Hci]; [lia |].
    rewrite Hti, Hci.
    rewrite (bind_Return _ _ _ _ _ (getitem_Return _ _ _ _ _ Ht Hti)).
    rewrite (bind_Return _ _ _ _ _ (getitem_Return _ _ _ _ _ Hp Hci)).
    apply setitem_Return; eauto using lookup_lt_Some.
  - simpl. split; by apply lookup_heap_old.
  - simpl. apply lookup_heap_new.
  - simpl. lia.
  - simpl. lia.
  - match type of Hloop with _ = Return () ?x => set (w1 := x) in * end.
    assert (Hp1 : heap w1 !! pose = Some cur).
    { unfold w1. simpl. rewrite list_lookup_insert_ne by lia. by apply lookup_heap_old. }
    assert (Ht1 : heap w1 !! target_pose = Some tgt).
    { unfold w1. simpl. rewrite list_lookup_insert_ne by lia. by apply lookup_heap_old. }
    assert (Hraise : body (m, key) w1 = Raised IndexError w1).
    { unfold body.
      destruct (tgt !! m) as [t |] eqn:Htm.
      - rewrite (bind_Return _ _ _ _ _ (getitem_Return _ _ _ _ _ Ht1 Htm)).
        assert (Hcm : cur !! m = None).
        { apply lookup_ge_None. apply lookup_lt_Some in Htm. lia. }
        unfold mbind, M_bind, getitem. by rewrite Hp1, Hcm.
      - unfold mbind, M_bind, getitem. by rewrite Ht1, Htm. }
    exists w1. split; [| split; [done | split; [done | split]]].
    + apply bind_Raised. rewrite for_in_app.
      rewrite (bind_Return _ _ _ _ _ Hloop).
      simpl for_in. by apply bind_Raised.
    + unfold w1. simpl. rewrite length_insert, length_app. simpl. lia.
    + done.
Qed.

End InterpolateProperties.

(** * Counting frames through the pipeline *)

Section PipelineCounts.
Context `{Collaborators}.

(** ** Frames through the stages

    The frames that went through each stage in the steps of [past], the
    latest first. *)

(** Rendered frames the animator handed over. *)
Definition handed_over (past : list (System * action)) : list ndarray :=
  omap (λ x, match x.2 with AnimatorPublish img => Some img | _ => None end) past.

(** Frames the encoder took out of the slot and encoded. *)
Definition taken (past : list (System * action)) : list EncodedFrame :=
  omap (λ x, match x.2 with EncoderTake f => Some f | _ => None end) past.

(** Frames the encoder took out of the slot and failed to encode. *)
Definition spoiled (past : list (System * action)) : list unit :=
  omap (λ x, match x.2 with EncoderRaise => Some () | _ => None end) past.

(** Encoded frames the encoder put into [image_bytes]. *)
Definition replaced (past : list (System * action)) : list EncodedFrame :=
  omap (λ x, match x.2 with EncoderPublish f => Some f | _ => None end) past.

(** Frames the feeds sent, once per send. *)
Definition sends (past : list (System * action)) : list EncodedFrame :=
  omap (λ x, match x.2 with FeedSent f => Some f | _ => None end) past.

#[global] Arguments handed_over : simpl never.
#[global] Arguments taken : simpl never.
#[global] Arguments spoiled : simpl never.
#[global] Arguments replaced : simpl never.
#[global] Arguments sends : simpl never.

(** The encoder holds an encoded frame it has not yet put into
    [image_bytes]. *)
Definition holds (pc : encoder_pc) : option EncodedFrame :=
  match pc with
  | EncoderWaiting new_frame _ | EncoderReady new_frame => Some new_frame
  | _ => None
  end.

Lemma handed_over_cons s l past :
  handed_over ((s, l) :: past)
  = match l with AnimatorPublish img => img :: handed_over past | _ => handed_over past end.
Proof. by destruct l. Qed.

Lemma taken_cons s l past :
  taken ((s, l) :: past)
  = match l with EncoderTake f => f :: taken past | _ => taken past end.
Proof. by destruct l. Qed.

Lemma spoiled_cons s l past :
  spoiled ((s, l) :: past)
  = match l with EncoderRaise => () :: spoiled past | _ => spoiled past end.
Proof. by destruct l. Qed.

Lemma replaced_cons s l past :
  replaced ((s, l) :: past)
  = match l with EncoderPublish f => f :: replaced past | _ => replaced past end.
Proof. by destruct l. Qed.

Lemma sends_cons s l past :
  sends ((s, l) :: past)
  = match l with FeedSent f => f :: sends past | _ => sends past end.
Proof. by destruct l. Qed.

Lemma frame_slot_Some (w : World) (a : Animator) :
  global_animator_instance w = Some a →
  frame_slot w = Some (new_frame_available a, result_image a).
Proof. intros Ha. unfold frame_slot. by rewrite Ha. Qed.

Lemma consume_frame_slot (w w' : World) (a : Animator) :
  global_animator_instance w = Some a → consume_frame w = Return () w' →
  frame_slot w' = Some (false, result_image a).
Proof.
  intros Ha Hrun. unfold consume_frame, setattr in Hrun. rewrite Ha in Hrun.
  injection Hrun as <-. reflexivity.
Qed.

(** The slot and the two ends of it: every frame handed over was taken
    out, except the one that is in the slot. *)
Lemma slot_balance (s0 : System) (past : list (System * action)) (s : System) :
  execution s0 past s →
  ∃ b img, frame_slot (world s) = Some (b, img) ∧
    length (handed_over past)
    = (length (taken past) + length (spoiled past) + if b then 1 else 0)%nat.
Proof.
  induction 1 as [Hinit | past s l s' Hexec (b & img & Hslot & Hcount) Hstep].
  - destruct Hinit as (_ & _ & _ & _ & _ & _ & a & Ha & Hflag).
    exists false, (result_image a). split; [| done].
    rewrite (frame_slot_Some _ a Ha). by rewrite Hflag.
  - assert (Hkeep : ∀ {A} (m : M A) o w',
              keeps frame_slot m → m (world s) = o → final o = w' →
              frame_slot w' = Some (b, img)).
    { intros A m o w' Hm <- <-. by rewrite Hm. }
    rewrite handed_over_cons, taken_cons, spoiled_cons.
    destruct Hstep; simpl in *;
      try (exists b, img; split; [done | done]);
      try (exists b, img; split;
           [ by eapply (Hkeep _ _ _ _ keeps_slot_render_frame) | done ]).
    + (* the hand-over *)
      destruct (pending_frame_invariant _ _ _ Hexec _ _ ltac:(eassumption))
        as (a & Ha & Hflag).
      rewrite (frame_slot_Some _ a Ha), Hflag in Hslot. injection Hslot as <- <-.
      destruct (publish_frame_Return (world s) a img0 t Ha) as (w1 & a' & Hrun & Ha' & Hflag' & Himg').
      assert (w' = w1) as -> by congruence.
      exists true, (Some img0). split; [| simpl in *; lia].
      rewrite (frame_slot_Some _ a' Ha'). by rewrite Hflag', Himg'.
    + (* a hand-over that raises: there is none *)
      destruct (pending_frame_invariant _ _ _ Hexec _ _ ltac:(eassumption))
        as (a & Ha & Hflag).
      destruct (publish_frame_Return (world s) a img0 t Ha) as (w1 & a' & Hrun & _).
      congruence.
    + (* the encoder takes the frame *)
      match goal with Ha : global_animator_instance _ = Some _ |- _ =>
        rewrite (frame_slot_Some _ _ Ha) in Hslot end.
      injection Hslot as <- <-.
      exists false, (result_image a). split; [by eapply consume_frame_slot |].
      match goal with Hflag : new_frame_available a = true |- _ =>
        rewrite Hflag in Hcount end.
      simpl in *. lia.
    + (* the encoder takes the frame and fails *)
      match goal with Ha : global_animator_instance _ = Some _ |- _ =>
        rewrite (frame_slot_Some _ _ Ha) in Hslot end.
      injection Hslot as <- <-.
      exists false, (result_image a). split; [by eapply consume_frame_slot |].
      match goal with Hflag : new_frame_available a = true |- _ =>
        rewrite Hflag in Hcount end.
      simpl in *. lia.
    + (* an API call *)
      exists b, img. split; [| done].
      by rewrite (keeps_slot_run_api c (world s)).
Qed.

(** The encoder thread: every frame it took was put into [image_bytes],
    except the one it holds; and once it failed on a frame it is
    stopped. *)
Lemma encoder_balance (s0 : System) (past : list (System * action)) (s : System) :
  execution s0 past s →
  length (taken past)
  = (length (replaced past) + if holds (encoder_thread s) is Some _ then 1 else 0)%nat ∧
  (spoiled past = [] ∨ (length (spoiled past) = 1%nat ∧ encoder_thread s = EncoderStopped)).
Proof.
  induction 1 as [Hinit | past s l s' Hexec [Hcount Hspoiled] Hstep].
  - destruct Hinit as (_ & -> & _). by split; [| left].
  - rewrite taken_cons, replaced_cons, spoiled_cons.
    destruct Hstep; simpl in *;
      repeat match goal with
             | Hpc : encoder_thread _ = _ |- _ => rewrite Hpc in *; clear Hpc
             end;
      simpl in *;
      try (split; [lia | done]);
      try (destruct Hspoiled as [-> | [? ?]]; [| done]; split; [lia |]; by (left + right)).
    destruct Hspoiled as [Hnone | [? ?]]; [| done].
    destruct (image_bytes s); simpl; (split; [lia | by left]).
Qed.

(** The frames in [image_bytes], one after the other, in a first launch
    (the mark starts as [None]).  The latest is the one that is there;
    while the encoder is not told to terminate, every earlier one was
    sent by a feed; and no frame is put there twice. *)
Lemma replaced_invariant (s0 : System) (past : list (System * action)) (s : System) :
  execution s0 past s →
  global_latest_frame_sent s0 = None →
  image_bytes s = head (replaced past) ∧
  (encoder_terminated s = false → ∀ f, f ∈ tail (replaced past) → f ∈ sends past) ∧
  NoDup (replaced past) ∧
  (∀ f, f ∈ replaced past → (frame_id f < next_id s)%nat) ∧
  (∀ n, holds (encoder_thread s) = Some n →
        (frame_id n < next_id s)%nat ∧
        ∀ f, f ∈ replaced past → (frame_id f < frame_id n)%nat).
Proof.
  intros Hexec Hfirst.
  induction Hexec as [Hinit | past s l s' Hexec IH Hstep].
  - destruct Hinit as (_ & Hpc & Hbytes & _).
    rewrite Hpc, Hbytes. simpl. repeat split; try done; try (intros; set_solver).
    apply NoDup_nil_2.
  - pose proof (encoder_invariant _ _ _ Hexec) as [_ Hready].
    destruct IH as (Hhead & Hsent & Hnodup & Hrange & Hholds).
    rewrite replaced_cons, sends_cons.
    destruct Hstep; simpl in *;
      try (split; [done |]; split; [done |]; split; [done |]; split; [done |];
           intros n Hn; apply Hholds; congruence).
    + (* the encoder takes a frame *)
      split; [done |]. split; [done |]. split; [done |].
      split; [intros f Hf; specialize (Hrange f Hf); lia |].
      intros n Hn.
      assert (n = new_frame) as -> by (destruct (image_bytes s); simpl in Hn; congruence).
      simpl. split; [lia |]. intros f Hf. by apply Hrange.
    + (* the wait is over *)
      split; [done |]. split; [done |]. split; [done |]. split; [done |].
      intros n [= <-]. apply Hholds.
      match goal with Hpc : encoder_thread s = _ |- _ => by rewrite Hpc end.
    + (* the encoder replaces the frame *)
      match goal with Hpc : encoder_thread s = _ |- _ =>
        destruct (Hholds new_frame ltac:(by rewrite Hpc)) as [Hid Hnew];
        pose proof (Hready new_frame) as Hready'; rewrite Hpc in Hready' end.
      split; [done |]. split; [| split; [| split; [| done]]].
      * intros Hterm f Hf.
        destruct (replaced past) as [| p rest] eqn:Hreplaced; [set_solver |].
        simpl in Hhead.
        apply elem_of_cons in Hf as [-> | Hf].
        -- destruct (Hready' p eq_refl Hhead) as [? | [_ Hp]]; [congruence |].
           destruct (Hp Hfirst) as [s1 Hs1].
           unfold sends. apply list_elem_of_omap. by exists (s1, FeedSent p).
        -- apply Hsent; [done |]. done.
      * apply NoDup_cons. split; [| done].
        intros Hin. specialize (Hnew _ Hin). lia.
      * intros f Hf. apply elem_of_cons in Hf as [-> | Hf]; [done | by apply Hrange].
    + (* a feed has sent a frame *)
      split; [done |]. split; [| split; [done | split; [done | done]]].
      intros Hterm f0 Hf0. apply elem_of_cons. right. by apply Hsent.
Qed.

(** X18: Every raw frame is taken out of the slot once: at any time the
    encoder has taken all the frames the animator handed over, or all
    but the one that is in the slot.  So no frame is encoded twice, and
    the animator is never more than one frame ahead of the encoder. *)
Theorem raw_frames_taken_once (s0 : System) (past : list (System * action)) (s : System) :
  execution s0 past s →
  ∃ a, global_animator_instance (world s) = Some a ∧
    length (handed_over past)
    = (length (taken past) + length (spoiled past)
       + if new_frame_available a then 1 else 0)%nat ∧
    (length (taken past) ≤ length (handed_over past))%nat ∧
    (length (handed_over past) ≤ length (taken past) + length (spoiled past) + 1)%nat ∧
    (length (spoiled past) ≤ 1)%nat.
Proof.
  intros Hexec.
  destruct (slot_balance _ _ _ Hexec) as (b & img & Hslot & Hcount).
  destruct (encoder_balance _ _ _ Hexec) as [_ Hspoiled].
  unfold frame_slot in Hslot.
  destruct (global_animator_instance (world s)) as [a |]; [| done].
  injection Hslot as <- _. exists a. split; [done |]. split; [done |].
  assert (length (spoiled past) ≤ 1)%nat by (destruct Hspoiled as [-> | [-> _]]; simpl; lia).
  destruct (new_frame_available a); lia.
Qed.

(** X19: Flow control end to end, in a first launch (the mark
    [global_latest_frame_sent] starts as [None]).  While the encoder is
    not told to terminate, a frame in [image_bytes] is replaced only
    after a feed has sent it, so the encoder has put at most one frame
    more into [image_bytes] than the feeds have sent, and the animator
    has rendered at most three frames more: one in [image_bytes], one
    held by the encoder, one in the slot. *)
Theorem rendering_bounded_by_sends (s0 : System) (past : list (System * action))
    (s : System) :
  execution s0 past s →
  global_latest_frame_sent s0 = None →
  encoder_terminated s = false →
  (length (replaced past) ≤ length (sends past) + 1)%nat ∧
  (length (taken past) + length (spoiled past) ≤ length (replaced past) + 1)%nat ∧
  (length (handed_over past) ≤ length (sends past) + 3)%nat.
Proof.
  intros Hexec Hfirst Hterm.
  destruct (replaced_invariant _ _ _ Hexec Hfirst) as (_ & Hsent & Hnodup & _).
  destruct (encoder_balance _ _ _ Hexec) as [Htaken Hspoiled].
  destruct (slot_balance _ _ _ Hexec) as (b & img & _ & Hcount).
  assert (Hreplaced : (length (replaced past) ≤ length (sends past) + 1)%nat).
  { destruct (replaced past) as [| f rest]; simpl in *; [lia |].
    apply NoDup_cons in Hnodup as [_ Hnodup].
    pose proof (submseteq_length _ _ (NoDup_submseteq _ _ Hnodup (Hsent Hterm))). lia. }
  assert (Hencoder : (length (taken past) + length (spoiled past)
                      ≤ length (replaced past) + 1)%nat).
  { destruct Hspoiled as [-> | [-> Hpc]]; [destruct (holds _); simpl; lia |].
    rewrite Hpc in Htaken. simpl in Htaken. lia. }
  split; [done |]. split; [done |]. destruct b; lia.
Qed.

(** ** Where a sent frame comes from *)

(** An execution up to one of its steps. *)
Lemma execution_split (s0 : System) (later earlier : list (System * action))
    (s1 : System) (l : action) (s : System) :
  execution s0 (later ++ (s1, l) :: earlier) s →
  execution s0 earlier s1 ∧ ∃ s2, step s1 l s2.
Proof.
  revert s. induction later as [| x later IH]; intros s Hexec; simpl in Hexec.
  - inversion Hexec; subst. eauto.
  - inversion Hexec; subst. eauto.
Qed.

(** [f] is the encoding of a frame the animator handed over. *)
Definition encoding_of_rendered (past : list (System * action)) (f : EncodedFrame) : Prop :=
  ∃ img, img ∈ handed_over past ∧ frame_bytes f = encode_png img.

Lemma encoding_of_rendered_mono past x f :
  encoding_of_rendered past f → encoding_of_rendered (x :: past) f.
Proof.
  intros (img & Hin & Hbytes). exists img. split; [| done].
  destruct x as [s l]. rewrite handed_over_cons. destruct l; set_solver.
Qed.

Lemma replaced_mono past x f : f ∈ replaced past → f ∈ replaced (x :: past).
Proof. destruct x as [s l]. rewrite replaced_cons. destruct l; set_solver. Qed.

(** What is in the slot was handed over; what the encoder holds, what
    is in [image_bytes] and what the feeds are sending was encoded from
    a frame that was handed over, and the latter two were put into
    [image_bytes]. *)
Lemma provenance (s0 : System) (past : list (System * action)) (s : System) :
  execution s0 past s →
  (∀ a img, global_animator_instance (world s) = Some a →
     new_frame_available a = true → result_image a = Some img →
     img ∈ handed_over past) ∧
  (∀ n, holds (encoder_thread s) = Some n → encoding_of_rendered past n) ∧
  (∀ f, image_bytes s = Some f ∨ f ∈ feeds s →
     f ∈ replaced past ∧ encoding_of_rendered past f).
Proof.
  induction 1 as [Hinit | past s l s' Hexec (Hslot & Hholds & Hout) Hstep].
  - destruct Hinit as (_ & Hpc & Hbytes & Hfeeds & _ & _ & a0 & Ha0 & Hflag0).
    rewrite Hpc, Hbytes, Hfeeds. split; [| split].
    + intros a img Ha Hflag. congruence.
    + done.
    + intros f [? | ?]; [done | set_solver].
  - assert (Hslot_keep : frame_slot (world s') = frame_slot (world s) →
              ∀ a img, global_animator_instance (world s') = Some a →
                new_frame_available a = true → result_image a = Some img →
                img ∈ handed_over ((s, l) :: past)).
    { intros Hsame a img Ha Hflag Himg.
      rewrite (frame_slot_Some _ a Ha) in Hsame. unfold frame_slot in Hsame.
      destruct (global_animator_instance (world s)) as [a1 |]; [| done].
      injection Hsame as Hflag1 Himg1.
      rewrite handed_over_cons.
      assert (img ∈ handed_over past) by (apply (Hslot a1); congruence).
      destruct l; set_solver. }
    assert (Hholds_keep : encoder_thread s' = encoder_thread s →
              ∀ n, holds (encoder_thread s') = Some n →
                   encoding_of_rendered ((s, l) :: past) n).
    { intros -> n Hn. by apply encoding_of_rendered_mono, Hholds. }
    assert (Hout_keep : image_bytes s' = image_bytes s →
              (∀ f, f ∈ feeds s' → image_bytes s = Some f ∨ f ∈ feeds s) →
              ∀ f, image_bytes s' = Some f ∨ f ∈ feeds s' →
                   f ∈ replaced ((s, l) :: past) ∧ encoding_of_rendered ((s, l) :: past) f).
    { intros -> Hfeeds f Hf.
      assert (Hold : image_bytes s = Some f ∨ f ∈ feeds s) by (destruct Hf; eauto).
      destruct (Hout f Hold).
      split; [by apply replaced_mono | by apply encoding_of_rendered_mono]. }
    assert (Hout_same : image_bytes s' = image_bytes s → feeds s' = feeds s →
              ∀ f, image_bytes s' = Some f ∨ f ∈ feeds s' →
                   f ∈ replaced ((s, l) :: past) ∧ encoding_of_rendered ((s, l) :: past) f).
    { intros Hb Hf. apply Hout_keep; [done |]. rewrite Hf. eauto. }
    destruct Hstep; simpl in *.
    + split; [| split; [by apply Hholds_keep | by apply Hout_same]].
      apply Hslot_keep. simpl.
      match goal with Hrun : render_frame _ = _ |- _ =>
        pose proof (keeps_slot_render_frame (world s)) as Hk; by rewrite Hrun in Hk end.
    + split; [| split; [by apply Hholds_keep | by apply Hout_same]].
      apply Hslot_keep. simpl.
      match goal with Hrun : render_frame _ = _ |- _ =>
        pose proof (keeps_slot_render_frame (world s)) as Hk; by rewrite Hrun in Hk end.
    + split; [| split; [by apply Hholds_keep | by apply Hout_same]].
      intros a1 img1 Ha1 Hflag1 Himg1. rewrite handed_over_cons.
      destruct (pending_frame_invariant _ _ _ Hexec _ _ ltac:(eassumption))
        as (a & Ha & Hflag).
      destruct (publish_frame_Return (world s) a img t Ha)
        as (w1 & a' & Hrun & Ha' & Hflag' & Himg').
      assert (w' = w1) as -> by congruence.
      assert (img1 = img) as -> by congruence. set_solver.
    + split; [| split; [by apply Hholds_keep | by apply Hout_same]].
      apply Hslot_keep. simpl.
      match goal with Hrun : render_frame _ = _ |- _ =>
        pose proof (keeps_slot_render_frame (world s)) as Hk; by rewrite Hrun in Hk end.
    + destruct (pending_frame_invariant _ _ _ Hexec _ _ ltac:(eassumption))
        as (a & Ha & Hflag).
      destruct (publish_frame_Return (world s) a img t Ha) as (w1 & a' & Hrun & _).
      congruence.
    + split; [by apply Hslot_keep | split; [by apply Hholds_keep | by apply Hout_same]].
    + split; [by apply Hslot_keep | split; [by apply Hholds_keep | by apply Hout_same]].
    + split; [by apply Hslot_keep | split; [by apply Hholds_keep | by apply Hout_same]].
    + (* the encoder takes the frame *)
      split; [| split; [| by apply Hout_same]].
      * intros a1 img1 Ha1 Hflag1.
        match goal with
        | Ha : global_animator_instance (world s) = Some _,
          Hrun : consume_frame (world s) = _ |- _ =>
            pose proof (consume_frame_slot _ _ _ Ha Hrun) as Hs
        end.
        rewrite (frame_slot_Some _ a1 Ha1) in Hs. congruence.
      * intros n Hn.
        assert (n = new_frame) as -> by (destruct (image_bytes s); simpl in Hn; congruence).
        exists image_rgba. split; [| done].
        rewrite handed_over_cons. by apply (Hslot a).
    + split; [by apply Hslot_keep | split; [by apply Hholds_keep | by apply Hout_same]].
    + (* the wait is over *)
      split; [by apply Hslot_keep | split; [| by apply Hout_same]].
      intros n [= <-]. apply encoding_of_rendered_mono, Hholds.
      match goal with Hpc : encoder_thread s = _ |- _ => by rewrite Hpc end.
    + (* the encoder replaces the frame *)
      split; [by apply Hslot_keep | split; [done |]].
      assert (Hnew : encoding_of_rendered past new_frame).
      { apply Hholds. match goal with Hpc : encoder_thread s = _ |- _ => by rewrite Hpc end. }
      intros f [[= <-] | Hf].
      * rewrite replaced_cons. split; [set_solver | by apply encoding_of_rendered_mono].
      * destruct (Hout f (or_intror Hf)).
        split; [by apply replaced_mono | by apply encoding_of_rendered_mono].
    + (* the encoder takes the frame and fails *)
      split; [| split; [done | by apply Hout_same]].
      intros a1 img1 Ha1 Hflag1.
      match goal with
      | Ha : global_animator_instance (world s) = Some _,
        Hrun : consume_frame (world s) = _ |- _ =>
          pose proof (consume_frame_slot _ _ _ Ha Hrun) as Hs
      end.
      rewrite (frame_slot_Some _ a1 Ha1) in Hs. congruence.
    + split; [by apply Hslot_keep | split; [by apply Hholds_keep | by apply Hout_same]].
    + split; [by apply Hslot_keep | split; [done | by apply Hout_same]].
    + (* a feed reads the frame *)
      split; [by apply Hslot_keep | split; [by apply Hholds_keep |]].
      apply Hout_keep; [done |]. intros f0 Hf0. set_solver.
    + (* a feed has sent its frame *)
      split; [by apply Hslot_keep | split; [by apply Hholds_keep |]].
      apply Hout_keep; [done |]. intros f0 Hf0.
      match goal with Hfeeds : feeds s = _ |- _ => rewrite Hfeeds end. set_solver.
    + split; [by apply Hslot_keep | split; [by apply Hholds_keep |]].
      apply Hout_keep; [done |]. intros f0 Hf0.
      match goal with Hfeeds : feeds s = _ |- _ => rewrite Hfeeds end. set_solver.
    + split; [| split; [by apply Hholds_keep | by apply Hout_same]].
      apply Hslot_keep. simpl. by rewrite (keeps_slot_run_api c (world s)).
Qed.

(** X20: Whatever a feed sends is a frame the encoder had put into
    [image_bytes] before, and the encoding of a frame the animator had
    rendered and handed over before. *)
Theorem sent_frames_were_rendered (s0 : System) (later earlier : list (System * action))
    (s1 s : System) (f : EncodedFrame) :
  execution s0 (later ++ (s1, FeedSent f) :: earlier) s →
  f ∈ replaced earlier ∧
  ∃ img, img ∈ handed_over earlier ∧ frame_bytes f = encode_png img.
Proof.
  intros Hexec.
  destruct (execution_split _ _ _ _ _ _ Hexec) as (Hearlier & s2 & Hstep).
  destruct (provenance _ _ _ Hearlier) as (_ & _ & Hout).
  inversion Hstep; subst. apply Hout. right.
  match goal with Hfeeds : feeds s1 = _ |- _ => rewrite Hfeeds end. set_solver.
Qed.

(** ** A thread that raised *)

(** The steps of the animator thread, and those of the encoder thread. *)
Definition animator_acts (l : action) : bool :=
  match l with
  | AnimatorSkip | AnimatorRender | AnimatorPublish _ | AnimatorRaise | AnimatorLeave => true
  | _ => false
  end.

Definition encoder_acts (l : action) : bool :=
  match l with
  | EncoderSkip | EncoderTake _ | EncoderPoll | EncoderProceed | EncoderPublish _
  | EncoderRaise | EncoderLeave => true
  | _ => false
  end.

(** X21: An exception ends the thread it is raised in ([raise] in
    [animator_update] and [encoder_update]): after it the animator takes
    no step any more, so no further frame is handed over; and after an
    exception in the encoder the encoder takes no step any more, so
    [image_bytes] stays as it is, whatever else happens. *)
Theorem raised_thread_never_acts (s0 : System) (later earlier : list (System * action))
    (s1 s : System) :
  (execution s0 (later ++ (s1, AnimatorRaise) :: earlier) s →
   animator_thread s = AnimatorStopped ∧
   Forall (λ x, animator_acts x.2 = false) later ∧
   handed_over (later ++ (s1, AnimatorRaise) :: earlier) = handed_over earlier) ∧
  (execution s0 (later ++ (s1, EncoderRaise) :: earlier) s →
   encoder_thread s = EncoderStopped ∧
   Forall (λ x, encoder_acts x.2 = false) later ∧
   image_bytes s = image_bytes s1).
Proof.
  split.
  - revert s. induction later as [| [s2 l] later IH]; intros s Hexec; simpl in Hexec.
    + inversion Hexec as [| ? ? ? ? _ Hstep]; subst.
      split; [by inversion Hstep |]. split; [done |]. simpl. by rewrite handed_over_cons.
    + inversion Hexec as [| ? ? ? ? Hprev Hstep]; subst.
      destruct (IH _ Hprev) as (Hpc & Hlater & Hcount).
      simpl. rewrite handed_over_cons.
      inversion Hstep; subst; simpl in *; try congruence;
        (split; [done |]; split; [by apply Forall_cons | done]).
  - revert s. induction later as [| [s2 l] later IH]; intros s Hexec; simpl in Hexec.
    + inversion Hexec as [| ? ? ? ? _ Hstep]; subst.
      by inversion Hstep.
    + inversion Hexec as [| ? ? ? ? Hprev Hstep]; subst.
      destruct (IH _ Hprev) as (Hpc & Hlater & Hbytes).
      inversion Hstep; subst; simpl in *; try congruence;
        (split; [done |]; split; [by apply Forall_cons | done]).
Qed.

(** ** Termination *)

(** The steps that start a tick of the animator, and those that start
    a round of the encoder or keep it waiting. *)
Definition starts_tick (l : action) : bool :=
  match l with AnimatorSkip | AnimatorRender => true | _ => false end.

Definition starts_round (l : action) : bool :=
  match l with EncoderSkip | EncoderTake _ | EncoderPoll => true | _ => false end.

(** X22: [exit] sets the termination flag for good.  After [Animator.exit]
    no tick starts, and at most the one frame that was being rendered is
    still handed over; after [Encoder.exit] no round starts and the wait
    for the feed is given up, and at most the one frame the encoder held
    is still put into [image_bytes]. *)
Theorem exit_stops_the_loops (s0 : System) (later earlier : list (System * action))
    (s1 s : System) :
  (execution s0 (later ++ (s1, AnimatorExit) :: earlier) s →
   animator_terminated s = true ∧
   Forall (λ x, starts_tick x.2 = false) later ∧
   (length (handed_over later) ≤ 1)%nat) ∧
  (execution s0 (later ++ (s1, EncoderExit) :: earlier) s →
   encoder_terminated s = true ∧
   Forall (λ x, starts_round x.2 = false) later ∧
   (length (replaced later) ≤ 1)%nat).
Proof.
  split.
  - intros Hexec.
    cut (animator_terminated s = true ∧
         Forall (λ x, starts_tick x.2 = false) later ∧
         (length (handed_over later)
          + (if animator_thread s is AnimatorRendered _ _ then 1 else 0) ≤ 1)%nat).
    { intros (? & ? & ?). split; [done |]. split; [done |]. lia. }
    revert s Hexec. induction later as [| [s2 l] later IH]; intros s Hexec; simpl in Hexec.
    + inversion Hexec as [| ? ? ? ? _ Hstep]; subst. inversion Hstep; subst.
      split; [done |]. split; [done |]. simpl. destruct (animator_thread s1); simpl; lia.
    + inversion Hexec as [| ? ? ? ? Hprev Hstep]; subst.
      destruct (IH _ Hprev) as (Hterm & Hlater & Hcount).
      rewrite handed_over_cons.
      inversion Hstep; subst; simpl in *; try congruence;
        repeat match goal with
               | Hpc : animator_thread _ = _ |- _ => rewrite Hpc in *; clear Hpc
               end;
        simpl in *;
        (split; [done |]; split; [by apply Forall_cons |]; lia).
  - intros Hexec.
    cut (encoder_terminated s = true ∧
         Forall (λ x, starts_round x.2 = false) later ∧
         (length (replaced later)
          + (if holds (encoder_thread s) is Some _ then 1 else 0) ≤ 1)%nat).
    { intros (? & ? & ?). split; [done |]. split; [done |]. lia. }
    revert s Hexec. induction later as [| [s2 l] later IH]; intros s Hexec; simpl in Hexec.
    + inversion Hexec as [| ? ? ? ? _ Hstep]; subst. inversion Hstep; subst.
      split; [done |]. split; [done |]. simpl. destruct (holds _); simpl; lia.
    + inversion Hexec as [| ? ? ? ? Hprev Hstep]; subst.
      destruct (IH _ Hprev) as (Hterm & Hlater & Hcount).
      rewrite replaced_cons.
      inversion Hstep; subst; simpl in *; try congruence;
        repeat match goal with
               | Hpc : encoder_thread _ = _ |- _ => rewrite Hpc in *; clear Hpc
               end;
        simpl in *;
        (split; [done |]; split; [by apply Forall_cons |]; lia).
Qed.

(** ** The wait of the encoder *)

(** X23: The wait of line 715 is no deadlock: the frame the encoder waits for
    is the one in [image_bytes], so a feed can read and send it, after
    which the encoder puts the new frame into [image_bytes]. *)
Theorem encoder_wait_can_end (s0 : System) (past : list (System * action)) (s : System)
    (new_frame previous_frame : EncodedFrame) :
  execution s0 past s →
  encoder_thread s = EncoderWaiting new_frame previous_frame →
  image_bytes s = Some previous_frame ∧
  ∃ s1 s2 s3 s4,
    execution s0 ((s3, EncoderPublish new_frame) :: (s2, EncoderProceed)
                  :: (s1, FeedSent previous_frame) :: (s, FeedRead previous_frame)
                  :: past) s4 ∧
    global_latest_frame_sent s4 = Some (frame_id previous_frame) ∧
    image_bytes s4 = Some new_frame ∧
    encoder_thread s4 = EncoderIdle.
Proof.
  intros Hexec Hpc.
  destruct (encoder_invariant _ _ _ Hexec) as [Hwait _].
  pose proof (Hwait _ _ Hpc) as Hbytes. split; [done |].
  eexists _, _, _, _. split; [| split; [| split]].
  - eapply execution_step; [eapply execution_step; [eapply execution_step;
      [eapply execution_step; [exact Hexec |] |] |] |].
    + apply step_feed_read. exact Hbytes.
    + by apply (step_feed_sent _ _ [] (feeds s)).
    + eapply step_encoder_proceed; [exact Hpc |]. simpl. by intros [Hne _].
    + by apply step_encoder_publish.
  - reflexivity.
  - reflexivity.
  - reflexivity.
Qed.

End PipelineCounts.

(** * The pace of the feed *)

Section FeedProperties.
Context `{Collaborators}.
Import result_feed.

(** Before the encoder has a frame the feed sends nothing and sleeps a
    tenth of a second; the first frame it finds is sent at once. *)
Lemma generate_iteration_start (w : World) (f : EncodedFrame) :
  generate_iteration None generate_start w = Return (Sleep 0.1, generate_start) w ∧
  ∃ l w',
    generate_iteration (Some f) generate_start w = Return (Yield f, l) w' ∧
    last_frame_send_complete_time l = Some (clock w 2%nat) ∧
    send_duration_sec l = IZR (clock w 1%nat - clock w 0%nat) / 10 ^ 9 ∧
    send_duration_statistics l = [].
Proof.
  split; [reflexivity |].
  unfold generate_iteration, generate_start. cbv zeta. cbn [last_frame_send_complete_time].
  erewrite bind_Return by reflexivity. cbv beta.
  erewrite bind_Return.
  2: { rewrite decide_True by lra. reflexivity. }
  cbv beta iota.
  erewrite bind_Return by reflexivity. cbv beta.
  erewrite bind_Return by reflexivity. cbv beta. cbn [last_report_time].
  destruct (animation_running _ && true); eexists _, _; (split; [reflexivity |]); done.
Qed.

(** The time left until the next frame is due, at [time_now]. *)
Definition time_until_frame_deadline (l : generate_locals) (last time_now : Z) : R :=
  1 / TARGET_FPS - IZR (time_now - last) / 10 ^ 9 - 2 * send_duration_sec l.

(** A round after a send, with a frame there.  [timing_kept] says that
    the round left the time of the last send and the send duration as
    they were. *)
Definition timing_kept (l l' : generate_locals) : Prop :=
  last_frame_send_complete_time l' = last_frame_send_complete_time l ∧
  send_duration_sec l' = send_duration_sec l.

Lemma generate_iteration_paced (w : World) (f : EncodedFrame) (l : generate_locals)
    (last : Z) :
  last_frame_send_complete_time l = Some last →
  let d := time_until_frame_deadline l last (clock w 0%nat) in
  ∃ l' w',
    generate_iteration (Some f) l w
    = Return (if decide (d <= 0) then Yield f else Sleep d, l') w' ∧
    if decide (d <= 0)
    then last_frame_send_complete_time l' = Some (clock w 3%nat) ∧
         send_duration_sec l' = IZR (clock w 2%nat - clock w 1%nat) / 10 ^ 9
    else timing_kept l l'.
Proof.
  intros Hlast. cbv zeta. unfold generate_iteration. cbv zeta. rewrite Hlast.
  erewrite bind_Return by (erewrite bind_Return by reflexivity; reflexivity).
  cbv beta. fold (time_until_frame_deadline l last (clock w 0%nat)).
  set (d := time_until_frame_deadline _ _ _).
  destruct (decide (d <= 0)) as [Hdue | Hearly].
  - erewrite bind_Return.
    2: { erewrite bind_Return by reflexivity. cbv beta.
         erewrite bind_Return by reflexivity. cbv beta.
         erewrite bind_Return by reflexivity. reflexivity. }
    cbv beta iota.
    erewrite bind_Return by reflexivity. cbv beta.
    erewrite bind_Return by reflexivity. cbv beta.
    match goal with |- context [if ?b then _ else _] => destruct b end;
      eexists _, _; (split; [reflexivity |]); done.
  - erewrite bind_Return by reflexivity. cbv beta iota.
    erewrite bind_Return by reflexivity. cbv beta.
    erewrite bind_Return by reflexivity. cbv beta.
    match goal with |- context [if ?b then _ else _] => destruct b end;
      eexists _, _; (split; [reflexivity |]); done.
Qed.

(** X24: The pace of the feed.  Without a frame a round sends nothing and
    sleeps a tenth of a second; the first frame is sent at once.  After a
    send, a round with a frame there sends exactly when 1/25 s, less
    twice the duration of the last send, have passed since that send was
    complete; otherwise it sleeps for the time that is left and keeps its
    timing, and the round after a sleep of at least that length sends. *)
Theorem feed_pacing (w : World) (f : EncodedFrame) (l : generate_locals) :
  generate_iteration None l w = Return (Sleep 0.1, l) w ∧
  (∃ l' w', generate_iteration (Some f) generate_start w = Return (Yield f, l') w' ∧
            last_frame_send_complete_time l' = Some (clock w 2%nat)) ∧
  ∀ last, last_frame_send_complete_time l = Some last →
    let d := time_until_frame_deadline l last (clock w 0%nat) in
    ∃ l' w',
      generate_iteration (Some f) l w
      = Return (if decide (d <= 0) then Yield f else Sleep d, l') w' ∧
      (0 < d →
       timing_kept l l' ∧
       ∀ (w2 : World) (f2 : EncodedFrame),
         d <= IZR (clock w2 0%nat - clock w 0%nat) / 10 ^ 9 →
         ∃ l2 w3, generate_iteration (Some f2) l' w2 = Return (Yield f2, l2) w3).
Proof.
  split; [reflexivity |]. split.
  { destruct (generate_iteration_start w f) as (_ & l' & w' & Hrun & Hlast & _). eauto. }
  intros last Hlast. cbv zeta.
  destruct (generate_iteration_paced w f l last Hlast) as (l' & w' & Hrun & Hl').
  exists l', w'. split; [done |]. intros Hd.
  rewrite decide_False in Hl' by lra. split; [done |]. intros w2 f2 Hslept.
  destruct Hl' as [Hlast' Hsend'].
  destruct (generate_iteration_paced w2 f2 l' last ltac:(congruence))
    as (l2 & w3 & Hrun2 & _).
  exists l2, w3. rewrite Hrun2. rewrite decide_True; [done |].
  unfold time_until_frame_deadline in *. rewrite Hsend'.
  rewrite !minus_IZR in *. lra.
Qed.

End FeedProperties.

(** * Further runs on concrete states *)

(** [extend_run H H' tac]: the execution [H] goes on by the step that
    [tac] justifies; [H'] is the longer execution. *)
Ltac extend_run H H' tac :=
  pose proof H as H'; eapply execution_step in H'; [| tac].

Section MoreRuns.

(** ** The control surface and the tick *)

(** An animator whose only preset is "joy". *)
Definition joy_only_animator : @Animator demo :=
  set_emotions (<["joy" := ∅]> ∅) demo_animator.

Lemma setEmotion_without_neutral_breaks_rendering_witness :
  ∃ w1 w2,
    @setEmotion demo [Item "anger" 0.9] (demo_world [] (λ _, 0%Z) (λ _, 0.5) joy_only_animator)
    = Return "emotion set to neutral" w1 ∧
    current_emotion w1 = "neutral" ∧
    render_animation_frame w1 = Raised KeyError w2 ∧
    frame_slot w2 = frame_slot (demo_world [] (λ _, 0%Z) (λ _, 0.5) joy_only_animator).
Proof.
  apply (setEmotion_without_neutral_breaks_rendering (H := demo)
           (demo_world [] (λ _, 0%Z) (λ _, 0.5) joy_only_animator) joy_only_animator
           [Item "anger" 0.9] () eq_refl).
  - vm_compute. intros [x Hx]. discriminate.
  - vm_compute. reflexivity.
  - reflexivity.
  - reflexivity.
  - reflexivity.
  - reflexivity.
Defined.

Lemma unload_pauses_until_upload_witness :
  let es := [Tick; Call CallStartTalking; Call (CallSetEmotion [Item "joy" 0.9]); Tick] in
  let w := world pipeline_start in
  let w' := run_events es (final (unload w)) in
  @unload demo w = Return "Animation Paused" (final (unload w)) ∧
  animation_running w' = false ∧
  render_animation_frame w' = Return () w' ∧
  frame_slot w' = frame_slot w ∧
  heap w' = heap w.
Proof.
  apply (unload_pauses_until_upload (H := demo)). by repeat constructor.
Defined.

Lemma setEmotion_keeps_rendering_witness :
  ∃ msg w1 w2 a2 img,
    @setEmotion demo [Item "joy" 0.8; Item "neutral" 0.2] (world pipeline_start)
    = Return msg w1 ∧
    is_Some (emotions demo_animator !! current_emotion w1) ∧
    ((highest [Item "joy" 0.8; Item "neutral" 0.2]).2 = Some (current_emotion w1)
     ∨ current_emotion w1 = "neutral") ∧
    render_animation_frame w1 = Return () w2 ∧
    global_animator_instance w2 = Some a2 ∧
    new_frame_available a2 = true ∧ result_image a2 = Some img ∧
    current_emotion w2 = current_emotion w1.
Proof.
  apply (setEmotion_keeps_rendering (H := demo) (world pipeline_start) demo_animator
           _ demo_table_ok pipeline_start_well_formed eq_refl eq_refl).
  vm_compute. by eexists.
Defined.

Lemma render_animation_frame_fills_slot_witness :
  ∃ w' a',
    @render_animation_frame demo (world pipeline_start) = Return () w' ∧ well_formed w' ∧
    global_animator_instance w' = Some a' ∧ new_frame_available a' = true ∧
    (new_frame_available demo_animator = true → w' = world pipeline_start) ∧
    (new_frame_available demo_animator = false →
     ∃ source channels, source_image demo_animator = Some source ∧
                        result_image a' = Some (pose_image source channels)).
Proof.
  exact (render_animation_frame_fills_slot (H := demo) (world pipeline_start) demo_animator
           demo_table_ok pipeline_start_well_formed eq_refl).
Defined.

(** X7 with an image of 400 x 600 without alpha channel pending. *)
Lemma load_image_spec_witness :
  let w := @set_global_reload_image demo (Some false) (world pipeline_start) in
  ∃ w' a',
    load_image None w = Return () w' ∧
    global_reload_image w' = None ∧
    global_animator_instance w' = Some a' ∧
    frame_slot w' = frame_slot w ∧
    animation_running w' = animation_running w ∧
    source_image a' = None ∧
    log w' = log w ++ [LogRecord INFO "Resizing Char Card to work"]
             ++ [LogRecord ERROR "load_image: image must have alpha channel"].
Proof.
  exact (load_image_spec (H := demo) None
           (@set_global_reload_image demo (Some false) (world pipeline_start))
           demo_animator eq_refl).
Defined.

Lemma upload_without_alpha_stops_rendering_witness :
  ∃ w1 w2,
    @talkinghead_load_file demo (inr false) (world pipeline_start) = Return "OK" w1 ∧
    render_animation_frame w1 = Return () w2 ∧
    global_animator_instance w2 = Some (set_source_image None demo_animator) ∧
    global_reload_image w2 = None ∧
    LogRecord ERROR "load_image: image must have alpha channel" ∈ log w2 ∧
    render_animation_frame w2 = Return () w2.
Proof.
  exact (upload_without_alpha_stops_rendering (H := demo) (world pipeline_start)
           demo_animator (inr false) false eq_refl eq_refl eq_refl eq_refl).
Defined.

(** The start of a launch, paused. *)
Definition paused_world : @World demo := final (unload (world pipeline_start)).

Lemma paused_world_resumed : well_formed (set_animation_running true paused_world).
Proof.
  destruct pipeline_start_well_formed as (Hheap & _ & Hreload & a & Ha & Hok).
  split; [done |]. split; [done |]. split; [done |]. by exists a.
Qed.

(** An upload that is no image, on the paused state: the placeholder is
    loaded. *)
Lemma upload_then_tick_renders_witness :
  ∃ w1 w2 a2 (channels : list R),
    @talkinghead_load_file demo (inl UnidentifiedImageError) paused_world
    = Return "OK" w1 ∧
    global_reload_image w1 = Some inital_png ∧
    render_animation_frame w1 = Return () w2 ∧
    animation_running w2 = true ∧ global_reload_image w2 = None ∧
    global_animator_instance w2 = Some a2 ∧
    new_frame_available a2 = true ∧
    result_image a2 = Some (@pose_image demo () channels).
Proof.
  exact (upload_then_tick_renders (H := demo) paused_world demo_animator
           (inl UnidentifiedImageError) inital_png ()
           demo_table_ok paused_world_resumed eq_refl eq_refl eq_refl eq_refl).
Defined.

(** A truncated upload, on the paused state. *)
Lemma failed_upload_resumes_animation_witness :
  ∃ w1 w2 a2 source (channels : list R),
    @talkinghead_load_file demo (inl OSError) paused_world = Raised OSError w1 ∧
    animation_running w1 = true ∧ global_reload_image w1 = None ∧
    global_animator_instance w1 = Some demo_animator ∧
    render_animation_frame w1 = Return () w2 ∧
    global_animator_instance w2 = Some a2 ∧
    new_frame_available a2 = true ∧
    source_image demo_animator = Some source ∧
    result_image a2 = Some (@pose_image demo source channels).
Proof.
  apply (failed_upload_resumes_animation (H := demo) paused_world demo_animator OSError).
  - discriminate.
  - exact demo_table_ok.
  - exact paused_world_resumed.
  - reflexivity.
  - reflexivity.
Defined.

(** A state before the launch: no animator, the animation off. *)
Definition boot_world : @World demo :=
  {| heap := []; clock := λ _, 0%Z; rng := λ _, 0.5; log := [];
     animation_running := false; current_emotion := "neutral"; is_talking := false;
     global_reload_image := None; global_animator_instance := None |}.

Lemma first_frame_after_upload_witness :
  let presets := emotions demo_animator in
  ∃ a w0,
    @Animator__init__ demo demo_animator presets boot_world = Return a w0 ∧
    (∀ obj', Animator__init__ obj' presets boot_world = Return a w0) ∧
    breathing_epoch a = clock boot_world 0%nat ∧ emotions a = presets ∧
    let w1 := set_global_animator_instance (Some (set_source_image (Some (() : @tensor demo)) a)) w0 in
    (animation_running boot_world = false → render_animation_frame w1 = Return () w1) ∧
    ∃ w2 w3 a3 (channels : list R),
      @talkinghead_load_file demo (inr true) w1 = Return "OK" w2 ∧
      render_animation_frame w2 = Return () w3 ∧
      global_animator_instance w3 = Some a3 ∧
      new_frame_available a3 = true ∧
      result_image a3 = Some (@pose_image demo () channels).
Proof.
  intros presets.
  apply (first_frame_after_upload (H := demo) boot_world demo_animator presets (Some ())
           (inr true) true () demo_table_ok).
  - by apply Forall_nil.
  - vm_compute. by eexists.
  - reflexivity.
  - reflexivity.
Defined.

(** ** The drivers *)

(** The positions of the sway channels in the small instance. *)
Definition demo_sway_idxs : list nat := [3; 4; 5; 6; 7]%nat.

Lemma demo_sway_keys :
  Forall2 (λ key idx, @posedict_key_to_index demo !! key = Some idx) SWAYPARTS demo_sway_idxs.
Proof. repeat constructor. Qed.

Lemma demo_sway_idxs_NoDup : NoDup demo_sway_idxs.
Proof. unfold demo_sway_idxs. repeat (apply NoDup_cons; split; [set_solver |]). apply NoDup_nil_2. Qed.

Lemma demo_sway_idxs_lt (v : list R) idx :
  length v = 9%nat → idx ∈ demo_sway_idxs → (idx < length v)%nat.
Proof.
  intros -> Hin. unfold demo_sway_idxs in Hin.
  repeat (apply elem_of_cons in Hin as [-> | Hin]; [lia |]). by apply elem_of_nil in Hin.
Qed.

(** One pose, the rest pose, the clock at 0 and every random number 1/2. *)
Definition one_pose : @World demo :=
  demo_world [rest_pose] (λ _, 0%Z) (λ _, 0.5) demo_animator.

Lemma macrosway_new_target_witness :
  ∃ target w',
    let new_target_pose := length (heap one_pose) in
    let interval := 5 + (10 - 5) * rng one_pose 5%nat in
    @macrosway demo 0%nat one_pose = Return new_target_pose w' ∧
    heap w' = heap one_pose ++ [target] ∧
    global_animator_instance w'
    = Some (set_sway_interval (Some interval)
              (set_last_sway_target_timestamp (Some (clock one_pose 0%nat))
                 (set_last_sway_target_pose (Some new_target_pose) demo_animator))) ∧
    5 <= interval <= 10 ∧
    length target = length rest_pose ∧
    (∀ i, i ∉ demo_sway_idxs → target !! i = rest_pose !! i) ∧
    (∀ k idx x, demo_sway_idxs !! k = Some idx → rest_pose !! idx = Some x →
       target !! idx = Some (swayed x (rng one_pose k)) ∧
       (- random_max <= x <= random_max →
        - random_max <= swayed x (rng one_pose k) <= random_max)).
Proof.
  apply (macrosway_new_target (H := demo) one_pose demo_animator 0%nat rest_pose
           demo_sway_idxs eq_refl eq_refl demo_sway_keys demo_sway_idxs_NoDup).
  - intros idx. by apply demo_sway_idxs_lt.
  - intros n. simpl. lra.
  - left. discriminate.
Defined.

Lemma add_microsway_spec_witness :
  ∃ v',
    @add_microsway demo 0%nat one_pose
    = Return () (set_heap (<[0%nat := v']> (heap one_pose))
                   (set_rng (λ n, rng one_pose (5 + n)%nat) one_pose)) ∧
    length v' = length rest_pose ∧
    (∀ i, i ∉ demo_sway_idxs → v' !! i = rest_pose !! i) ∧
    (∀ k idx x, demo_sway_idxs !! k = Some idx → rest_pose !! idx = Some x →
       v' !! idx = Some (jittered x (rng one_pose k)) ∧
       -1 <= jittered x (rng one_pose k) <= 1 ∧
       (-1 <= x <= 1 → Rabs (jittered x (rng one_pose k) - x) <= noise_max)).
Proof.
  apply (add_microsway_spec (H := demo) one_pose 0%nat rest_pose demo_sway_idxs
           eq_refl demo_sway_keys demo_sway_idxs_NoDup).
  - intros idx. by apply demo_sway_idxs_lt.
  - intros n. simpl. lra.
Defined.

(** An animator that blinked at time 0, with three seconds to the next
    blink; one second later the random draw would allow a blink. *)
Definition blinked_animator : @Animator demo :=
  set_blink_interval (Some 3)
    (set_last_blink_timestamp (Some 0%Z)
       (set_last_emotion_change_timestamp (Some 0%Z) demo_animator)).

Definition eager_world (a : @Animator demo) : @World demo :=
  demo_world [rest_pose] (λ _, 10 ^ 9)%Z (λ _, 0.01) a.

Lemma animate_blinking_holds_witness :
  @animate_blinking demo 0%nat (eager_world blinked_animator)
  = Return 0%nat
      (set_clock (λ n, clock (eager_world blinked_animator) (S n))
         (set_rng (λ n, rng (eager_world blinked_animator) (S n))
            (eager_world blinked_animator))).
Proof.
  apply (animate_blinking_holds (H := demo) (eager_world blinked_animator)
           blinked_animator 0%nat eq_refl).
  - intros _. split; by eexists.
  - right. exists 3, 0%Z, 0%Z. split; [done |]. split; [done |]. split; [done |].
    split; [by intros [? _] |].
    change (clock (eager_world blinked_animator) 0%nat - 0)%Z with 1000000000%Z. lra.
Defined.

Lemma animate_blinking_blinks_witness :
  ∃ w',
    let interval := 2 + (5 - 2) * rng (eager_world demo_animator) 1%nat in
    let new_pose := <[1%nat := 1]> (<[0%nat := 1]> rest_pose) in
    @animate_blinking demo 0%nat (eager_world demo_animator)
    = Return (length (heap (eager_world demo_animator))) w' ∧
    heap w' = heap (eager_world demo_animator) ++ [new_pose] ∧
    new_pose !! 0%nat = Some 1 ∧ new_pose !! 1%nat = Some 1 ∧
    (∀ i, i ≠ 0%nat → i ≠ 1%nat → new_pose !! i = rest_pose !! i) ∧
    global_animator_instance w'
    = Some (set_blink_interval (Some interval)
              (set_last_blink_timestamp (Some (clock (eager_world demo_animator) 0%nat))
                 demo_animator)) ∧
    2 <= interval <= 5.
Proof.
  apply (animate_blinking_blinks (H := demo) (eager_world demo_animator) demo_animator
           0%nat rest_pose 0%nat 1%nat eq_refl eq_refl eq_refl eq_refl).
  - simpl. lia.
  - simpl. lia.
  - by intros [? ?].
  - simpl. lra.
  - by intros (? & ? & ? & ? & _).
  - simpl. lra.
Defined.

Lemma animate_breathing_spec_witness :
  ∃ w',
    let time_now := clock two_poses 0%nat in
    let cycle_pos := breathing_cycle_pos (breathing_epoch demo_animator) time_now in
    let new_pose := <[8%nat := breathing_value cycle_pos]> rest_pose in
    @animate_breathing demo 0%nat two_poses = Return (length (heap two_poses)) w' ∧
    heap w' = heap two_poses ++ [new_pose] ∧
    heap w' !! 0%nat = Some rest_pose ∧
    new_pose !! 8%nat = Some (breathing_value cycle_pos) ∧
    (∀ i, i ≠ 8%nat → new_pose !! i = rest_pose !! i) ∧
    0 <= breathing_value cycle_pos <= 1 ∧
    (0 <= cycle_pos < 1 → breathing_value cycle_pos = sin (cycle_pos * PI) ^ 2) ∧
    (breathing_epoch <$> global_animator_instance w'
     = Some (if decide (cycle_pos > 1) then time_now else breathing_epoch demo_animator)).
Proof.
  apply (animate_breathing_spec (H := demo) two_poses demo_animator 0%nat rest_pose 8%nat
           eq_refl eq_refl eq_refl).
  simpl. lia.
Defined.


(** A target with two channels only. *)
Definition short_target : @World demo :=
  demo_world [rest_pose; [0; 0]] (λ _, 0%Z) (λ _, 0.5) demo_animator.

Lemma interpolate_pose_short_raises_witness :
  ∃ w',
    @interpolate_pose demo 0%nat 1%nat 0.1 short_target = Raised IndexError w' ∧
    heap w' !! 0%nat = Some rest_pose ∧ heap w' !! 1%nat = Some [0; 0] ∧
    length (heap w') = S (length (heap short_target)) ∧
    global_animator_instance w' = global_animator_instance short_target.
Proof.
  apply (interpolate_pose_short_raises (H := demo) short_target 0%nat 1%nat rest_pose [0; 0]
           0.1 eq_refl eq_refl).
  right. simpl. lia.
Defined.

(** ** The pipeline *)

(** A run of the pipeline from the launch: a first frame is rendered,
    encoded and put into [image_bytes]; a second one is rendered and
    encoded, and the encoder waits for the first to be sent. *)
Lemma waiting_run :
  ∃ (past : list (System * action)) (s : System) (new_frame previous_frame : EncodedFrame),
    execution pipeline_start past s ∧
    encoder_thread s = EncoderWaiting new_frame previous_frame ∧
    image_bytes s = Some previous_frame ∧
    encoder_terminated s = false ∧
    length past = 7%nat.
Proof.
  destruct (animator_delivers (H := demo) pipeline_start [] pipeline_start demo_animator
              demo_table_ok (execution_start _ pipeline_start_initial)
              eq_refl eq_refl pipeline_start_well_formed eq_refl eq_refl)
    as (img1 & t1 & w1 & w2 & a2 & Hexec1 & Hstep2 & Hw2 & Ha2 & Hflag2 & Himg2).
  pose proof (execution_step _ _ _ _ _ Hexec1 Hstep2) as Hexec2.
  lazymatch type of Hexec2 with
  | execution _ _ ?s =>
      destruct (encoder_takes (H := demo) s a2 img1 eq_refl eq_refl Hw2 Ha2 Hflag2 Himg2)
        as (w3 & a3 & Hstep3 & Hw3 & Ha3 & Hflag3)
  end.
  simpl in Hstep3.
  pose proof (execution_step _ _ _ _ _ Hexec2 Hstep3) as Hexec3.
  extend_run Hexec3 Hexec4 ltac:(by apply step_encoder_publish).
  lazymatch type of Hexec4 with
  | execution _ ?past ?s =>
      destruct (animator_delivers (H := demo) pipeline_start past s a3 demo_table_ok Hexec4
                  eq_refl eq_refl (steady_well_formed _ Hw3) Ha3 Hflag3)
        as (img2 & t2 & w4 & w5 & a5 & Hexec5 & Hstep6 & Hw5 & Ha5 & Hflag5 & Himg5)
  end.
  pose proof (execution_step _ _ _ _ _ Hexec5 Hstep6) as Hexec6.
  lazymatch type of Hexec6 with
  | execution _ _ ?s =>
      destruct (encoder_takes (H := demo) s a5 img2 eq_refl eq_refl Hw5 Ha5 Hflag5 Himg5)
        as (w6 & a6 & Hstep7 & Hw6 & Ha6 & Hflag6)
  end.
  simpl in Hstep7.
  pose proof (execution_step _ _ _ _ _ Hexec6 Hstep7) as Hexec7.
  eexists _, _, _, _. split; [exact Hexec7 |].
  split; [reflexivity |]. split; [reflexivity |]. split; reflexivity.
Qed.

(** The same run, once a feed has read and sent the first frame. *)
Lemma sent_run :
  ∃ (earlier : list (System * action)) (s1 s : System) (f : EncodedFrame),
    execution pipeline_start ((s1, FeedSent f) :: earlier) s ∧
    encoder_terminated s = false.
Proof.
  destruct waiting_run as (past & s & n & p & Hexec & Hpc & Hbytes & Hterm & _).
  extend_run Hexec Hexec1 ltac:(by apply step_feed_read).
  extend_run Hexec1 Hexec2 ltac:(by apply (step_feed_sent _ p [] (feeds s))).
  eexists _, _, _, _. split; [exact Hexec2 |]. done.
Qed.

Lemma raw_frames_taken_once_witness :
  ∃ (past : list (System * action)) (s : System),
    execution pipeline_start past s ∧ past ≠ [] ∧
    ∃ a, global_animator_instance (world s) = Some a ∧
      length (handed_over past)
      = (length (taken past) + length (spoiled past)
         + if new_frame_available a then 1 else 0)%nat ∧
      (length (taken past) ≤ length (handed_over past))%nat ∧
      (length (handed_over past) ≤ length (taken past) + length (spoiled past) + 1)%nat ∧
      (length (spoiled past) ≤ 1)%nat.
Proof.
  destruct sent_run as (earlier & s1 & s & f & Hexec & _).
  eexists _, s. split; [exact Hexec |]. split; [done |].
  exact (raw_frames_taken_once (H := demo) _ _ _ Hexec).
Defined.

Lemma rendering_bounded_by_sends_witness :
  ∃ (past : list (System * action)) (s : System),
    execution pipeline_start past s ∧
    global_latest_frame_sent pipeline_start = None ∧
    encoder_terminated s = false ∧ past ≠ [] ∧
    (length (replaced past) ≤ length (sends past) + 1)%nat ∧
    (length (taken past) + length (spoiled past) ≤ length (replaced past) + 1)%nat ∧
    (length (handed_over past) ≤ length (sends past) + 3)%nat.
Proof.
  destruct sent_run as (earlier & s1 & s & f & Hexec & Hterm).
  eexists _, s. split; [exact Hexec |]. split; [reflexivity |].
  split; [exact Hterm |]. split; [done |].
  exact (rendering_bounded_by_sends (H := demo) _ _ _ Hexec eq_refl Hterm).
Defined.

Lemma sent_frames_were_rendered_witness :
  ∃ (earlier : list (System * action)) (s1 s : System) (f : EncodedFrame),
    execution pipeline_start ([] ++ (s1, FeedSent f) :: earlier) s ∧
    f ∈ replaced earlier ∧
    ∃ img, img ∈ handed_over earlier ∧ frame_bytes f = encode_png img.
Proof.
  destruct sent_run as (earlier & s1 & s & f & Hexec & _).
  exists earlier, s1, s, f. split; [exact Hexec |].
  exact (sent_frames_were_rendered (H := demo) pipeline_start [] earlier s1 s f Hexec).
Defined.

Lemma encoder_wait_can_end_witness :
  ∃ (past : list (System * action)) (s : System) (new_frame previous_frame : EncodedFrame),
    execution pipeline_start past s ∧
    encoder_thread s = EncoderWaiting new_frame previous_frame ∧
    image_bytes s = Some previous_frame ∧
    ∃ s1 s2 s3 s4,
      execution pipeline_start
        ((s3, EncoderPublish new_frame) :: (s2, EncoderProceed)
         :: (s1, FeedSent previous_frame) :: (s, FeedRead previous_frame) :: past) s4 ∧
      global_latest_frame_sent s4 = Some (frame_id previous_frame) ∧
      image_bytes s4 = Some new_frame ∧
      encoder_thread s4 = EncoderIdle.
Proof.
  destruct waiting_run as (past & s & n & p & Hexec & Hpc & _).
  exists past, s, n, p. split; [exact Hexec |]. split; [exact Hpc |].
  exact (encoder_wait_can_end (H := demo) pipeline_start past s n p Hexec Hpc).
Defined.

(** The launch with an animator that has no preset for the current
    emotion. *)
Definition joyless_start : @System demo :=
  set_world (demo_world [] (λ _, 0%Z) (λ _, 0.5) joy_only_animator) pipeline_start.

Lemma joyless_start_initial : initial joyless_start.
Proof. repeat split; try done. exists joy_only_animator. by split. Qed.

(** The first tick of that launch raises [KeyError]. *)
Lemma joyless_run :
  ∃ (s1 s : System),
    execution joyless_start ([(s1, Api CallUnload)] ++ (joyless_start, AnimatorRaise) :: []) s.
Proof.
  destruct (render_frame_missing_preset (H := demo) (world joyless_start)
              joy_only_animator () eq_refl)
    as (w' & Hrun & _); try reflexivity.
  pose proof (execution_start _ joyless_start_initial) as Hexec.
  extend_run Hexec Hexec1
    ltac:(by eapply (step_animator_raise_render (H := demo) joyless_start KeyError w')).
  extend_run Hexec1 Hexec2 ltac:(apply (step_api _ CallUnload)).
  eexists _, _. exact Hexec2.
Qed.

(** The encoder fails on the first frame, and is then told to
    terminate. *)
Lemma spoiled_run :
  ∃ (earlier : list (System * action)) (s1 s2 s : System),
    execution pipeline_start ([(s2, EncoderExit)] ++ (s1, EncoderRaise) :: earlier) s.
Proof.
  destruct (animator_delivers (H := demo) pipeline_start [] pipeline_start demo_animator
              demo_table_ok (execution_start _ pipeline_start_initial)
              eq_refl eq_refl pipeline_start_well_formed eq_refl eq_refl)
    as (img1 & t1 & w1 & w2 & a2 & Hexec1 & Hstep2 & Hw2 & Ha2 & Hflag2 & Himg2).
  pose proof (execution_step _ _ _ _ _ Hexec1 Hstep2) as Hexec2.
  destruct (consume_frame_steady (H := demo) w2 Hw2) as (w3 & a3 & Hconsume & _).
  extend_run Hexec2 Hexec3
    ltac:(by eapply (step_encoder_raise (H := demo) _ a2 w3)).
  extend_run Hexec3 Hexec4 ltac:(apply step_encoder_exit).
  eexists _, _, _, _. exact Hexec4.
Qed.

Lemma raised_thread_never_acts_witness :
  (∃ (s1 s : System),
     execution joyless_start ([(s1, Api CallUnload)] ++ (joyless_start, AnimatorRaise) :: []) s ∧
     animator_thread s = AnimatorStopped ∧
     Forall (λ x, animator_acts x.2 = false) [(s1, @Api demo CallUnload)] ∧
     handed_over ([(s1, Api CallUnload)] ++ (joyless_start, AnimatorRaise) :: [])
     = handed_over []) ∧
  (∃ (earlier : list (System * action)) (s1 s2 s : System),
     execution pipeline_start ([(s2, EncoderExit)] ++ (s1, EncoderRaise) :: earlier) s ∧
     encoder_thread s = EncoderStopped ∧
     Forall (λ x, encoder_acts x.2 = false) [(s2, @EncoderExit demo)] ∧
     image_bytes s = image_bytes s1).
Proof.
  split.
  - destruct joyless_run as (s1 & s & Hexec). exists s1, s. split; [exact Hexec |].
    exact (proj1 (raised_thread_never_acts (H := demo) _ _ _ _ _) Hexec).
  - destruct spoiled_run as (earlier & s1 & s2 & s & Hexec).
    exists earlier, s1, s2, s. split; [exact Hexec |].
    exact (proj2 (raised_thread_never_acts (H := demo) _ _ _ _ _) Hexec).
Defined.

(** The launch, then both threads are told to terminate and leave. *)
Lemma exit_stops_the_loops_witness :
  (∃ (s1 s : System),
     execution pipeline_start
       ([(s1, AnimatorLeave)] ++ (pipeline_start, AnimatorExit) :: []) s ∧
     animator_terminated s = true ∧
     Forall (λ x, starts_tick x.2 = false) [(s1, @AnimatorLeave demo)] ∧
     (length (handed_over [(s1, @AnimatorLeave demo)]) ≤ 1)%nat) ∧
  (∃ (s1 s : System),
     execution pipeline_start
       ([(s1, EncoderLeave)] ++ (pipeline_start, EncoderExit) :: []) s ∧
     encoder_terminated s = true ∧
     Forall (λ x, starts_round x.2 = false) [(s1, @EncoderLeave demo)] ∧
     (length (replaced [(s1, @EncoderLeave demo)]) ≤ 1)%nat).
Proof.
  pose proof (execution_start _ pipeline_start_initial) as Hexec.
  split.
  - extend_run Hexec Hexec1 ltac:(apply step_animator_exit).
    extend_run Hexec1 Hexec2 ltac:(by apply step_animator_leave).
    eexists _, _. split; [exact Hexec2 |].
    exact (proj1 (exit_stops_the_loops (H := demo) pipeline_start
                    [(set_animator_terminated true pipeline_start, AnimatorLeave)] []
                    pipeline_start _) Hexec2).
  - extend_run Hexec Hexec1 ltac:(apply step_encoder_exit).
    extend_run Hexec1 Hexec2 ltac:(by apply step_encoder_leave).
    eexists _, _. split; [exact Hexec2 |].
    exact (proj2 (exit_stops_the_loops (H := demo) pipeline_start
                    [(set_encoder_terminated true pipeline_start, EncoderLeave)] []
                    pipeline_start _) Hexec2).
Defined.

(** ** The feed *)

(** Ten milliseconds after a send that took no time: thirty more to
    wait. *)
Lemma feed_pacing_witness :
  let f := @Build_EncodedFrame demo 0 ([] : list R) in
  let l := {| result_feed.last_frame_send_complete_time := Some 0%Z;
              result_feed.last_report_time := None;
              result_feed.send_duration_sec := 0;
              result_feed.send_duration_statistics := [] |} in
  let w := demo_world [] (λ _, 10 ^ 7)%Z (λ _, 0.5) demo_animator in
  time_until_frame_deadline l 0 (clock w 0%nat) = 0.03 ∧
  ∃ l' w',
    @result_feed.generate_iteration demo (Some f) l w
    = Return (if decide (time_until_frame_deadline l 0 (clock w 0%nat) <= 0)
              then result_feed.Yield f
              else result_feed.Sleep (time_until_frame_deadline l 0 (clock w 0%nat)), l') w'.
Proof.
  intros f l w. split.
  - unfold time_until_frame_deadline, result_feed.TARGET_FPS. simpl.
    change (10 ^ 7 - 0)%Z with 10000000%Z. lra.
  - destruct (feed_pacing (H := demo) w f l) as (_ & _ & Hpaced).
    destruct (Hpaced 0%Z eq_refl) as (l' & w' & Hrun & _). by exists l', w'.
Defined.

End MoreRuns.
